(** * The Adan optimizer of neosr (src/neosr/optimizers/adan.py)

    A shallow embedding of the optimizer: tensors live in a store and are
    mutated in place, Python exceptions are explicit outcomes, and the
    arithmetic of the scalars is an interface that the IEEE binary64 numbers
    of Rocq implement. *)

From Stdlib Require Import Floats.
From stdpp Require Import gmap list strings.

Open Scope string_scope.
Open Scope list_scope.

(** ** Scalars

    The numbers of the program are Python floats and tensor elements.  The
    embedding only names the operations the source applies to them; no
    algebraic law is assumed, so every general theorem below holds for
    floating-point arithmetic as well as for exact arithmetic. *)

Class Scalar (F : Type) := {
  fzero : F;
  fone : F;
  fadd : F -> F -> F;
  fsub : F -> F -> F;
  fmul : F -> F -> F;
  fdiv : F -> F -> F;
  fneg : F -> F;
  fsqrt : F -> F;
  (* [x ** n] for an integer exponent *)
  fpow : F -> nat -> F;
  (* an integer as a scalar: the element count of a tensor, the exponent of a
     power *)
  of_nat : nat -> F;
  (* [x <= y], [x < y], [x == y] *)
  fleb : F -> F -> bool;
  fltb : F -> F -> bool;
  feqb : F -> F -> bool;
  (* [math.isnan(x)], [math.isinf(x)] *)
  fis_nan : F -> bool;
  fis_inf : F -> bool
}.

Declare Scope scalar_scope.
Delimit Scope scalar_scope with F.
Infix "+" := fadd : scalar_scope.
Infix "-" := fsub : scalar_scope.
Infix "*" := fmul : scalar_scope.
Infix "/" := fdiv : scalar_scope.
Notation "- x" := (fneg x) : scalar_scope.

(** ** Exceptions and the state-and-exception monad

    A Python exception leaves every mutation made before it in place, so a
    computation returns its outcome together with the store it reached. *)

Definition loc := nat.

Inductive exn :=
  | ValueError (msg : string)
  | NameError (name : string)
  | IndexError
  | KeyError (key : string)
  | ZeroDivisionError
  | OverflowError
  | RuntimeError (msg : string)
  (* a reference to a tensor that is not in the store; Python references keep
     their objects alive, so this outcome only marks ill-formed stores *)
  | Unallocated (l : loc).

Inductive outcome (A : Type) :=
  | Ok (a : A)
  | Raise (e : exn).
Arguments Ok {A} a.
Arguments Raise {A} e.

Definition M (S A : Type) : Type := S -> outcome A * S.

Definition ret {S A} (a : A) : M S A := fun s => (Ok a, s).

Definition raise {S A} (e : exn) : M S A := fun s => (Raise e, s).

Definition bind {S A B} (m : M S A) (k : A -> M S B) : M S B :=
  fun s =>
    match m s with
    | (Ok a, s') => k a s'
    | (Raise e, s') => (Raise e, s')
    end.

Notation "'let*' x ':=' m 'in' k" := (bind m (fun x => k))
  (at level 10, x pattern, m at level 100, k at level 200).
Notation "m '>>' k" := (bind m (fun _ => k))
  (at level 100, k at level 200, right associativity).

(** [for x in l: f x] *)
Fixpoint for_each {S A} (f : A -> M S unit) (l : list A) : M S unit :=
  match l with
  | [] => ret tt
  | x :: xs => f x >> for_each f xs
  end.

(** [enumerate(l)], counting from [k] *)
Fixpoint enumerate_from {A} (k : nat) (l : list A) : list (nat * A) :=
  match l with
  | [] => []
  | x :: xs => (k, x) :: enumerate_from (S k) xs
  end.

Definition enumerate {A} (l : list A) : list (nat * A) := enumerate_from 0 l.

(** [l[i]] *)
Definition index {S A} (l : list A) (i : nat) : M S A :=
  match l !! i with
  | Some x => ret x
  | None => raise IndexError
  end.

Section Kernels.

Context {F : Type} `{Scalar F}.

Abbreviation Tensor := (list F).
Abbreviation Heap := (gmap loc (list F)).

(** ** Tensors

    A tensor is the list of its elements; its shape is represented by its
    element count.  The kernels only use element-wise operations, the sum and
    the mean of all the elements. *)

(** [t * c], [t / c], [t + c], [t - c] for a scalar [c] *)
Definition t_mul (t : Tensor) (c : F) : Tensor := map (fun x => x * c)%F t.

Definition t_div (t : Tensor) (c : F) : Tensor := map (fun x => x / c)%F t.

Definition t_add_scalar (t : Tensor) (c : F) : Tensor :=
  map (fun x => x + c)%F t.

Definition t_sub_scalar (t : Tensor) (c : F) : Tensor :=
  map (fun x => x - c)%F t.

(** [t.sqrt()], [t.pow(n)] *)
Definition t_sqrt (t : Tensor) : Tensor := map fsqrt t.

Definition t_pow (t : Tensor) (n : nat) : Tensor := map (fun x => fpow x n) t.

(** [a + b], [a + alpha * b], [a + v * b * c], [a + v * b / c], element by
    element, for tensors of the same shape *)
Definition t_add (a b : Tensor) : Tensor := zip_with fadd a b.

Definition t_add_alpha (a b : Tensor) (alpha : F) : Tensor :=
  zip_with (fun x y => x + alpha * y)%F a b.

Definition t_addcmul (a b c : Tensor) (v : F) : Tensor :=
  zip_with fadd a (zip_with (fun x y => v * x * y)%F b c).

Definition t_addcdiv (a b c : Tensor) (v : F) : Tensor :=
  zip_with fadd a (zip_with (fun x y => v * x / y)%F b c).

(** An element-wise operation on two tensors needs them to have the same
    shape. *)
Definition same_shape {S} (a b : Tensor) : M S unit :=
  if decide (length a = length b) then ret tt
  else raise (RuntimeError "shape mismatch").

Definition t_sum (t : Tensor) : F := foldl fadd fzero t.

(** [torch.mean(t)] *)
Definition t_mean (t : Tensor) : F := (t_sum t / of_nat (length t))%F.

(** [torch.zeros_like(t)] *)
Definition zeros_like (t : Tensor) : Tensor := replicate (length t) fzero.

(** ** The store *)

Definition read (l : loc) : M Heap Tensor :=
  fun h => match h !! l with
           | Some t => (Ok t, h)
           | None => (Raise (Unallocated l), h)
           end.

Definition write (l : loc) (t : Tensor) : M Heap unit :=
  fun h => (Ok tt, <[l := t]> h).

(** A new tensor object gets a location that is not in use. *)
Definition alloc (t : Tensor) : M Heap loc :=
  fun h => let l := fresh (dom h) in (Ok l, <[l := t]> h).

(** A tensor expression is either a tensor object of the store or a
    temporary that no other name refers to. *)
Inductive tref :=
  | Ref (l : loc)
  | Tmp (t : Tensor).

Definition read_ref (r : tref) : M Heap Tensor :=
  match r with
  | Ref l => read l
  | Tmp t => ret t
  end.

(** *** In-place tensor methods *)

(** [t.mul_(c)] *)
Definition mul_ (l : loc) (c : F) : M Heap unit :=
  let* t := read l in write l (t_mul t c).

(** [t.div_(c)] *)
Definition div_ (l : loc) (c : F) : M Heap unit :=
  let* t := read l in write l (t_div t c).

(** [t.zero_()] *)
Definition zero_ (l : loc) : M Heap unit :=
  let* t := read l in write l (zeros_like t).

(** [t.add_(o)] *)
Definition add_ (l o : loc) : M Heap unit :=
  let* a := read l in
  let* b := read o in
  same_shape a b >>
  write l (t_add a b).

(** [t.add_(o, alpha=alpha)]: [t + alpha * o] *)
Definition add_alpha_ (l o : loc) (alpha : F) : M Heap unit :=
  let* a := read l in
  let* b := read o in
  same_shape a b >>
  write l (t_add_alpha a b alpha).

(** [t.add_(s, alpha=alpha)] for a zero-dimensional [s] *)
Definition add_scalar_alpha_ (l : loc) (s alpha : F) : M Heap unit :=
  let* a := read l in write l (t_add_scalar a (alpha * s)%F).

(** [t.addcmul_(t1, t2, value=v)]: [t + v * t1 * t2] *)
Definition addcmul_ (l t1 t2 : loc) (v : F) : M Heap unit :=
  let* a := read l in
  let* b := read t1 in
  let* c := read t2 in
  same_shape b c >>
  same_shape a b >>
  write l (t_addcmul a b c v).

(** [t.addcdiv_(t1, t2, value=v)]: [t + v * t1 / t2] *)
Definition addcdiv_ (l : loc) (t1 t2 : tref) (v : F) : M Heap unit :=
  let* a := read l in
  let* b := read_ref t1 in
  let* c := read_ref t2 in
  same_shape b c >>
  same_shape a b >>
  write l (t_addcdiv a b c v).

(** Division of two Python floats *)
Definition py_div (a b : F) : M Heap F :=
  if feqb b fzero then raise ZeroDivisionError else ret (a / b)%F.

(** ** The arguments of the two kernels *)

Record kernel_args := {
  params : list loc;
  grads : list loc;
  exp_avgs : list loc;
  exp_avg_sqs : list loc;
  exp_avg_diffs : list loc;
  neg_pre_grads : list loc;
  beta1 : F;
  beta2 : F;
  beta3 : F;
  bias_correction1 : F;
  bias_correction2 : F;
  bias_correction3_sqrt : F;
  lr : F;
  weight_decay : F;
  eps : F;
  no_prox : bool;
  mc : bool;
  clip_global_grad_norm : F
}.

(** [(exp_avg_sq).sqrt() / bias_correction3_sqrt).add_(eps)], a temporary *)
Definition denom_of (k : kernel_args) (exp_avg_sq : Tensor) : Tensor :=
  t_add_scalar (t_div (t_sqrt exp_avg_sq) (bias_correction3_sqrt k)) (eps k).

(** ** The scalar kernel *)

(** The body of the loop of [_single_tensor_adan] *)
Definition single_tensor_body (k : kernel_args) (ip : nat * loc) : M Heap unit :=
  let '(i, param) := ip in
  let* grad := index (grads k) i in
  let* exp_avg := index (exp_avgs k) i in
  let* exp_avg_sq := index (exp_avg_sqs k) i in
  let* exp_avg_diff := index (exp_avg_diffs k) i in
  let* neg_grad_or_diff := index (neg_pre_grads k) i in
  mul_ grad (clip_global_grad_norm k) >>
  add_ neg_grad_or_diff grad >>
  mul_ exp_avg (beta1 k) >>
  add_alpha_ exp_avg grad (fone - beta1 k)%F >>
  (* [exp_avg = exp_avg - torch.mean(exp_avg)] binds the name to a new
     tensor; the tensor object of the state is not written *)
  let* exp_avg' :=
    (if mc k then
       let* m := read exp_avg in
       ret (Tmp (t_sub_scalar m (t_mean m)))
     else ret (Ref exp_avg)) in
  mul_ exp_avg_diff (beta2 k) >>
  add_alpha_ exp_avg_diff neg_grad_or_diff (fone - beta2 k)%F >>
  mul_ neg_grad_or_diff (beta2 k) >>
  add_ neg_grad_or_diff grad >>
  mul_ exp_avg_sq (beta3 k) >>
  addcmul_ exp_avg_sq neg_grad_or_diff neg_grad_or_diff (fone - beta3 k)%F >>
  let* n := read exp_avg_sq in
  let denom := Tmp (denom_of k n) in
  let* step_size_diff := py_div (lr k * beta2 k)%F (bias_correction2 k) in
  let* step_size := py_div (lr k) (bias_correction1 k) in
  (if no_prox k then
     mul_ param (fone - lr k * weight_decay k)%F >>
     addcdiv_ param exp_avg' denom (- step_size)%F >>
     addcdiv_ param (Ref exp_avg_diff) denom (- step_size_diff)%F
   else
     addcdiv_ param exp_avg' denom (- step_size)%F >>
     addcdiv_ param (Ref exp_avg_diff) denom (- step_size_diff)%F >>
     div_ param (fone + lr k * weight_decay k)%F) >>
  zero_ neg_grad_or_diff >>
  add_alpha_ neg_grad_or_diff grad (- fone)%F.

Definition _single_tensor_adan (k : kernel_args) : M Heap unit :=
  for_each (single_tensor_body k) (enumerate (params k)).

(** ** The batched kernel *)

(** [torch._foreach_op_(ts, c)] for a scalar [c] *)
Definition foreach_scalar (op : loc -> F -> M Heap unit) (ts : list loc) (c : F)
  : M Heap unit :=
  for_each (fun l => op l c) ts.

(** [torch._foreach_op_(ts, os)]: the two lists need the same number of
    tensors *)
Definition foreach_list {B} (op : loc -> B -> M Heap unit) (ts : list loc)
    (os : list B) : M Heap unit :=
  if decide (length ts = length os)
  then for_each (fun lo => op (fst lo) (snd lo)) (zip ts os)
  else raise (RuntimeError "tensor lists of different lengths").

(** [torch._foreach_op_(ts, t1s, t2s)] *)
Definition foreach_list3 {B C} (op : loc -> B -> C -> M Heap unit)
    (ts : list loc) (t1s : list B) (t2s : list C) : M Heap unit :=
  if decide (length ts = length t1s /\ length ts = length t2s)
  then for_each (fun x => op (fst x) (fst (snd x)) (snd (snd x)))
         (zip ts (zip t1s t2s))
  else raise (RuntimeError "tensor lists of different lengths").

(** [torch._foreach_zero_(ts)] *)
Definition foreach_zero_ (ts : list loc) : M Heap unit := for_each zero_ ts.

(** [torch._foreach_sqrt(ts)]: a list of new tensors *)
Fixpoint foreach_sqrt (ts : list loc) : M Heap (list Tensor) :=
  match ts with
  | [] => ret []
  | l :: ls =>
      let* t := read l in
      let* r := foreach_sqrt ls in
      ret (t_sqrt t :: r)
  end.

(** The loop that collects [torch.mean(exp_avgs[i])] for every [i] *)
Fixpoint exp_avg_means (k : kernel_args) (ips : list (nat * loc)) (acc : list F)
  : M Heap (list F) :=
  match ips with
  | [] => ret acc
  | (i, _) :: rest =>
      let* exp_avg := index (exp_avgs k) i in
      let* m := read exp_avg in
      exp_avg_means k rest (acc ++ [t_mean m])
  end.

Definition _multi_tensor_adan (k : kernel_args) : M Heap unit :=
  if decide (length (params k) = 0) then ret tt else
  foreach_scalar mul_ (grads k) (clip_global_grad_norm k) >>
  foreach_list add_ (neg_pre_grads k) (grads k) >>
  foreach_scalar mul_ (exp_avgs k) (beta1 k) >>
  foreach_list (fun l o => add_alpha_ l o (fone - beta1 k)%F)
    (exp_avgs k) (grads k) >>
  (if mc k then
     let* exp_avg_mean := exp_avg_means k (enumerate (params k)) [] in
     (* the means are subtracted in place, from the tensors of the state *)
     foreach_list (fun l s => add_scalar_alpha_ l s (- fone)%F)
       (exp_avgs k) exp_avg_mean
   else ret tt) >>
  foreach_scalar mul_ (exp_avg_diffs k) (beta2 k) >>
  foreach_list (fun l o => add_alpha_ l o (fone - beta2 k)%F)
    (exp_avg_diffs k) (neg_pre_grads k) >>
  foreach_scalar mul_ (neg_pre_grads k) (beta2 k) >>
  foreach_list add_ (neg_pre_grads k) (grads k) >>
  foreach_scalar mul_ (exp_avg_sqs k) (beta3 k) >>
  foreach_list3 (fun l t1 t2 => addcmul_ l t1 t2 (fone - beta3 k)%F)
    (exp_avg_sqs k) (neg_pre_grads k) (neg_pre_grads k) >>
  let* roots := foreach_sqrt (exp_avg_sqs k) in
  let denom :=
    map (fun r => Tmp (t_add_scalar (t_div r (bias_correction3_sqrt k)) (eps k)))
      roots in
  let* step_size_diff := py_div (lr k * beta2 k)%F (bias_correction2 k) in
  let* step_size := py_div (lr k) (bias_correction1 k) in
  (if no_prox k then
     foreach_scalar mul_ (params k) (fone - lr k * weight_decay k)%F >>
     foreach_list3 (fun l t1 t2 => addcdiv_ l t1 t2 (- step_size)%F)
       (params k) (map Ref (exp_avgs k)) denom >>
     foreach_list3 (fun l t1 t2 => addcdiv_ l t1 t2 (- step_size_diff)%F)
       (params k) (map Ref (exp_avg_diffs k)) denom
   else
     foreach_list3 (fun l t1 t2 => addcdiv_ l t1 t2 (- step_size)%F)
       (params k) (map Ref (exp_avgs k)) denom >>
     foreach_list3 (fun l t1 t2 => addcdiv_ l t1 t2 (- step_size_diff)%F)
       (params k) (map Ref (exp_avg_diffs k)) denom >>
     foreach_scalar div_ (params k) (fone + lr k * weight_decay k)%F) >>
  foreach_zero_ (neg_pre_grads k) >>
  foreach_list (fun l o => add_alpha_ l o (- fone)%F)
    (neg_pre_grads k) (grads k).

(** ** The update equations

    The equations of the update as the specification lists them, on the
    values of one parameter: a function with no store, no buffer and no
    loop, to compare the kernels with. *)

Record adan_values := {
  a_param : Tensor;
  a_grad : Tensor;
  a_exp_avg : Tensor;
  a_exp_avg_sq : Tensor;
  a_exp_avg_diff : Tensor;
  a_neg_pre_grad : Tensor
}.

Definition adan_equations (k : kernel_args) (v : adan_values) : adan_values :=
  (* the clipped gradient *)
  let g := t_mul (a_grad v) (clip_global_grad_norm k) in
  (* 1. g - prev_g, as neg_pre + g *)
  let delta := t_add (a_neg_pre_grad v) g in
  (* 2. m <- beta1 m + (1 - beta1) g *)
  let m := t_add_alpha (t_mul (a_exp_avg v) (beta1 k)) g (fone - beta1 k)%F in
  (* 3. its mean is subtracted from m before m is used *)
  let m_used := if mc k then t_sub_scalar m (t_mean m) else m in
  (* 4. diff <- beta2 diff + (1 - beta2) (g - prev_g) *)
  let diff :=
    t_add_alpha (t_mul (a_exp_avg_diff v) (beta2 k)) delta (fone - beta2 k)%F in
  (* 5. beta2 (g - prev_g) + g *)
  let blend := t_add (t_mul delta (beta2 k)) g in
  (* 6. n <- beta3 n + (1 - beta3) (beta2 (g - prev_g) + g)^2 *)
  let n :=
    t_addcmul (t_mul (a_exp_avg_sq v) (beta3 k)) blend blend
      (fone - beta3 k)%F in
  (* 7. denom = sqrt n / sqrt bc3 + eps *)
  let denom :=
    t_add_scalar (t_div (t_sqrt n) (bias_correction3_sqrt k)) (eps k) in
  (* 8. the step sizes *)
  let step_size := (lr k / bias_correction1 k)%F in
  let step_size_diff := (lr k * beta2 k / bias_correction2 k)%F in
  (* 9. the parameter: the decay before the two subtractions when no_prox,
     after them otherwise *)
  let param :=
    if no_prox k then
      t_addcdiv
        (t_addcdiv (t_mul (a_param v) (fone - lr k * weight_decay k)%F)
           m_used denom (- step_size)%F)
        diff denom (- step_size_diff)%F
    else
      t_div
        (t_addcdiv (t_addcdiv (a_param v) m_used denom (- step_size)%F)
           diff denom (- step_size_diff)%F)
        (fone + lr k * weight_decay k)%F in
  (* 10. neg_pre <- -g, as 0 + (-1) g *)
  {| a_param := param;
     a_grad := g;
     a_exp_avg := m;
     a_exp_avg_sq := n;
     a_exp_avg_diff := diff;
     a_neg_pre_grad := t_add_alpha (zeros_like g) g (- fone)%F |}.

(** The equations as the batched kernel realises them: the mean is
    subtracted, as [m + (-1) mean], from the tensor of the state itself, so
    that the stored first moment is the centralized one. *)
Definition adan_equations_batched (k : kernel_args) (v : adan_values)
  : adan_values :=
  let g := t_mul (a_grad v) (clip_global_grad_norm k) in
  let delta := t_add (a_neg_pre_grad v) g in
  let m := t_add_alpha (t_mul (a_exp_avg v) (beta1 k)) g (fone - beta1 k)%F in
  let m_used :=
    if mc k then t_add_scalar m (- fone * t_mean m)%F else m in
  let diff :=
    t_add_alpha (t_mul (a_exp_avg_diff v) (beta2 k)) delta (fone - beta2 k)%F in
  let blend := t_add (t_mul delta (beta2 k)) g in
  let n :=
    t_addcmul (t_mul (a_exp_avg_sq v) (beta3 k)) blend blend
      (fone - beta3 k)%F in
  let denom :=
    t_add_scalar (t_div (t_sqrt n) (bias_correction3_sqrt k)) (eps k) in
  let step_size := (lr k / bias_correction1 k)%F in
  let step_size_diff := (lr k * beta2 k / bias_correction2 k)%F in
  let param :=
    if no_prox k then
      t_addcdiv
        (t_addcdiv (t_mul (a_param v) (fone - lr k * weight_decay k)%F)
           m_used denom (- step_size)%F)
        diff denom (- step_size_diff)%F
    else
      t_div
        (t_addcdiv (t_addcdiv (a_param v) m_used denom (- step_size)%F)
           diff denom (- step_size_diff)%F)
        (fone + lr k * weight_decay k)%F in
  {| a_param := param;
     a_grad := g;
     a_exp_avg := m_used;
     a_exp_avg_sq := n;
     a_exp_avg_diff := diff;
     a_neg_pre_grad := t_add_alpha (zeros_like g) g (- fone)%F |}.

End Kernels.

Arguments kernel_args : clear implicits.
Arguments adan_values : clear implicits.
Arguments tref : clear implicits.

(** ** The optimizer object *)

Section Optimizer.

Context {F : Type} `{Scalar F}.

Abbreviation Tensor := (list F).
Abbreviation Heap := (gmap loc (list F)).

(** A parameter is a tensor object of the store, identified by its location,
    with its attributes [grad] and [requires_grad]. *)
Record Param := {
  p_data : loc;
  p_grad : option loc;
  p_requires_grad : bool
}.

(** The hyperparameters given to the constructor: [self.defaults] *)
Record Defaults := {
  d_lr : F;
  d_betas : F * F * F;
  d_eps : F;
  d_weight_decay : F;
  d_max_grad_norm : F;
  d_no_prox : bool;
  d_mc : bool;
  d_foreach : bool
}.

(** A parameter group.  The key ["step"] is absent until the first call of
    [step]; ["no_prox"] is the key [__setstate__] provides a default for. *)
Record Group := {
  g_params : list Param;
  g_lr : F;
  g_betas : F * F * F;
  g_eps : F;
  g_weight_decay : F;
  g_max_grad_norm : F;
  g_no_prox : option bool;
  g_mc : bool;
  g_foreach : bool;
  g_step : option nat
}.

Definition set_g_step (n : nat) (g : Group) : Group :=
  {| g_params := g_params g; g_lr := g_lr g; g_betas := g_betas g;
     g_eps := g_eps g; g_weight_decay := g_weight_decay g;
     g_max_grad_norm := g_max_grad_norm g; g_no_prox := g_no_prox g;
     g_mc := g_mc g; g_foreach := g_foreach g; g_step := Some n |}.

Definition set_g_no_prox (b : bool) (g : Group) : Group :=
  {| g_params := g_params g; g_lr := g_lr g; g_betas := g_betas g;
     g_eps := g_eps g; g_weight_decay := g_weight_decay g;
     g_max_grad_norm := g_max_grad_norm g; g_no_prox := Some b;
     g_mc := g_mc g; g_foreach := g_foreach g; g_step := g_step g |}.

(** The state of one parameter: a dictionary with up to four tensors *)
Record ParamState := {
  exp_avg : option loc;
  exp_avg_sq : option loc;
  exp_avg_diff : option loc;
  neg_pre_grad : option loc
}.

Definition empty_state : ParamState :=
  {| exp_avg := None; exp_avg_sq := None; exp_avg_diff := None;
     neg_pre_grad := None |}.

Definition set_exp_avg (l : loc) (s : ParamState) : ParamState :=
  {| exp_avg := Some l; exp_avg_sq := exp_avg_sq s;
     exp_avg_diff := exp_avg_diff s; neg_pre_grad := neg_pre_grad s |}.

Definition set_exp_avg_sq (l : loc) (s : ParamState) : ParamState :=
  {| exp_avg := exp_avg s; exp_avg_sq := Some l;
     exp_avg_diff := exp_avg_diff s; neg_pre_grad := neg_pre_grad s |}.

Definition set_exp_avg_diff (l : loc) (s : ParamState) : ParamState :=
  {| exp_avg := exp_avg s; exp_avg_sq := exp_avg_sq s;
     exp_avg_diff := Some l; neg_pre_grad := neg_pre_grad s |}.

Definition set_neg_pre_grad (l : loc) (s : ParamState) : ParamState :=
  {| exp_avg := exp_avg s; exp_avg_sq := exp_avg_sq s;
     exp_avg_diff := exp_avg_diff s; neg_pre_grad := Some l |}.

(** [len(state)] *)
Definition state_len (s : ParamState) : nat :=
  length (omap id [exp_avg s; exp_avg_sq s; exp_avg_diff s; neg_pre_grad s]).

(** The optimizer ([defaults], [param_groups], [state], the latter keyed by
    the identity of the parameter) together with the store of the tensors *)
Record World := {
  w_defaults : Defaults;
  w_groups : list Group;
  w_state : gmap loc ParamState;
  w_heap : gmap loc (list F)
}.

Definition set_groups (gs : list Group) (w : World) : World :=
  {| w_defaults := w_defaults w; w_groups := gs; w_state := w_state w;
     w_heap := w_heap w |}.

Definition set_state (st : gmap loc ParamState) (w : World) : World :=
  {| w_defaults := w_defaults w; w_groups := w_groups w; w_state := st;
     w_heap := w_heap w |}.

Definition set_heap (h : Heap) (w : World) : World :=
  {| w_defaults := w_defaults w; w_groups := w_groups w; w_state := w_state w;
     w_heap := h |}.

(** A computation on the store, run inside the optimizer *)
Definition on_heap {A} (m : M Heap A) : M World A :=
  fun w => let '(r, h) := m (w_heap w) in (r, set_heap h w).

Definition get_group (gi : nat) : M World Group :=
  fun w => index (w_groups w) gi w.

Definition modify_group (gi : nat) (f : Group -> Group) : M World unit :=
  fun w => (Ok tt, set_groups (alter f gi (w_groups w)) w).

(** [self.state[p]]: a missing entry reads as the empty dictionary *)
Definition get_state (p : Param) : M World ParamState :=
  fun w => (Ok (default empty_state (w_state w !! p_data p)), w).

(** [self.state[p][key] = ...] *)
Definition modify_state (p : Param) (f : ParamState -> ParamState)
  : M World unit :=
  fun w =>
    (Ok tt,
     set_state
       (<[p_data p := f (default empty_state (w_state w !! p_data p))]>
          (w_state w)) w).

(** [d[key]] for a key that may be absent *)
Definition key {St A} (name : string) (v : option A) : M St A :=
  match v with
  | Some x => ret x
  | None => raise (KeyError name)
  end.

(** [torch.zeros_like(p)] as a new tensor object *)
Definition new_zeros_like (p : Param) : M World loc :=
  on_heap (let* t := read (p_data p) in alloc (zeros_like t)).

(** *** [__init__] *)

(** The constructor of the base class [torch.optim.Optimizer] is not part
    of the repository: it is an argument of [__init__]. *)
Definition __init__ {P : Type} (Optimizer_init : P -> Defaults -> outcome World)
    (params : P) (lr : F) (betas : F * F * F) (eps weight_decay max_grad_norm : F)
    (no_prox mc foreach : bool) : outcome World :=
  let '(b0, b1, b2) := betas in
  if negb (fleb fzero max_grad_norm) then Raise (ValueError "Invalid Max grad norm")
  else if negb (fleb fzero lr) then Raise (ValueError "Invalid learning rate")
  else if negb (fleb fzero eps) then Raise (ValueError "Invalid epsilon value")
  else if negb (fleb fzero b0 && fltb b0 fone)
  then Raise (ValueError "Invalid beta parameter at index 0")
  else if negb (fleb fzero b1 && fltb b1 fone)
  then Raise (ValueError "Invalid beta parameter at index 1")
  else if negb (fleb fzero b2 && fltb b2 fone)
  then Raise (ValueError "Invalid beta parameter at index 2")
  else
    Optimizer_init params
      {| d_lr := lr; d_betas := betas; d_eps := eps;
         d_weight_decay := weight_decay; d_max_grad_norm := max_grad_norm;
         d_no_prox := no_prox; d_mc := mc; d_foreach := foreach |}.

(** The hyperparameters that [__init__] rejects: a beta that fails
    [0 <= beta < 1], or an [lr], [eps] or [max_grad_norm] that fails
    [x >= 0]. *)
Definition fails_range (x : F) : bool := negb (fleb fzero x).

Definition fails_unit_range (b : F) : bool :=
  negb (fleb fzero b && fltb b fone).

Definition rejected (lr : F) (betas : F * F * F) (eps max_grad_norm : F)
  : bool :=
  let '(b0, b1, b2) := betas in
  fails_unit_range b0 || fails_unit_range b1 || fails_unit_range b2
  || fails_range lr || fails_range eps || fails_range max_grad_norm.

(** The same set in the words of the specification: a beta outside [0,1),
    or a negative [lr], [eps] or [max_grad_norm]. *)
Definition negative (x : F) : bool := fltb x fzero.

Definition outside_unit (b : F) : bool := fltb b fzero || fleb fone b.

Definition spec_invalid (lr : F) (betas : F * F * F) (eps max_grad_norm : F)
  : bool :=
  let '(b0, b1, b2) := betas in
  outside_unit b0 || outside_unit b1 || outside_unit b2
  || negative lr || negative eps || negative max_grad_norm.

(** *** [__setstate__] *)

(** The names bound at the top level of adan.py, and the builtins the module
    uses *)
Definition module_names : list string :=
  ["math"; "torch"; "Tensor"; "Optimizer"; "adan"; "_single_tensor_adan";
   "_multi_tensor_adan"].

Definition builtin_names : list string :=
  ["super"; "dict"; "enumerate"; "len"; "ValueError"].

(** Evaluating a global name *)
Definition resolve {St} (name : string) : M St unit :=
  if bool_decide (name ∈ (module_names ++ builtin_names)%list) then ret tt
  else raise (NameError name).

(** [group.setdefault("no_prox", False)] *)
Definition setdefault_no_prox (g : Group) : Group :=
  match g_no_prox g with
  | Some _ => g
  | None => set_g_no_prox false g
  end.

(** The method of the base class is an argument, as for [__init__]. *)
Definition __setstate__ {St : Type} (Optimizer_setstate : St -> M World unit)
    (state : St) : M World unit :=
  resolve "super" >>
  resolve "Adan" >>
  Optimizer_setstate state >>
  fun w => (Ok tt, set_groups (map setdefault_no_prox (w_groups w)) w).

(** *** [restart_opt] *)

Definition restart_param (p : Param) : M World unit :=
  if p_requires_grad p then
    let* l1 := new_zeros_like p in
    modify_state p (set_exp_avg l1) >>
    let* l2 := new_zeros_like p in
    modify_state p (set_exp_avg_sq l2) >>
    let* l3 := new_zeros_like p in
    modify_state p (set_exp_avg_diff l3)
  else ret tt.

Definition restart_group (gi : nat) : M World unit :=
  modify_group gi (set_g_step 0) >>
  let* group := get_group gi in
  for_each restart_param (g_params group).

(** [for group in self.param_groups] visits the groups by position. *)
Definition for_each_group (body : nat -> M World unit) : M World unit :=
  fun w => for_each body (seq 0 (length (w_groups w))) w.

Definition restart_opt : M World unit := for_each_group restart_group.

(** *** [step] *)

(** [global_grad_norm.add_(grad.pow(2).sum())] over the parameters of one
    group that have a gradient *)
Fixpoint add_grad_norms (ps : list Param) (acc : F) : M World F :=
  match ps with
  | [] => ret acc
  | p :: rest =>
      match p_grad p with
      | Some g =>
          let* grad := on_heap (read g) in
          add_grad_norms rest (acc + t_sum (t_pow grad 2))%F
      | None => add_grad_norms rest acc
      end
  end.

Fixpoint add_group_norms (gs : list Group) (acc : F) : M World F :=
  match gs with
  | [] => ret acc
  | g :: rest =>
      let* acc' := add_grad_norms (g_params g) acc in
      add_group_norms rest acc'
  end.

(** [torch.clamp(x, max=m)] *)
Definition clamp_max (x m : F) : F := if fltb m x then m else x.

(** The clipping pass.  After its loop the name [group] is still bound to
    the last group, whose [eps] enters the factor. *)
Definition clip_pass : M World F :=
  fun w =>
    (if fltb fzero (d_max_grad_norm (w_defaults w)) then
       let* g0 := index (w_groups w) 0 in
       let* _ := index (g_params g0) 0 in
       let* total := add_group_norms (w_groups w) fzero in
       let global_grad_norm := fsqrt total in
       let* group := key "group" (last (w_groups w)) in
       ret (clamp_max
              (d_max_grad_norm (w_defaults w) / (global_grad_norm + g_eps group))%F
              fone)
     else ret fone) w.

(** The six lists the loop over the parameters of a group fills *)
Record gathered := {
  params_with_grad : list loc;
  gr_grads : list loc;
  gr_exp_avgs : list loc;
  gr_exp_avg_sqs : list loc;
  gr_exp_avg_diffs : list loc;
  gr_neg_pre_grads : list loc
}.

Definition no_lists : gathered :=
  {| params_with_grad := []; gr_grads := []; gr_exp_avgs := [];
     gr_exp_avg_sqs := []; gr_exp_avg_diffs := []; gr_neg_pre_grads := [] |}.

(** One round of the loop over [group["params"]] *)
Definition gather_param (clip : F) (step : nat) (acc : gathered) (p : Param)
  : M World gathered :=
  match p_grad p with
  | None => ret acc
  | Some g =>
      let* state := get_state p in
      (if decide (state_len state = 0) then
         let* l1 := new_zeros_like p in
         modify_state p (set_exp_avg l1) >>
         let* l2 := new_zeros_like p in
         modify_state p (set_exp_avg_sq l2) >>
         let* l3 := new_zeros_like p in
         modify_state p (set_exp_avg_diff l3)
       else ret tt) >>
      let* state := get_state p in
      (if bool_decide (neg_pre_grad state = None) || bool_decide (step = 1) then
         (* [p.grad.clone().mul_(-clip_global_grad_norm)] *)
         let* l :=
           on_heap (let* t := read g in
                    alloc (t_mul t (- clip)%F)) in
         modify_state p (set_neg_pre_grad l)
       else ret tt) >>
      let* state := get_state p in
      let* ea := key "exp_avg" (exp_avg state) in
      let* eas := key "exp_avg_sq" (exp_avg_sq state) in
      let* ead := key "exp_avg_diff" (exp_avg_diff state) in
      let* npg := key "neg_pre_grad" (neg_pre_grad state) in
      ret {| params_with_grad := params_with_grad acc ++ [p_data p];
             gr_grads := gr_grads acc ++ [g];
             gr_exp_avgs := gr_exp_avgs acc ++ [ea];
             gr_exp_avg_sqs := gr_exp_avg_sqs acc ++ [eas];
             gr_exp_avg_diffs := gr_exp_avg_diffs acc ++ [ead];
             gr_neg_pre_grads := gr_neg_pre_grads acc ++ [npg] |}
  end.

Fixpoint gather (clip : F) (step : nat) (acc : gathered) (ps : list Param)
  : M World gathered :=
  match ps with
  | [] => ret acc
  | p :: rest =>
      let* acc' := gather_param clip step acc p in
      gather clip step acc' rest
  end.

(** [math.sqrt] raises on a negative argument. *)
Definition math_sqrt {St} (x : F) : M St F :=
  if fltb x fzero then raise (ValueError "math domain error")
  else ret (fsqrt x).

(** [x ** n] for a Python float [x] and an integer [n >= 0].  The exponent
    is converted to a float first, which raises OverflowError when it is too
    large for one; a [nan] or an infinite [x] is answered without an error;
    otherwise an infinite result is an OverflowError.  (A result that
    underflows is zero, without an error.) *)
Definition pow_overflows (x : F) (n : nat) : bool :=
  fis_inf (of_nat n)
  || (negb (fis_nan x) && negb (fis_inf x) && fis_inf (fpow x n)).

Definition py_pow {St} (x : F) (n : nat) : M St F :=
  if pow_overflows x n then raise OverflowError else ret (fpow x n).

(** The body of the loop over the groups *)
Definition step_group (clip : F) (gi : nat) : M World unit :=
  let* group := get_group gi in
  let '(b1, b2, b3) := g_betas group in
  let step := match g_step group with Some n => S n | None => 1 end in
  modify_group gi (set_g_step step) >>
  let* p1 := py_pow b1 step in
  let bc1 := (fone - p1)%F in
  let* p2 := py_pow b2 step in
  let bc2 := (fone - p2)%F in
  let* p3 := py_pow b3 step in
  let bc3 := (fone - p3)%F in
  let* l := gather clip step no_lists (g_params group) in
  if decide (params_with_grad l = []) then ret tt else
  let* bc3_sqrt := math_sqrt bc3 in
  let* no_prox := key "no_prox" (g_no_prox group) in
  let kwargs :=
    {| params := params_with_grad l; grads := gr_grads l;
       exp_avgs := gr_exp_avgs l; exp_avg_sqs := gr_exp_avg_sqs l;
       exp_avg_diffs := gr_exp_avg_diffs l;
       neg_pre_grads := gr_neg_pre_grads l;
       beta1 := b1; beta2 := b2; beta3 := b3;
       bias_correction1 := bc1; bias_correction2 := bc2;
       bias_correction3_sqrt := bc3_sqrt;
       lr := g_lr group; weight_decay := g_weight_decay group;
       eps := g_eps group; no_prox := no_prox; mc := g_mc group;
       clip_global_grad_norm := clip |} in
  if g_foreach group then on_heap (_multi_tensor_adan kwargs)
  else on_heap (_single_tensor_adan kwargs).

(** [loss = closure()] when a closure is given; the closure is any
    computation of the caller. *)
Definition call_closure (closure : option (M World F)) : M World (option F) :=
  match closure with
  | Some c => let* v := c in ret (Some v)
  | None => ret None
  end.

Definition step (closure : option (M World F)) : M World (option F) :=
  let* loss := call_closure closure in
  let* clip_global_grad_norm := clip_pass in
  for_each_group (step_group clip_global_grad_norm) >>
  ret loss.

End Optimizer.

Arguments Defaults : clear implicits.
Arguments Group : clear implicits.
Arguments World : clear implicits.

(** ** IEEE binary64 scalars *)

Fixpoint float_pow (x : float) (n : nat) : float :=
  match n with
  | O => 1%float
  | S n' => PrimFloat.mul x (float_pow x n')
  end.

Fixpoint float_of_nat (n : nat) : float :=
  match n with
  | O => 0%float
  | S n' => PrimFloat.add (float_of_nat n') 1%float
  end.

#[export] Instance float_scalar : Scalar float := {|
  fzero := 0%float;
  fone := 1%float;
  fadd := PrimFloat.add;
  fsub := PrimFloat.sub;
  fmul := PrimFloat.mul;
  fdiv := PrimFloat.div;
  fneg := PrimFloat.opp;
  fsqrt := PrimFloat.sqrt;
  fpow := float_pow;
  of_nat := float_of_nat;
  fleb := PrimFloat.leb;
  fltb := PrimFloat.ltb;
  feqb := PrimFloat.eqb;
  fis_nan := PrimFloat.is_nan;
  fis_inf := PrimFloat.is_infinity
|}.


(** ** Sample optimizers over binary64 *)

Module Samples.

Definition hyper (max_grad_norm : float) : Defaults float :=
  {| d_lr := 0.5%float; d_betas := (0.5, 0.5, 0.5)%float; d_eps := 0%float;
     d_weight_decay := 0%float; d_max_grad_norm := max_grad_norm;
     d_no_prox := true; d_mc := true; d_foreach := true |}.

Definition group_of (d : Defaults float) (ps : list Param) : Group float :=
  {| g_params := ps; g_lr := d_lr d; g_betas := d_betas d; g_eps := d_eps d;
     g_weight_decay := d_weight_decay d;
     g_max_grad_norm := d_max_grad_norm d; g_no_prox := Some (d_no_prox d);
     g_mc := d_mc d; g_foreach := d_foreach d; g_step := None |}.

(** A stand-in for the constructor of the base class: one group, no state,
    an empty store *)
Definition one_group (ps : list Param) (d : Defaults float)
  : outcome (World float) :=
  Ok {| w_defaults := d; w_groups := [group_of d ps]; w_state := ∅;
        w_heap := ∅ |}.

(** One group whose only parameter has no gradient; clipping is off. *)
Definition frozen_param : Param :=
  {| p_data := 0; p_grad := None; p_requires_grad := true |}.

Definition frozen_world : World float :=
  {| w_defaults := hyper 0; w_groups := [group_of (hyper 0) [frozen_param]];
     w_state := ∅; w_heap := {[ 0%nat := [1%float] ]} |}.

(** One group with a parameter without a gradient and a parameter with one;
    clipping is off. *)
Definition trained_param : Param :=
  {| p_data := 1; p_grad := Some 2%nat; p_requires_grad := true |}.

Definition mixed_group : Group float :=
  group_of (hyper 0) [frozen_param; trained_param].

Definition mixed_world : World float :=
  {| w_defaults := hyper 0; w_groups := [mixed_group]; w_state := ∅;
     w_heap := {[ 0%nat := [1%float]; 1%nat := [1%float; 2%float];
                  2%nat := [2%float; 4%float] ]} |}.

(** One group with one parameter [[1, 2]] whose gradient is [[2, 4]], moment
    centralization on, clipping off; the group uses the batched kernel when
    [foreach] holds and the scalar kernel otherwise. *)
Definition kernel_param : Param :=
  {| p_data := 0; p_grad := Some 1%nat; p_requires_grad := true |}.

Definition kernel_group (foreach : bool) : Group float :=
  {| g_params := [kernel_param]; g_lr := 0.5%float;
     g_betas := (0.5, 0.5, 0.5)%float; g_eps := 0%float;
     g_weight_decay := 0%float; g_max_grad_norm := 0%float;
     g_no_prox := Some true; g_mc := true; g_foreach := foreach;
     g_step := None |}.

Definition kernel_world (foreach : bool) : World float :=
  {| w_defaults := hyper 0; w_groups := [kernel_group foreach]; w_state := ∅;
     w_heap := {[ 0%nat := [1%float; 2%float];
                  1%nat := [2%float; 4%float] ]} |}.

(** The arguments of a kernel for one parameter [[1, 2]] with gradient
    [[2, 4]], zero moments and [neg_pre_grad = [-2, -4]] *)
Definition args : kernel_args float :=
  {| params := [0%nat]; grads := [1%nat]; exp_avgs := [2%nat];
     exp_avg_sqs := [3%nat]; exp_avg_diffs := [4%nat];
     neg_pre_grads := [5%nat];
     beta1 := 0.5%float; beta2 := 0.5%float; beta3 := 0.5%float;
     bias_correction1 := 0.5%float; bias_correction2 := 0.5%float;
     bias_correction3_sqrt := 1%float;
     lr := 0.5%float; weight_decay := 0%float; eps := 0%float;
     no_prox := true; mc := true; clip_global_grad_norm := 1%float |}.

Definition store : gmap loc (list float) :=
  {[ 0%nat := [1%float; 2%float]; 1%nat := [2%float; 4%float];
     2%nat := [0%float; 0%float]; 3%nat := [0%float; 0%float];
     4%nat := [0%float; 0%float]; 5%nat := [(-2)%float; (-4)%float] ]}.

(** Clipping is on and the first group has no parameter. *)
Definition hollow_world : World float :=
  {| w_defaults := hyper 1; w_groups := [group_of (hyper 1) []];
     w_state := ∅; w_heap := ∅ |}.

(** Two groups, clipping on with [max_grad_norm = 1]: the gradients are
    [[3, 4]] and [[12]], of norm 13; [eps] is 0 in the first group and 7 in
    the last; the first group uses the batched kernel and the last the
    scalar one. *)
Definition clipped_param_a : Param :=
  {| p_data := 0; p_grad := Some 1%nat; p_requires_grad := true |}.

Definition clipped_param_b : Param :=
  {| p_data := 2; p_grad := Some 3%nat; p_requires_grad := true |}.

Definition clipped_group_a : Group float :=
  group_of (hyper 1) [clipped_param_a].

Definition clipped_group_b : Group float :=
  {| g_params := [clipped_param_b]; g_lr := 0.5%float;
     g_betas := (0.5, 0.5, 0.5)%float; g_eps := 7%float;
     g_weight_decay := 0%float; g_max_grad_norm := 1%float;
     g_no_prox := Some true; g_mc := true; g_foreach := false;
     g_step := None |}.

Definition clipped_world : World float :=
  {| w_defaults := hyper 1; w_groups := [clipped_group_a; clipped_group_b];
     w_state := ∅;
     w_heap := {[ 0%nat := [1%float; 2%float]; 1%nat := [3%float; 4%float];
                  2%nat := [1%float]; 3%nat := [12%float] ]} |}.

(** One group whose only parameter has no gradient, with a first beta of
    [2 ** 700] (the betas of a group are not validated) and a step counter
    of 1; clipping is off. *)
Definition overflow_group : Group float :=
  {| g_params := [Samples.frozen_param]; g_lr := 0.5%float;
     g_betas := (0x1p+700, 0.5, 0.5)%float; g_eps := 0%float;
     g_weight_decay := 0%float; g_max_grad_norm := 0%float;
     g_no_prox := Some true; g_mc := true; g_foreach := true;
     g_step := Some 1 |}.

Definition overflow_world : World float :=
  {| w_defaults := Samples.hyper 0; w_groups := [overflow_group];
     w_state := ∅; w_heap := {[ 0%nat := [1%float] ]} |}.

End Samples.

(** * Facts *)

(** ** The monad *)

Section MonadFacts.

Context {St : Type}.

Lemma bind_ok {A B} (m : M St A) (k : A -> M St B) s a s' :
  m s = (Ok a, s') -> bind m k s = k a s'.
Proof. intros E. unfold bind. now rewrite E. Qed.

Lemma bind_raise {A B} (m : M St A) (k : A -> M St B) s e s' :
  m s = (Raise e, s') -> bind m k s = (Raise e, s').
Proof. intros E. unfold bind. now rewrite E. Qed.

Lemma bind_ret {A B} (a : A) (k : A -> M St B) s : bind (ret a) k s = k a s.
Proof. reflexivity. Qed.

Lemma index_ok {A} (l : list A) i x (s : St) :
  l !! i = Some x -> index l i s = (Ok x, s).
Proof. intros E. unfold index. now rewrite E. Qed.

Lemma index_none {A} (l : list A) i (s : St) :
  l !! i = None -> index (A:=A) l i s = (Raise IndexError, s).
Proof. intros E. unfold index. now rewrite E. Qed.

Lemma for_each_app {A} (f : A -> M St unit) l1 l2 s s1 :
  for_each f l1 s = (Ok tt, s1) ->
  for_each f (l1 ++ l2) s = for_each f l2 s1.
Proof.
  revert s. induction l1 as [|x l1 IH]; intros s E; simpl in *.
  - unfold ret in E. now inversion E.
  - unfold bind in *. destruct (f x s) as [[[]|e] s2]; [|discriminate].
    now apply IH.
Qed.

(** *** Triples

    [hoare P m Q E]: from a state in [P], [m] either returns [a] in a state
    in [Q a], or raises in a state in [E]. *)

Definition hoare {A} (P : St -> Prop) (m : M St A) (Q : A -> St -> Prop)
    (E : St -> Prop) : Prop :=
  forall s, P s ->
    match m s with
    | (Ok a, s') => Q a s'
    | (Raise _, s') => E s'
    end.

Lemma hoare_ret {A} (P : St -> Prop) (a : A) (Q : A -> St -> Prop) E :
  (forall s, P s -> Q a s) -> hoare P (ret a) Q E.
Proof. intros HQ s Hs. now apply HQ. Qed.

Lemma hoare_raise {A} (P : St -> Prop) e (Q : A -> St -> Prop) (E : St -> Prop) :
  (forall s, P s -> E s) -> hoare P (raise e) Q E.
Proof. intros HE s Hs. now apply HE. Qed.

Lemma hoare_bind {A B} (P : St -> Prop) (m : M St A) (k : A -> M St B)
    (Q : A -> St -> Prop) (R : B -> St -> Prop) E :
  hoare P m Q E ->
  (forall a, hoare (Q a) (k a) R E) ->
  hoare P (bind m k) R E.
Proof.
  intros Hm Hk s Hs. specialize (Hm s Hs). unfold bind.
  destruct (m s) as [[a|e] s1]; [|exact Hm].
  exact (Hk a s1 Hm).
Qed.

Lemma hoare_conseq {A} (P P' : St -> Prop) (m : M St A)
    (Q Q' : A -> St -> Prop) (E E' : St -> Prop) :
  hoare P m Q E ->
  (forall s, P' s -> P s) ->
  (forall a s, Q a s -> Q' a s) ->
  (forall s, E s -> E' s) ->
  hoare P' m Q' E'.
Proof.
  intros Hm HP HQ HE s Hs. specialize (Hm s (HP s Hs)).
  destruct (m s) as [[a|e] s1]; auto.
Qed.

(** A fact that does not mention the state can be moved in and out of a
    precondition. *)
Lemma hoare_pure {A} (φ : Prop) (P : St -> Prop) (m : M St A) Q E :
  (φ -> hoare P m Q E) -> hoare (fun s => φ /\ P s) m Q E.
Proof. intros Hm s [Hφ Hs]. now apply Hm. Qed.

Lemma hoare_index {A} (P : St -> Prop) (l : list A) i (E : St -> Prop) :
  (forall s, P s -> E s) ->
  hoare P (index l i) (fun x s => l !! i = Some x /\ P s) E.
Proof.
  intros HE s Hs. unfold index. destruct (l !! i) eqn:Hl; simpl; auto.
Qed.

(** A loop whose invariant follows the part of the list already visited *)
Lemma hoare_for_each_prefix {A} (I : list A -> St -> Prop) (f : A -> M St unit)
    (l : list A) E :
  (forall l1 x l2, l = l1 ++ x :: l2 ->
     hoare (I l1) (f x) (fun _ => I (l1 ++ [x])) E) ->
  hoare (I []) (for_each f l) (fun _ => I l) E.
Proof.
  intros Hf.
  enough (Hgen : forall l2 l1, l = l1 ++ l2 ->
            hoare (I l1) (for_each f l2) (fun _ => I l) E).
  { now apply (Hgen l []). }
  induction l2 as [|x l2 IH]; intros l1 Hl.
  - rewrite app_nil_r in Hl. subst l1. now apply hoare_ret.
  - simpl. eapply hoare_bind; [exact (Hf l1 x l2 Hl)|].
    intros u. apply IH. now rewrite <- app_assoc.
Qed.

Lemma hoare_for_each {A} (I : St -> Prop) (f : A -> M St unit) (l : list A) E :
  (forall x, x ∈ l -> hoare I (f x) (fun _ => I) E) ->
  hoare I (for_each f l) (fun _ => I) E.
Proof.
  intros Hf. apply (hoare_for_each_prefix (fun _ => I)).
  intros l1 x l2 Hl. apply Hf. rewrite Hl. set_solver.
Qed.

Lemma hoare_conj {A} (P1 P2 : St -> Prop) (m : M St A)
    (Q1 Q2 : A -> St -> Prop) (E1 E2 : St -> Prop) :
  hoare P1 m Q1 E1 -> hoare P2 m Q2 E2 ->
  hoare (fun s => P1 s /\ P2 s) m (fun a s => Q1 a s /\ Q2 a s)
    (fun s => E1 s /\ E2 s).
Proof.
  intros H1 H2 s [Hs1 Hs2]. specialize (H1 s Hs1). specialize (H2 s Hs2).
  destruct (m s) as [[a|e] s']; auto.
Qed.

(** A family of facts, each of which [m] takes from [Pf x] to [Qf x] *)
Lemma hoare_family {A X} (P : St -> Prop) (Pf Qf : X -> St -> Prop)
    (m : M St A) (Q : A -> St -> Prop) (E : St -> Prop) :
  hoare P m Q E ->
  (forall x, hoare (fun s => P s /\ Pf x s) m (fun _ s => Qf x s)
               (fun _ => True)) ->
  hoare (fun s => P s /\ forall x, Pf x s) m
    (fun a s => Q a s /\ forall x, Qf x s) E.
Proof.
  intros Hm Hf s [Hs Hall]. specialize (Hm s Hs).
  assert (Hx : forall x, match m s with
                         | (Ok _, s') => Qf x s'
                         | (Raise _, _) => True
                         end).
  { intros x. exact (Hf x s (conj Hs (Hall x))). }
  destruct (m s) as [[a|e] s']; auto.
Qed.

(** [keeps I m Q]: [m] preserves the invariant [I], also when it raises, and
    its result satisfies [Q]. *)
Definition keeps {A} (I : St -> Prop) (m : M St A) (Q : A -> Prop) : Prop :=
  hoare I m (fun a s => Q a /\ I s) I.

Lemma keeps_ret {A} (I : St -> Prop) (a : A) (Q : A -> Prop) :
  Q a -> keeps I (ret a) Q.
Proof. intros HQ. apply hoare_ret. auto. Qed.

Lemma keeps_raise {A} (I : St -> Prop) e (Q : A -> Prop) :
  keeps I (raise e) Q.
Proof. apply hoare_raise. auto. Qed.

Lemma keeps_bind {A B} (I : St -> Prop) (m : M St A) (k : A -> M St B)
    (Q : A -> Prop) (R : B -> Prop) :
  keeps I m Q -> (forall a, Q a -> keeps I (k a) R) -> keeps I (bind m k) R.
Proof.
  intros Hm Hk. eapply hoare_bind; [exact Hm|].
  intros a s [Ha Hs]. exact (Hk a Ha s Hs).
Qed.

Lemma keeps_weaken {A} (I : St -> Prop) (m : M St A) (Q Q' : A -> Prop) :
  keeps I m Q -> (forall a, Q a -> Q' a) -> keeps I m Q'.
Proof.
  intros Hm HQ. eapply hoare_conseq; [exact Hm|auto| |auto].
  intros a s [Ha Hs]. auto.
Qed.

Lemma keeps_index {A} (I : St -> Prop) (l : list A) i :
  keeps I (index l i) (fun x => l !! i = Some x).
Proof. intros s Hs. unfold index. destruct (l !! i); simpl; auto. Qed.

Lemma keeps_same_shape {T} (I : St -> Prop) (a b : list T) :
  keeps I (same_shape a b) (fun _ => length a = length b).
Proof.
  unfold same_shape. case_decide; [now apply keeps_ret|apply keeps_raise].
Qed.

Lemma keeps_for_each {A} (I : St -> Prop) (f : A -> M St unit) (l : list A) :
  (forall x, x ∈ l -> keeps I (f x) (fun _ => True)) ->
  keeps I (for_each f l) (fun _ => True).
Proof.
  intros Hf. eapply hoare_conseq;
    [apply (hoare_for_each I f l I)|auto| |auto].
  - intros x Hx. eapply hoare_conseq; [exact (Hf x Hx)|auto| |auto].
    intros a s [_ Hs]. exact Hs.
  - intros a s Hs. auto.
Qed.

End MonadFacts.

Lemma enumerate_from_lookup {A} (l : list A) k i x :
  (i, x) ∈ enumerate_from k l -> k <= i /\ l !! (i - k) = Some x.
Proof.
  revert k. induction l as [|y l IH]; intros k Hin; simpl in Hin.
  - inversion Hin.
  - apply elem_of_cons in Hin as [Heq|Hin].
    + inversion Heq; subst. split; [lia|]. now rewrite Nat.sub_diag.
    + apply IH in Hin as [Hle Hl]. split; [lia|].
      replace (i - k) with (S (i - S k)) by lia. exact Hl.
Qed.

(** ** Running the tensor operations *)

Section KernelRuns.

Context {F : Type} `{Scalar F}.

Implicit Types h : gmap loc (list F).

Lemma run_read l t h : h !! l = Some t -> read l h = (Ok t, h).
Proof. intros E. unfold read. now rewrite E. Qed.

Lemma run_same_shape {St} (a b : list F) (s : St) :
  length a = length b -> same_shape a b s = (Ok tt, s).
Proof. intros E. unfold same_shape. now rewrite decide_True. Qed.

Lemma run_mul_ l c t h :
  h !! l = Some t -> mul_ l c h = (Ok tt, <[l := t_mul t c]> h).
Proof. intros E. unfold mul_. now rewrite (bind_ok _ _ _ _ _ (run_read _ _ _ E)). Qed.

Lemma run_div_ l c t h :
  h !! l = Some t -> div_ l c h = (Ok tt, <[l := t_div t c]> h).
Proof. intros E. unfold div_. now rewrite (bind_ok _ _ _ _ _ (run_read _ _ _ E)). Qed.

Lemma run_zero_ l t h :
  h !! l = Some t -> zero_ l h = (Ok tt, <[l := zeros_like t]> h).
Proof. intros E. unfold zero_. now rewrite (bind_ok _ _ _ _ _ (run_read _ _ _ E)). Qed.

Lemma run_add_ l o a b h :
  h !! l = Some a -> h !! o = Some b -> length a = length b ->
  add_ l o h = (Ok tt, <[l := t_add a b]> h).
Proof.
  intros Ea Eb Hlen. unfold add_.
  rewrite (bind_ok _ _ _ _ _ (run_read _ _ _ Ea)).
  rewrite (bind_ok _ _ _ _ _ (run_read _ _ _ Eb)).
  now rewrite (bind_ok _ _ _ _ _ (run_same_shape _ _ _ Hlen)).
Qed.

Lemma run_add_alpha_ l o alpha a b h :
  h !! l = Some a -> h !! o = Some b -> length a = length b ->
  add_alpha_ l o alpha h = (Ok tt, <[l := t_add_alpha a b alpha]> h).
Proof.
  intros Ea Eb Hlen. unfold add_alpha_.
  rewrite (bind_ok _ _ _ _ _ (run_read _ _ _ Ea)).
  rewrite (bind_ok _ _ _ _ _ (run_read _ _ _ Eb)).
  now rewrite (bind_ok _ _ _ _ _ (run_same_shape _ _ _ Hlen)).
Qed.

Lemma run_add_scalar_alpha_ l s alpha a h :
  h !! l = Some a ->
  add_scalar_alpha_ l s alpha h
  = (Ok tt, <[l := t_add_scalar a (alpha * s)%F]> h).
Proof.
  intros Ea. unfold add_scalar_alpha_.
  now rewrite (bind_ok _ _ _ _ _ (run_read _ _ _ Ea)).
Qed.

Lemma run_addcmul_ l t1 t2 v a b c h :
  h !! l = Some a -> h !! t1 = Some b -> h !! t2 = Some c ->
  length b = length c -> length a = length b ->
  addcmul_ l t1 t2 v h = (Ok tt, <[l := t_addcmul a b c v]> h).
Proof.
  intros Ea Eb Ec Hbc Hab. unfold addcmul_.
  rewrite (bind_ok _ _ _ _ _ (run_read _ _ _ Ea)).
  rewrite (bind_ok _ _ _ _ _ (run_read _ _ _ Eb)).
  rewrite (bind_ok _ _ _ _ _ (run_read _ _ _ Ec)).
  rewrite (bind_ok _ _ _ _ _ (run_same_shape _ _ _ Hbc)).
  now rewrite (bind_ok _ _ _ _ _ (run_same_shape _ _ _ Hab)).
Qed.

Lemma run_addcdiv_ l r1 r2 v a b c h :
  h !! l = Some a -> read_ref r1 h = (Ok b, h) -> read_ref r2 h = (Ok c, h) ->
  length b = length c -> length a = length b ->
  addcdiv_ l r1 r2 v h = (Ok tt, <[l := t_addcdiv a b c v]> h).
Proof.
  intros Ea Eb Ec Hbc Hab. unfold addcdiv_.
  rewrite (bind_ok _ _ _ _ _ (run_read _ _ _ Ea)).
  rewrite (bind_ok _ _ _ _ _ Eb).
  rewrite (bind_ok _ _ _ _ _ Ec).
  rewrite (bind_ok _ _ _ _ _ (run_same_shape _ _ _ Hbc)).
  now rewrite (bind_ok _ _ _ _ _ (run_same_shape _ _ _ Hab)).
Qed.

Lemma run_py_div a b h :
  feqb b fzero = false -> py_div a b h = (Ok (a / b)%F, h).
Proof. intros E. unfold py_div. now rewrite E. Qed.

Lemma length_t_mul (t : list F) c : length (t_mul t c) = length t.
Proof. apply length_map. Qed.

Lemma length_t_div (t : list F) c : length (t_div t c) = length t.
Proof. apply length_map. Qed.

Lemma length_t_add_scalar (t : list F) c : length (t_add_scalar t c) = length t.
Proof. apply length_map. Qed.

Lemma length_t_sub_scalar (t : list F) c : length (t_sub_scalar t c) = length t.
Proof. apply length_map. Qed.

Lemma length_t_sqrt (t : list F) : length (t_sqrt t) = length t.
Proof. apply length_map. Qed.

Lemma length_zeros_like (t : list F) : length (zeros_like t) = length t.
Proof. apply length_replicate. Qed.

Lemma length_t_add (a b : list F) :
  length a = length b -> length (t_add a b) = length a.
Proof. intros E. unfold t_add. rewrite length_zip_with. lia. Qed.

Lemma length_t_add_alpha (a b : list F) alpha :
  length a = length b -> length (t_add_alpha a b alpha) = length a.
Proof. intros E. unfold t_add_alpha. rewrite length_zip_with. lia. Qed.

Lemma length_t_addcmul (a b c : list F) v :
  length b = length c -> length a = length b ->
  length (t_addcmul a b c v) = length a.
Proof. intros E1 E2. unfold t_addcmul. rewrite !length_zip_with. lia. Qed.

Lemma length_t_addcdiv (a b c : list F) v :
  length b = length c -> length a = length b ->
  length (t_addcdiv a b c v) = length a.
Proof. intros E1 E2. unfold t_addcdiv. rewrite !length_zip_with. lia. Qed.

Lemma zeros_like_length (a b : list F) :
  length a = length b -> zeros_like a = zeros_like b.
Proof. intros E. unfold zeros_like. now rewrite E. Qed.

End KernelRuns.

(** ** What the kernels write *)

Section KernelFrame.

Context {F : Type} `{Scalar F}.

Abbreviation Heap := (gmap loc (list F)).

(** The store agrees with [h0] outside of the locations in [P]. *)
Definition agrees_off (P : loc -> Prop) (h0 h : Heap) : Prop :=
  forall l, ~ P l -> h !! l = h0 !! l.

Variable P : loc -> Prop.
Variable h0 : Heap.

Lemma keeps_read l : keeps (agrees_off P h0) (read l) (fun _ => True).
Proof. intros h Hh. unfold read. destruct (h !! l); simpl; auto. Qed.

Lemma keeps_read_ref r : keeps (agrees_off P h0) (read_ref r) (fun _ => True).
Proof. destruct r; [apply keeps_read|now apply keeps_ret]. Qed.

Lemma keeps_write l t :
  P l -> keeps (agrees_off P h0) (write l t) (fun _ => True).
Proof.
  intros Hl h Hh. simpl. split; [exact Logic.I|].
  intros l' Hl'. rewrite lookup_insert_ne; [now apply Hh|].
  intros ->. contradiction.
Qed.

Lemma keeps_py_div a b : keeps (agrees_off P h0) (py_div a b) (fun _ => True).
Proof.
  unfold py_div. destruct (feqb b fzero); [apply keeps_raise|now apply keeps_ret].
Qed.

Ltac keeps_op :=
  repeat first
    [ apply keeps_write; assumption
    | eapply keeps_bind;
      [ first [ apply keeps_read | apply keeps_read_ref
              | apply keeps_same_shape ]
      | intros ? _ ] ].

Lemma keeps_mul_ l c : P l -> keeps (agrees_off P h0) (mul_ l c) (fun _ => True).
Proof. intros Hl. unfold mul_. keeps_op. Qed.

Lemma keeps_div_ l c : P l -> keeps (agrees_off P h0) (div_ l c) (fun _ => True).
Proof. intros Hl. unfold div_. keeps_op. Qed.

Lemma keeps_zero_ l : P l -> keeps (agrees_off P h0) (zero_ l) (fun _ => True).
Proof. intros Hl. unfold zero_. keeps_op. Qed.

Lemma keeps_add_ l o : P l -> keeps (agrees_off P h0) (add_ l o) (fun _ => True).
Proof. intros Hl. unfold add_. keeps_op. Qed.

Lemma keeps_add_alpha_ l o a :
  P l -> keeps (agrees_off P h0) (add_alpha_ l o a) (fun _ => True).
Proof. intros Hl. unfold add_alpha_. keeps_op. Qed.

Lemma keeps_add_scalar_alpha_ l s a :
  P l -> keeps (agrees_off P h0) (add_scalar_alpha_ l s a) (fun _ => True).
Proof. intros Hl. unfold add_scalar_alpha_. keeps_op. Qed.

Lemma keeps_addcmul_ l t1 t2 v :
  P l -> keeps (agrees_off P h0) (addcmul_ l t1 t2 v) (fun _ => True).
Proof. intros Hl. unfold addcmul_. keeps_op. Qed.

Lemma keeps_addcdiv_ l t1 t2 v :
  P l -> keeps (agrees_off P h0) (addcdiv_ l t1 t2 v) (fun _ => True).
Proof. intros Hl. unfold addcdiv_. keeps_op. Qed.

Lemma keeps_foreach_scalar (op : loc -> F -> M Heap unit) ts c :
  (forall l, l ∈ ts -> keeps (agrees_off P h0) (op l c) (fun _ => True)) ->
  keeps (agrees_off P h0) (foreach_scalar op ts c) (fun _ => True).
Proof. intros Hop. unfold foreach_scalar. now apply keeps_for_each. Qed.

Lemma keeps_foreach_list {B} (op : loc -> B -> M Heap unit) ts (os : list B) :
  (forall l o, l ∈ ts -> keeps (agrees_off P h0) (op l o) (fun _ => True)) ->
  keeps (agrees_off P h0) (foreach_list op ts os) (fun _ => True).
Proof.
  intros Hop. unfold foreach_list. case_decide; [|apply keeps_raise].
  apply keeps_for_each. intros [l o] Hin. apply Hop.
  exact (elem_of_zip_l _ _ _ _ Hin).
Qed.

Lemma keeps_foreach_list3 {B C} (op : loc -> B -> C -> M Heap unit) ts
    (t1s : list B) (t2s : list C) :
  (forall l x y, l ∈ ts -> keeps (agrees_off P h0) (op l x y) (fun _ => True)) ->
  keeps (agrees_off P h0) (foreach_list3 op ts t1s t2s) (fun _ => True).
Proof.
  intros Hop. unfold foreach_list3. case_decide; [|apply keeps_raise].
  apply keeps_for_each. intros [l [x y]] Hin. apply Hop.
  exact (elem_of_zip_l _ _ _ _ Hin).
Qed.

Lemma keeps_foreach_sqrt ts :
  keeps (agrees_off P h0) (foreach_sqrt ts) (fun _ => True).
Proof.
  induction ts as [|l ts IH]; simpl; [now apply keeps_ret|].
  eapply keeps_bind; [apply keeps_read|]. intros t _.
  eapply keeps_bind; [exact IH|]. intros r _. now apply keeps_ret.
Qed.

Lemma keeps_exp_avg_means k ips acc :
  keeps (agrees_off P h0) (exp_avg_means k ips acc) (fun _ => True).
Proof.
  revert acc. induction ips as [|[i p] ips IH]; intros acc; simpl;
    [now apply keeps_ret|].
  eapply keeps_bind; [apply keeps_index|]. intros l _.
  eapply keeps_bind; [apply keeps_read|]. intros t _. apply IH.
Qed.

End KernelFrame.

Section KernelFootprint.

Context {F : Type} `{Scalar F}.

(** The tensors handed to a kernel *)
Definition in_lists (k : kernel_args F) (l : loc) : Prop :=
  l ∈ params k ++ grads k ++ exp_avgs k ++ exp_avg_sqs k
      ++ exp_avg_diffs k ++ neg_pre_grads k.

Ltac in_lists_tac :=
  unfold in_lists; rewrite !elem_of_app; tauto.

(** The scalar kernel leaves every tensor that was not handed to it as it
    was, whether it returns or raises. *)
Lemma single_tensor_writes_lists (k : kernel_args F) h0 :
  keeps (agrees_off (in_lists k) h0) (_single_tensor_adan k) (fun _ => True).
Proof.
  unfold _single_tensor_adan. apply keeps_for_each. intros [i param] Hin.
  apply enumerate_from_lookup in Hin as [_ Hparam].
  apply list_elem_of_lookup_2 in Hparam.
  unfold single_tensor_body.
  eapply keeps_bind; [apply keeps_index|]. intros grad Hgrad.
  eapply keeps_bind; [apply keeps_index|]. intros ea Hea.
  eapply keeps_bind; [apply keeps_index|]. intros eas Heas.
  eapply keeps_bind; [apply keeps_index|]. intros ead Head.
  eapply keeps_bind; [apply keeps_index|]. intros npg Hnpg.
  apply list_elem_of_lookup_2 in Hgrad, Hea, Heas, Head, Hnpg.
  assert (in_lists k param) by in_lists_tac.
  assert (in_lists k grad) by in_lists_tac.
  assert (in_lists k ea) by in_lists_tac.
  assert (in_lists k eas) by in_lists_tac.
  assert (in_lists k ead) by in_lists_tac.
  assert (in_lists k npg) by in_lists_tac.
  eapply keeps_bind; [now apply keeps_mul_|]. intros _ _.
  eapply keeps_bind; [now apply keeps_add_|]. intros _ _.
  eapply keeps_bind; [now apply keeps_mul_|]. intros _ _.
  eapply keeps_bind; [now apply keeps_add_alpha_|]. intros _ _.
  eapply keeps_bind with (Q := fun _ => True).
  { destruct (mc k); [|now apply keeps_ret].
    eapply keeps_bind; [apply keeps_read|]. intros m _. now apply keeps_ret. }
  intros ea' _.
  eapply keeps_bind; [now apply keeps_mul_|]. intros _ _.
  eapply keeps_bind; [now apply keeps_add_alpha_|]. intros _ _.
  eapply keeps_bind; [now apply keeps_mul_|]. intros _ _.
  eapply keeps_bind; [now apply keeps_add_|]. intros _ _.
  eapply keeps_bind; [now apply keeps_mul_|]. intros _ _.
  eapply keeps_bind; [now apply keeps_addcmul_|]. intros _ _.
  eapply keeps_bind; [apply keeps_read|]. intros n _.
  eapply keeps_bind; [apply keeps_py_div|]. intros ssd _.
  eapply keeps_bind; [apply keeps_py_div|]. intros ss _.
  eapply keeps_bind with (Q := fun _ => True).
  { destruct (no_prox k).
    - eapply keeps_bind; [now apply keeps_mul_|]. intros _ _.
      eapply keeps_bind; [now apply keeps_addcdiv_|]. intros _ _.
      now apply keeps_addcdiv_.
    - eapply keeps_bind; [now apply keeps_addcdiv_|]. intros _ _.
      eapply keeps_bind; [now apply keeps_addcdiv_|]. intros _ _.
      now apply keeps_div_. }
  intros _ _.
  eapply keeps_bind; [now apply keeps_zero_|]. intros _ _.
  now apply keeps_add_alpha_.
Qed.

(** So does the batched kernel. *)
Lemma multi_tensor_writes_lists (k : kernel_args F) h0 :
  keeps (agrees_off (in_lists k) h0) (_multi_tensor_adan k) (fun _ => True).
Proof.
  assert (Hp : forall l, l ∈ params k -> in_lists k l) by (intros; in_lists_tac).
  assert (Hg : forall l, l ∈ grads k -> in_lists k l) by (intros; in_lists_tac).
  assert (Ha : forall l, l ∈ exp_avgs k -> in_lists k l)
    by (intros; in_lists_tac).
  assert (Hs : forall l, l ∈ exp_avg_sqs k -> in_lists k l)
    by (intros; in_lists_tac).
  assert (Hd : forall l, l ∈ exp_avg_diffs k -> in_lists k l)
    by (intros; in_lists_tac).
  assert (Hn : forall l, l ∈ neg_pre_grads k -> in_lists k l)
    by (intros; in_lists_tac).
  unfold _multi_tensor_adan. case_decide; [now apply keeps_ret|].
  eapply keeps_bind.
  { apply keeps_foreach_scalar. intros; apply keeps_mul_; auto. }
  intros _ _. eapply keeps_bind.
  { apply keeps_foreach_list. intros; apply keeps_add_; auto. }
  intros _ _. eapply keeps_bind.
  { apply keeps_foreach_scalar. intros; apply keeps_mul_; auto. }
  intros _ _. eapply keeps_bind.
  { apply keeps_foreach_list. intros; apply keeps_add_alpha_; auto. }
  intros _ _. eapply keeps_bind with (Q := fun _ => True).
  { destruct (mc k); [|now apply keeps_ret].
    eapply keeps_bind; [apply keeps_exp_avg_means|]. intros means _.
    apply keeps_foreach_list. intros; apply keeps_add_scalar_alpha_; auto. }
  intros _ _. eapply keeps_bind.
  { apply keeps_foreach_scalar. intros; apply keeps_mul_; auto. }
  intros _ _. eapply keeps_bind.
  { apply keeps_foreach_list. intros; apply keeps_add_alpha_; auto. }
  intros _ _. eapply keeps_bind.
  { apply keeps_foreach_scalar. intros; apply keeps_mul_; auto. }
  intros _ _. eapply keeps_bind.
  { apply keeps_foreach_list. intros; apply keeps_add_; auto. }
  intros _ _. eapply keeps_bind.
  { apply keeps_foreach_scalar. intros; apply keeps_mul_; auto. }
  intros _ _. eapply keeps_bind.
  { apply keeps_foreach_list3. intros; apply keeps_addcmul_; auto. }
  intros _ _. eapply keeps_bind; [apply keeps_foreach_sqrt|]. intros roots _.
  eapply keeps_bind; [apply keeps_py_div|]. intros ssd _.
  eapply keeps_bind; [apply keeps_py_div|]. intros ss _.
  eapply keeps_bind with (Q := fun _ => True).
  { destruct (no_prox k).
    - eapply keeps_bind.
      { apply keeps_foreach_scalar. intros; apply keeps_mul_; auto. }
      intros _ _. eapply keeps_bind.
      { apply keeps_foreach_list3. intros; apply keeps_addcdiv_; auto. }
      intros _ _. apply keeps_foreach_list3. intros; apply keeps_addcdiv_; auto.
    - eapply keeps_bind.
      { apply keeps_foreach_list3. intros; apply keeps_addcdiv_; auto. }
      intros _ _. eapply keeps_bind.
      { apply keeps_foreach_list3. intros; apply keeps_addcdiv_; auto. }
      intros _ _. apply keeps_foreach_scalar. intros; apply keeps_div_; auto. }
  intros _ _. eapply keeps_bind.
  { unfold foreach_zero_. apply keeps_for_each. intros; apply keeps_zero_; auto. }
  intros _ _. apply keeps_foreach_list. intros; apply keeps_add_alpha_; auto.
Qed.

End KernelFootprint.

(** ** The scalar kernel and the update equations *)

Ltac distinct_from Hnd :=
  repeat (let Hn := fresh "Hn" in
          apply NoDup_cons in Hnd as [Hn Hnd];
          repeat (let Hne := fresh "Hne" in
                  apply not_elem_of_cons in Hn as [Hne Hn]);
          clear Hn);
  clear Hnd;
  repeat match goal with
         | Hne : ?a ≠ ?b |- _ =>
             lazymatch goal with
             | _ : b ≠ a |- _ => fail
             | _ => assert (b ≠ a) by (intros Heq; apply Hne; now symmetry)
             end
         end.

Ltac lookup_tac :=
  lazymatch goal with
  | |- <[?l := _]> _ !! ?l = Some _ => apply lookup_insert_eq
  | |- <[_ := _]> _ !! _ = Some _ =>
      rewrite lookup_insert_ne by assumption; lookup_tac
  | |- _ => eassumption
  end.

Ltac len_tac :=
  unfold denom_of;
  repeat first
    [ rewrite length_t_mul | rewrite length_t_div
    | rewrite length_t_add_scalar | rewrite length_t_sub_scalar
    | rewrite length_t_sqrt | rewrite length_zeros_like
    | rewrite length_t_add by len_tac
    | rewrite length_t_add_alpha by len_tac
    | rewrite length_t_addcmul by len_tac
    | rewrite length_t_addcdiv by len_tac
    | match goal with
      | |- context [length (if ?b then _ else _)] => destruct b
      end ];
  congruence.

Lemma bind_step {St A B} (m : M St A) (k : A -> M St B) s a s' r :
  m s = (Ok a, s') -> k a s' = r -> bind m k s = r.
Proof. intros E <-. now apply bind_ok. Qed.

Ltac side_tac :=
  lazymatch goal with
  | |- _ !! _ = Some _ => lookup_tac
  | |- read_ref (Tmp _) _ = _ => reflexivity
  | |- read_ref (Ref _) _ = _ => apply run_read; lookup_tac
  | |- length _ = length _ => len_tac
  | |- feqb _ _ = false => assumption
  end.

Tactic Notation "run_with" uconstr(lem) :=
  eapply bind_step; [ eapply lem; side_tac | cbv beta ].

(** The block [if mc: exp_avg = exp_avg - torch.mean(exp_avg)] *)
Ltac run_centralize :=
  first
    [ eapply bind_step;
      [ eapply bind_step; [ eapply run_read; side_tac | cbv beta; reflexivity ]
      | cbv beta ]
    | eapply bind_step; [ reflexivity | cbv beta ] ].

(** The block [if no_prox: ... else: ...] *)
Ltac run_decay :=
  eapply bind_step;
  [ first
      [ run_with run_mul_; run_with run_addcdiv_;
        eapply run_addcdiv_; side_tac
      | run_with run_addcdiv_; run_with run_addcdiv_;
        eapply run_div_; side_tac ]
  | cbv beta ].

(** Reading a location back from the store a run has produced *)
Ltac read_back :=
  repeat first
    [ rewrite lookup_insert_eq
    | rewrite lookup_insert_ne by assumption ];
  try reflexivity.

Ltac frame_tac Hl :=
  repeat (apply not_elem_of_cons in Hl as [? Hl]);
  repeat (rewrite lookup_insert_ne by (intros Heq; subst; contradiction));
  reflexivity.

Section ScalarBody.

Context {F : Type} `{Scalar F}.

(** The round of the loop of the scalar kernel for the parameter at
    position [i], whose tensors are six different tensors of the same
    shape *)
Variable k : kernel_args F.
Variable i : nat.
Variables param grad ea eas ead npg : loc.
Variable h : gmap loc (list F).
Variable v : adan_values F.

Hypothesis at_grad : grads k !! i = Some grad.
Hypothesis at_ea : exp_avgs k !! i = Some ea.
Hypothesis at_eas : exp_avg_sqs k !! i = Some eas.
Hypothesis at_ead : exp_avg_diffs k !! i = Some ead.
Hypothesis at_npg : neg_pre_grads k !! i = Some npg.
Hypothesis distinct : NoDup [param; grad; ea; eas; ead; npg].
Hypothesis val_param : h !! param = Some (a_param v).
Hypothesis val_grad : h !! grad = Some (a_grad v).
Hypothesis val_ea : h !! ea = Some (a_exp_avg v).
Hypothesis val_eas : h !! eas = Some (a_exp_avg_sq v).
Hypothesis val_ead : h !! ead = Some (a_exp_avg_diff v).
Hypothesis val_npg : h !! npg = Some (a_neg_pre_grad v).
Hypothesis shape_grad : length (a_grad v) = length (a_param v).
Hypothesis shape_ea : length (a_exp_avg v) = length (a_param v).
Hypothesis shape_eas : length (a_exp_avg_sq v) = length (a_param v).
Hypothesis shape_ead : length (a_exp_avg_diff v) = length (a_param v).
Hypothesis shape_npg : length (a_neg_pre_grad v) = length (a_param v).
Hypothesis bc1_nonzero : feqb (bias_correction1 k) fzero = false.
Hypothesis bc2_nonzero : feqb (bias_correction2 k) fzero = false.

Lemma single_tensor_body_run :
  exists h',
    single_tensor_body k (i, param) h = (Ok tt, h')
    /\ h' !! param = Some (a_param (adan_equations k v))
    /\ h' !! grad = Some (a_grad (adan_equations k v))
    /\ h' !! ea = Some (a_exp_avg (adan_equations k v))
    /\ h' !! eas = Some (a_exp_avg_sq (adan_equations k v))
    /\ h' !! ead = Some (a_exp_avg_diff (adan_equations k v))
    /\ h' !! npg = Some (a_neg_pre_grad (adan_equations k v))
    /\ forall l, l ∉ [param; grad; ea; eas; ead; npg] -> h' !! l = h !! l.
Proof.
  pose proof distinct as Hnd. distinct_from Hnd.
  unfold single_tensor_body, adan_equations.
  destruct (mc k) eqn:Hmc, (no_prox k) eqn:Hnp;
    (eexists; split;
     [ rewrite (bind_ok _ _ _ _ _ (index_ok _ _ _ _ at_grad));
       rewrite (bind_ok _ _ _ _ _ (index_ok _ _ _ _ at_ea));
       rewrite (bind_ok _ _ _ _ _ (index_ok _ _ _ _ at_eas));
       rewrite (bind_ok _ _ _ _ _ (index_ok _ _ _ _ at_ead));
       rewrite (bind_ok _ _ _ _ _ (index_ok _ _ _ _ at_npg));
       run_with run_mul_;
       run_with run_add_;
       run_with run_mul_;
       run_with run_add_alpha_;
       run_centralize;
       run_with run_mul_;
       run_with run_add_alpha_;
       run_with run_mul_;
       run_with run_add_;
       run_with run_mul_;
       run_with run_addcmul_;
       run_with run_read;
       run_with run_py_div;
       run_with run_py_div;
       run_decay;
       run_with run_zero_;
       eapply run_add_alpha_; side_tac
     | cbn [a_param a_grad a_exp_avg a_exp_avg_sq a_exp_avg_diff
              a_neg_pre_grad];
       repeat split;
       [ read_back .. | intros l Hl; frame_tac Hl ] ]).
  all: do 2 f_equal; apply zeros_like_length; len_tac.
Qed.

End ScalarBody.

Section ScalarLoop.

Context {F : Type} `{Scalar F}.

(** The six tensors of the parameter at one position of the lists *)
Record slots := {
  s_param : loc;
  s_grad : loc;
  s_exp_avg : loc;
  s_exp_avg_sq : loc;
  s_exp_avg_diff : loc;
  s_neg_pre_grad : loc
}.

Definition slots_at (k : kernel_args F) (i : nat) : option slots :=
  param ← params k !! i;
  grad ← grads k !! i;
  ea ← exp_avgs k !! i;
  eas ← exp_avg_sqs k !! i;
  ead ← exp_avg_diffs k !! i;
  npg ← neg_pre_grads k !! i;
  Some {| s_param := param; s_grad := grad; s_exp_avg := ea;
          s_exp_avg_sq := eas; s_exp_avg_diff := ead;
          s_neg_pre_grad := npg |}.

Definition slot_locs (s : slots) : list loc :=
  [s_param s; s_grad s; s_exp_avg s; s_exp_avg_sq s; s_exp_avg_diff s;
   s_neg_pre_grad s].

(** The values they hold in a store *)
Definition values_at (h : gmap loc (list F)) (s : slots)
  : option (adan_values F) :=
  vp ← h !! s_param s;
  vg ← h !! s_grad s;
  vm ← h !! s_exp_avg s;
  vn ← h !! s_exp_avg_sq s;
  vd ← h !! s_exp_avg_diff s;
  vq ← h !! s_neg_pre_grad s;
  Some {| a_param := vp; a_grad := vg; a_exp_avg := vm; a_exp_avg_sq := vn;
          a_exp_avg_diff := vd; a_neg_pre_grad := vq |}.

Definition same_shapes (v : adan_values F) : Prop :=
  length (a_grad v) = length (a_param v)
  /\ length (a_exp_avg v) = length (a_param v)
  /\ length (a_exp_avg_sq v) = length (a_param v)
  /\ length (a_exp_avg_diff v) = length (a_param v)
  /\ length (a_neg_pre_grad v) = length (a_param v).

(** All the tensors handed to a kernel, list after list *)
Definition all_locs (k : kernel_args F) : list loc :=
  params k ++ grads k ++ exp_avgs k ++ exp_avg_sqs k ++ exp_avg_diffs k
  ++ neg_pre_grads k.

(** The lists have one entry per parameter. *)
Definition aligned (k : kernel_args F) : Prop :=
  length (grads k) = length (params k)
  /\ length (exp_avgs k) = length (params k)
  /\ length (exp_avg_sqs k) = length (params k)
  /\ length (exp_avg_diffs k) = length (params k)
  /\ length (neg_pre_grads k) = length (params k).

Lemma slots_at_Some k i s :
  slots_at k i = Some s <->
  params k !! i = Some (s_param s) /\ grads k !! i = Some (s_grad s)
  /\ exp_avgs k !! i = Some (s_exp_avg s)
  /\ exp_avg_sqs k !! i = Some (s_exp_avg_sq s)
  /\ exp_avg_diffs k !! i = Some (s_exp_avg_diff s)
  /\ neg_pre_grads k !! i = Some (s_neg_pre_grad s).
Proof.
  unfold slots_at. split.
  - intros Hs.
    destruct (params k !! i); [|discriminate].
    destruct (grads k !! i); [|discriminate].
    destruct (exp_avgs k !! i); [|discriminate].
    destruct (exp_avg_sqs k !! i); [|discriminate].
    destruct (exp_avg_diffs k !! i); [|discriminate].
    destruct (neg_pre_grads k !! i); [|discriminate].
    simpl in Hs. inversion Hs; subst. simpl. tauto.
  - intros (-> & -> & -> & -> & -> & ->). simpl. now destruct s.
Qed.

Lemma values_at_Some h s v :
  values_at h s = Some v <->
  h !! s_param s = Some (a_param v) /\ h !! s_grad s = Some (a_grad v)
  /\ h !! s_exp_avg s = Some (a_exp_avg v)
  /\ h !! s_exp_avg_sq s = Some (a_exp_avg_sq v)
  /\ h !! s_exp_avg_diff s = Some (a_exp_avg_diff v)
  /\ h !! s_neg_pre_grad s = Some (a_neg_pre_grad v).
Proof.
  unfold values_at. split.
  - intros Hv.
    destruct (h !! s_param s); [|discriminate].
    destruct (h !! s_grad s); [|discriminate].
    destruct (h !! s_exp_avg s); [|discriminate].
    destruct (h !! s_exp_avg_sq s); [|discriminate].
    destruct (h !! s_exp_avg_diff s); [|discriminate].
    destruct (h !! s_neg_pre_grad s); [|discriminate].
    simpl in Hv. inversion Hv; subst. simpl. tauto.
  - intros (-> & -> & -> & -> & -> & ->). simpl. now destruct v.
Qed.

Lemma slots_at_lt k i s : slots_at k i = Some s -> i < length (params k).
Proof.
  intros Hs. apply slots_at_Some in Hs as [Hp _].
  exact (lookup_lt_Some _ _ _ Hp).
Qed.

(** The position of each tensor of a slot in [all_locs] *)
Lemma slot_locs_lookup k i s a :
  aligned k -> slots_at k i = Some s -> a < 6 ->
  slot_locs s !! a = all_locs k !! (a * length (params k) + i).
Proof.
  intros (L1 & L2 & L3 & L4 & L5) Hs Ha.
  pose proof (slots_at_lt _ _ _ Hs) as Hi.
  apply slots_at_Some in Hs as (S0 & S1 & S2 & S3 & S4 & S5).
  unfold all_locs, slot_locs.
  destruct a as [|[|[|[|[|[|a]]]]]]; [..|lia]; simpl.
  - rewrite lookup_app_l by lia. now rewrite S0.
  - rewrite lookup_app_r by lia. rewrite lookup_app_l by lia.
    rewrite <- S1. f_equal. lia.
  - rewrite lookup_app_r by lia. rewrite lookup_app_r by lia.
    rewrite lookup_app_l by lia. rewrite <- S2. f_equal. lia.
  - rewrite lookup_app_r by lia. rewrite lookup_app_r by lia.
    rewrite lookup_app_r by lia. rewrite lookup_app_l by lia.
    rewrite <- S3. f_equal. lia.
  - rewrite lookup_app_r by lia. rewrite lookup_app_r by lia.
    rewrite lookup_app_r by lia. rewrite lookup_app_r by lia.
    rewrite lookup_app_l by lia. rewrite <- S4. f_equal. lia.
  - rewrite lookup_app_r by lia. rewrite lookup_app_r by lia.
    rewrite lookup_app_r by lia. rewrite lookup_app_r by lia.
    rewrite lookup_app_r by lia. rewrite <- S5. f_equal. lia.
Qed.

Lemma slot_locs_index s l :
  l ∈ slot_locs s -> exists a, a < 6 /\ slot_locs s !! a = Some l.
Proof.
  intros Hl. apply list_elem_of_lookup_1 in Hl as [a Ha]. exists a.
  split; [|exact Ha]. apply lookup_lt_Some in Ha. exact Ha.
Qed.

Lemma slot_locs_in_lists k i s l :
  aligned k -> slots_at k i = Some s -> l ∈ slot_locs s -> in_lists k l.
Proof.
  intros Hal Hs Hl. apply slot_locs_index in Hl as (a & Ha & Hl).
  rewrite (slot_locs_lookup k i s a Hal Hs Ha) in Hl.
  exact (list_elem_of_lookup_2 _ _ _ Hl).
Qed.

(** Two tensors of the slots at [i] and [j] are the same tensor only if
    they are the same entry of the same slot. *)
Lemma slot_locs_inj k i j s s' a b l :
  aligned k -> NoDup (all_locs k) ->
  slots_at k i = Some s -> slots_at k j = Some s' ->
  slot_locs s !! a = Some l -> slot_locs s' !! b = Some l ->
  a = b /\ i = j.
Proof.
  intros Hal Hnd Hs Hs' Ha Hb.
  pose proof (slots_at_lt _ _ _ Hs) as Hi.
  pose proof (slots_at_lt _ _ _ Hs') as Hj.
  pose proof (lookup_lt_Some _ _ _ Ha) as Ha6.
  pose proof (lookup_lt_Some _ _ _ Hb) as Hb6.
  change (length (slot_locs s)) with 6 in Ha6.
  change (length (slot_locs s')) with 6 in Hb6.
  rewrite (slot_locs_lookup k i s a Hal Hs Ha6) in Ha.
  rewrite (slot_locs_lookup k j s' b Hal Hs' Hb6) in Hb.
  pose proof (NoDup_lookup _ _ _ _ Hnd Ha Hb) as Heq.
  clear -Heq Hi Hj Ha6 Hb6.
  destruct a as [|[|[|[|[|[|a]]]]]]; [..|lia];
    destruct b as [|[|[|[|[|[|b]]]]]]; lia.
Qed.

Lemma slot_locs_NoDup k i s :
  aligned k -> NoDup (all_locs k) -> slots_at k i = Some s ->
  NoDup (slot_locs s).
Proof.
  intros Hal Hnd Hs. apply NoDup_alt. intros a b l Ha Hb.
  exact (proj1 (slot_locs_inj k i i s s a b l Hal Hnd Hs Hs Ha Hb)).
Qed.

Lemma slot_locs_disjoint k i j s s' l :
  aligned k -> NoDup (all_locs k) -> i <> j ->
  slots_at k i = Some s -> slots_at k j = Some s' ->
  l ∈ slot_locs s -> l ∉ slot_locs s'.
Proof.
  intros Hal Hnd Hij Hs Hs' Hl Hl'.
  apply slot_locs_index in Hl as (a & _ & Ha).
  apply slot_locs_index in Hl' as (b & _ & Hb).
  apply Hij.
  exact (proj2 (slot_locs_inj k i j s s' a b l Hal Hnd Hs Hs' Ha Hb)).
Qed.

(** The kernel can run: the lists are aligned and name different tensors,
    which exist and have, parameter by parameter, the same shape, and the
    two bias corrections it divides by are not zero. *)
Record kernel_ready (k : kernel_args F) (h : gmap loc (list F)) : Prop := {
  ready_aligned : aligned k;
  ready_distinct : NoDup (all_locs k);
  ready_values :
    forall i s, slots_at k i = Some s ->
      exists v, values_at h s = Some v /\ same_shapes v;
  ready_bc1 : feqb (bias_correction1 k) fzero = false;
  ready_bc2 : feqb (bias_correction2 k) fzero = false
}.

Ltac in_slot :=
  unfold slot_locs; cbn [s_param s_grad s_exp_avg s_exp_avg_sq s_exp_avg_diff
                         s_neg_pre_grad];
  rewrite !elem_of_cons; tauto.

(** A loop that visits the positions one after the other and, at each
    position, takes the values of the slot from [v] to [upd v] and leaves the
    rest of the store alone.  [h1] is the store when the loop is at [j]: it
    still agrees with [h] on the slots from [j] on. *)
Lemma slots_loop_from {X} (k : kernel_args F) (good : adan_values F -> Prop)
    (upd : adan_values F -> adan_values F) (body : X -> M (gmap loc (list F)) unit)
    (xs : list X) (h : gmap loc (list F)) :
  aligned k -> NoDup (all_locs k) ->
  (forall i x s v h1,
     xs !! i = Some x -> slots_at k i = Some s ->
     values_at h s = Some v -> values_at h1 s = Some v -> good v ->
     exists h2, body x h1 = (Ok tt, h2)
                /\ values_at h2 s = Some (upd v)
                /\ forall l, l ∉ slot_locs s -> h2 !! l = h1 !! l) ->
  (forall i s, slots_at k i = Some s ->
     exists v, values_at h s = Some v /\ good v) ->
  forall ys j h1,
    (forall m, ys !! m = xs !! (j + m)) ->
    j + length ys = length (params k) ->
    (forall i s l, j <= i -> slots_at k i = Some s -> l ∈ slot_locs s ->
                   h1 !! l = h !! l) ->
    exists h',
      for_each body ys h1 = (Ok tt, h')
      /\ (forall i s v, j <= i -> slots_at k i = Some s ->
            values_at h s = Some v -> values_at h' s = Some (upd v))
      /\ (forall l, (forall i s, j <= i -> slots_at k i = Some s ->
                                 l ∉ slot_locs s) ->
                    h' !! l = h1 !! l).
Proof.
  intros Hal Hnd Hbody Hval.
  induction ys as [|y ys IH]; intros j h1 Hys Hlen Hagree.
  - exists h1. split; [reflexivity|]. split; [|reflexivity].
    intros i s v Hji Hs _. apply slots_at_lt in Hs. simpl in Hlen. lia.
  - simpl.
    assert (Hxj : xs !! j = Some y).
    { specialize (Hys 0). rewrite Nat.add_0_r in Hys. now rewrite <- Hys. }
    assert (Hj : j < length (params k)) by (simpl in Hlen; lia).
    pose proof Hal as (L1 & L2 & L3 & L4 & L5).
    destruct (lookup_lt_is_Some_2 (params k) j Hj) as [p Hp].
    destruct (lookup_lt_is_Some_2 (grads k) j ltac:(lia)) as [grad Hg].
    destruct (lookup_lt_is_Some_2 (exp_avgs k) j ltac:(lia)) as [ea Hea].
    destruct (lookup_lt_is_Some_2 (exp_avg_sqs k) j ltac:(lia)) as [eas Heas].
    destruct (lookup_lt_is_Some_2 (exp_avg_diffs k) j ltac:(lia)) as [ead Head].
    destruct (lookup_lt_is_Some_2 (neg_pre_grads k) j ltac:(lia)) as [npg Hnpg].
    pose (s := {| s_param := p; s_grad := grad; s_exp_avg := ea;
                  s_exp_avg_sq := eas; s_exp_avg_diff := ead;
                  s_neg_pre_grad := npg |}).
    assert (Hs : slots_at k j = Some s) by (apply slots_at_Some; simpl; tauto).
    destruct (Hval j s Hs) as (v & Hv & Hgood).
    assert (Hv1 : values_at h1 s = Some v).
    { apply values_at_Some in Hv as (V0 & V1 & V2 & V3 & V4 & V5).
      apply values_at_Some.
      rewrite !(Hagree j s _ (Nat.le_refl j) Hs) by in_slot. tauto. }
    destruct (Hbody j y s v h1 Hxj Hs Hv Hv1 Hgood)
      as (h2 & Hrun & Hres2 & Hframe).
    rewrite (bind_ok _ _ _ _ _ Hrun).
    destruct (IH (S j) h2) as (h' & Hloop & Hres & Hfr).
    + intros m. replace (S j + m) with (j + S m) by lia. exact (Hys (S m)).
    + simpl in Hlen. lia.
    + intros i s' l Hi Hs' Hl. rewrite Hframe.
      * apply (Hagree i s' l); [lia|exact Hs'|exact Hl].
      * apply (slot_locs_disjoint k i j s' s l Hal Hnd); [lia|auto..].
    + exists h'. split; [exact Hloop|]. split.
      * intros i s' v' Hi Hs' Hv'.
        destruct (decide (i = j)) as [->|Hne].
        -- rewrite Hs in Hs'. inversion Hs'; subst s'.
           rewrite Hv in Hv'. inversion Hv'; subst v'.
           assert (Hkeep : forall l, l ∈ slot_locs s -> h' !! l = h2 !! l).
           { intros l Hl. apply Hfr. intros i s' Hi' Hs''.
             apply (slot_locs_disjoint k j i s s' l Hal Hnd); [lia|auto..]. }
           apply values_at_Some in Hres2 as (R0 & R1 & R2 & R3 & R4 & R5).
           apply values_at_Some.
           rewrite !Hkeep by in_slot. tauto.
        -- apply (Hres i s' v'); [lia|exact Hs'|exact Hv'].
      * intros l Hl. rewrite Hfr.
        -- apply Hframe. apply (Hl j s (Nat.le_refl j) Hs).
        -- intros i s' Hi Hs'. apply (Hl i s'); [lia|exact Hs'].
Qed.

Lemma slots_loop {X} (k : kernel_args F) (good : adan_values F -> Prop)
    (upd : adan_values F -> adan_values F) (body : X -> M (gmap loc (list F)) unit)
    (xs : list X) (h : gmap loc (list F)) :
  aligned k -> NoDup (all_locs k) ->
  length xs = length (params k) ->
  (forall i x s v h1,
     xs !! i = Some x -> slots_at k i = Some s ->
     values_at h s = Some v -> values_at h1 s = Some v -> good v ->
     exists h2, body x h1 = (Ok tt, h2)
                /\ values_at h2 s = Some (upd v)
                /\ forall l, l ∉ slot_locs s -> h2 !! l = h1 !! l) ->
  (forall i s, slots_at k i = Some s ->
     exists v, values_at h s = Some v /\ good v) ->
  exists h',
    for_each body xs h = (Ok tt, h')
    /\ (forall i s v, slots_at k i = Some s -> values_at h s = Some v ->
          values_at h' s = Some (upd v))
    /\ (forall l, ~ in_lists k l -> h' !! l = h !! l).
Proof.
  intros Hal Hnd Hlen Hbody Hval.
  destruct (slots_loop_from k good upd body xs h Hal Hnd Hbody Hval xs 0 h)
    as (h' & Hrun & Hres & Hframe).
  - intros m. reflexivity.
  - exact Hlen.
  - reflexivity.
  - exists h'. split; [exact Hrun|]. split.
    + intros i s v Hs Hv. apply (Hres i s v); [lia|exact Hs|exact Hv].
    + intros l Hl. apply Hframe. intros i s _ Hs Hin. apply Hl.
      exact (slot_locs_in_lists k i s l Hal Hs Hin).
Qed.

Lemma enumerate_from_lookup_Some {A} (l : list A) j m :
  enumerate_from j l !! m = (fun x => (j + m, x)) <$> l !! m.
Proof.
  revert j m. induction l as [|x l IH]; intros j m; [now destruct m|].
  destruct m as [|m]; simpl.
  - now rewrite Nat.add_0_r.
  - rewrite IH. replace (S j + m) with (j + S m) by lia. reflexivity.
Qed.

Lemma length_enumerate_from {A} (l : list A) j :
  length (enumerate_from j l) = length l.
Proof. revert j. induction l as [|x l IH]; intros j; simpl; auto. Qed.

(** The scalar kernel on lists that are ready: it returns, and every slot
    holds what the equations give. *)
Lemma single_tensor_adan_run (k : kernel_args F) (h : gmap loc (list F)) :
  kernel_ready k h ->
  exists h',
    _single_tensor_adan k h = (Ok tt, h')
    /\ (forall i s v,
          slots_at k i = Some s -> values_at h s = Some v ->
          values_at h' s = Some (adan_equations k v))
    /\ (forall l, ~ in_lists k l -> h' !! l = h !! l).
Proof.
  intros [Hal Hnd Hval Hbc1 Hbc2].
  unfold _single_tensor_adan, enumerate.
  apply (slots_loop k same_shapes (adan_equations k) (single_tensor_body k)
           (enumerate_from 0 (params k)) h Hal Hnd).
  - apply length_enumerate_from.
  - intros i [i' p] s v h1 Hx Hs _ Hv (S1 & S2 & S3 & S4 & S5).
    rewrite enumerate_from_lookup_Some in Hx.
    destruct (params k !! i) as [p'|] eqn:Hp; [|discriminate].
    simpl in Hx. inversion Hx; subst i' p'. clear Hx.
    pose proof (slot_locs_NoDup k i s Hal Hnd Hs) as Hnds.
    apply slots_at_Some in Hs as (P0 & P1 & P2 & P3 & P4 & P5).
    rewrite Hp in P0. inversion P0 as [Hps].
    apply values_at_Some in Hv as (V0 & V1 & V2 & V3 & V4 & V5).
    destruct (single_tensor_body_run k i (s_param s) (s_grad s) (s_exp_avg s)
                (s_exp_avg_sq s) (s_exp_avg_diff s) (s_neg_pre_grad s) h1 v)
      as (h2 & Hrun & R0 & R1 & R2 & R3 & R4 & R5 & Hframe); auto.
    exists h2. split; [exact Hrun|]. split; [|exact Hframe].
    apply values_at_Some. tauto.
  - exact Hval.
Qed.

(** C2: when the scalar kernel can run, it returns normally and, for every
    parameter, the six tensors of the parameter end up holding what the
    update equations give from the values they held: the gradient clipped,
    [exp_avg = beta1 m + (1 - beta1) g] (the mean is subtracted from a copy
    that is used for the parameter only, when [mc]),
    [exp_avg_diff = beta2 diff + (1 - beta2) (neg_pre + g)],
    [exp_avg_sq = beta3 n + (1 - beta3) (beta2 (neg_pre + g) + g)^2], the
    parameter updated with [denom = sqrt n / bias_correction3_sqrt + eps],
    [step_size = lr / bc1] and [step_size_diff = lr beta2 / bc2], the decay
    applied before the two subtractions when [no_prox] and after them
    otherwise, and [neg_pre_grad = 0 + (-1) g].  No other tensor changes. *)
Theorem single_tensor_adan_computes_equations :
  forall (k : kernel_args F) (h : gmap loc (list F)),
    kernel_ready k h ->
    exists h',
      _single_tensor_adan k h = (Ok tt, h')
      /\ (forall i s v,
            slots_at k i = Some s -> values_at h s = Some v ->
            values_at h' s = Some (adan_equations k v))
      /\ (forall l, ~ in_lists k l -> h' !! l = h !! l).
Proof. intros k h Hready. now apply single_tensor_adan_run. Qed.

(** ** The batched kernel and the update equations *)

Definition set_a_param (t : list F) (v : adan_values F) : adan_values F :=
  {| a_param := t; a_grad := a_grad v; a_exp_avg := a_exp_avg v;
     a_exp_avg_sq := a_exp_avg_sq v; a_exp_avg_diff := a_exp_avg_diff v;
     a_neg_pre_grad := a_neg_pre_grad v |}.

Definition set_a_grad (t : list F) (v : adan_values F) : adan_values F :=
  {| a_param := a_param v; a_grad := t; a_exp_avg := a_exp_avg v;
     a_exp_avg_sq := a_exp_avg_sq v; a_exp_avg_diff := a_exp_avg_diff v;
     a_neg_pre_grad := a_neg_pre_grad v |}.

Definition set_a_exp_avg (t : list F) (v : adan_values F) : adan_values F :=
  {| a_param := a_param v; a_grad := a_grad v; a_exp_avg := t;
     a_exp_avg_sq := a_exp_avg_sq v; a_exp_avg_diff := a_exp_avg_diff v;
     a_neg_pre_grad := a_neg_pre_grad v |}.

Definition set_a_exp_avg_sq (t : list F) (v : adan_values F) : adan_values F :=
  {| a_param := a_param v; a_grad := a_grad v; a_exp_avg := a_exp_avg v;
     a_exp_avg_sq := t; a_exp_avg_diff := a_exp_avg_diff v;
     a_neg_pre_grad := a_neg_pre_grad v |}.

Definition set_a_exp_avg_diff (t : list F) (v : adan_values F)
  : adan_values F :=
  {| a_param := a_param v; a_grad := a_grad v; a_exp_avg := a_exp_avg v;
     a_exp_avg_sq := a_exp_avg_sq v; a_exp_avg_diff := t;
     a_neg_pre_grad := a_neg_pre_grad v |}.

Definition set_a_neg_pre_grad (t : list F) (v : adan_values F)
  : adan_values F :=
  {| a_param := a_param v; a_grad := a_grad v; a_exp_avg := a_exp_avg v;
     a_exp_avg_sq := a_exp_avg_sq v; a_exp_avg_diff := a_exp_avg_diff v;
     a_neg_pre_grad := t |}.

Section Phases.

(** [h0] is the store at the start of the kernel. *)
Variable k : kernel_args F.
Variable h0 : gmap loc (list F).
Hypothesis ready : kernel_ready k h0.

(** In the store [hp] every slot holds [V] of what it held in [h0], and the
    rest of the store is as in [h0]. *)
Definition tracks (V : adan_values F -> adan_values F)
    (hp : gmap loc (list F)) : Prop :=
  (forall i s v0, slots_at k i = Some s -> values_at h0 s = Some v0 ->
                  values_at hp s = Some (V v0))
  /\ (forall l, ~ in_lists k l -> hp !! l = h0 !! l).

Lemma tracks_start : tracks (fun v => v) h0.
Proof. split; auto. Qed.

Lemma tracks_ext V V' hp :
  (forall v, same_shapes v -> V v = V' v) -> tracks V hp -> tracks V' hp.
Proof.
  intros Hext [Hv Hf]. split; [|exact Hf].
  intros i s v0 Hs Hv0. rewrite <- Hext; [now apply (Hv i s)|].
  destruct (ready_values k h0 ready i s Hs) as (v & Hv' & Hshape).
  rewrite Hv0 in Hv'. now inversion Hv'; subst.
Qed.

(** One batched operation: a loop over the positions that takes the values
    of every slot from [V v0] to [upd (V v0)] *)
Lemma phase_step {X} (V upd : adan_values F -> adan_values F)
    (body : X -> M (gmap loc (list F)) unit) (xs : list X) hp :
  tracks V hp ->
  length xs = length (params k) ->
  (forall i x s v0 h1,
     xs !! i = Some x -> slots_at k i = Some s ->
     values_at h0 s = Some v0 -> same_shapes v0 ->
     values_at h1 s = Some (V v0) ->
     NoDup (slot_locs s) ->
     exists h2, body x h1 = (Ok tt, h2)
                /\ values_at h2 s = Some (upd (V v0))
                /\ forall l, l ∉ slot_locs s -> h2 !! l = h1 !! l) ->
  exists hq,
    for_each body xs hp = (Ok tt, hq) /\ tracks (fun v => upd (V v)) hq.
Proof.
  intros [Hv Hf] Hlen Hbody.
  pose proof (ready_aligned k h0 ready) as Hal.
  pose proof (ready_distinct k h0 ready) as Hnd.
  destruct (slots_loop k (fun _ => True) upd body xs hp Hal Hnd Hlen)
    as (hq & Hrun & Hres & Hframe).
  - intros i x s v h1 Hx Hs Hvp Hv1 _.
    destruct (ready_values k h0 ready i s Hs) as (v0 & Hv0 & Hsh0).
    pose proof (Hv i s v0 Hs Hv0) as Hvp'. rewrite Hvp in Hvp'.
    injection Hvp' as ->.
    apply (Hbody i x s v0 h1); auto.
    exact (slot_locs_NoDup k i s Hal Hnd Hs).
  - intros i s Hs.
    destruct (ready_values k h0 ready i s Hs) as (v0 & Hv0 & Hsh0).
    exists (V v0). split; [now apply (Hv i s)|exact Logic.I].
  - exists hq. split; [exact Hrun|]. split.
    + intros i s v0 Hs Hv0. apply (Hres i s); [exact Hs|]. now apply (Hv i s).
    + intros l Hl. rewrite Hframe by exact Hl. now apply Hf.
Qed.

Lemma phase_scalar (V upd : adan_values F -> adan_values F)
    (op : loc -> F -> M (gmap loc (list F)) unit) ts c hp :
  tracks V hp ->
  length ts = length (params k) ->
  (forall i x s v0 h1,
     ts !! i = Some x -> slots_at k i = Some s ->
     values_at h0 s = Some v0 -> same_shapes v0 ->
     values_at h1 s = Some (V v0) ->
     NoDup (slot_locs s) ->
     exists h2, op x c h1 = (Ok tt, h2)
                /\ values_at h2 s = Some (upd (V v0))
                /\ forall l, l ∉ slot_locs s -> h2 !! l = h1 !! l) ->
  exists hq,
    foreach_scalar op ts c hp = (Ok tt, hq) /\ tracks (fun v => upd (V v)) hq.
Proof. intros Ht Hlen Hbody. now apply phase_step. Qed.

Lemma phase_list {B} (V upd : adan_values F -> adan_values F)
    (op : loc -> B -> M (gmap loc (list F)) unit) ts (os : list B) hp :
  tracks V hp ->
  length ts = length (params k) -> length os = length (params k) ->
  (forall i x o s v0 h1,
     ts !! i = Some x -> os !! i = Some o -> slots_at k i = Some s ->
     values_at h0 s = Some v0 -> same_shapes v0 ->
     values_at h1 s = Some (V v0) ->
     NoDup (slot_locs s) ->
     exists h2, op x o h1 = (Ok tt, h2)
                /\ values_at h2 s = Some (upd (V v0))
                /\ forall l, l ∉ slot_locs s -> h2 !! l = h1 !! l) ->
  exists hq,
    foreach_list op ts os hp = (Ok tt, hq) /\ tracks (fun v => upd (V v)) hq.
Proof.
  intros Ht Hlen1 Hlen2 Hbody. unfold foreach_list.
  rewrite decide_True by congruence.
  apply phase_step; [exact Ht| |].
  - rewrite length_zip_with. lia.
  - intros i [x o] s v0 h1 Hx.
    apply lookup_zip_with_Some in Hx as (a & b & Heq & Ha & Hb).
    injection Heq as -> ->. now apply Hbody.
Qed.

Lemma phase_list3 {B C} (V upd : adan_values F -> adan_values F)
    (op : loc -> B -> C -> M (gmap loc (list F)) unit) ts (t1s : list B)
    (t2s : list C) hp :
  tracks V hp ->
  length ts = length (params k) -> length t1s = length (params k) ->
  length t2s = length (params k) ->
  (forall i x t1 t2 s v0 h1,
     ts !! i = Some x -> t1s !! i = Some t1 -> t2s !! i = Some t2 ->
     slots_at k i = Some s ->
     values_at h0 s = Some v0 -> same_shapes v0 ->
     values_at h1 s = Some (V v0) ->
     NoDup (slot_locs s) ->
     exists h2, op x t1 t2 h1 = (Ok tt, h2)
                /\ values_at h2 s = Some (upd (V v0))
                /\ forall l, l ∉ slot_locs s -> h2 !! l = h1 !! l) ->
  exists hq,
    foreach_list3 op ts t1s t2s hp = (Ok tt, hq)
    /\ tracks (fun v => upd (V v)) hq.
Proof.
  intros Ht Hlen1 Hlen2 Hlen3 Hbody. unfold foreach_list3.
  rewrite decide_True by (split; congruence).
  apply phase_step; [exact Ht| |].
  - rewrite !length_zip_with. lia.
  - intros i [x [t1 t2]] s v0 h1 Hx.
    apply lookup_zip_with_Some in Hx as (a & bc & Heq & Ha & Hbc).
    apply lookup_zip_with_Some in Hbc as (b & c & Heq' & Hb & Hc).
    subst bc. injection Heq as -> -> ->. now apply Hbody.
Qed.

(** [torch._foreach_zero_] *)
Lemma phase_zero (V upd : adan_values F -> adan_values F) ts hp :
  tracks V hp ->
  length ts = length (params k) ->
  (forall i x s v0 h1,
     ts !! i = Some x -> slots_at k i = Some s ->
     values_at h0 s = Some v0 -> same_shapes v0 ->
     values_at h1 s = Some (V v0) ->
     NoDup (slot_locs s) ->
     exists h2, zero_ x h1 = (Ok tt, h2)
                /\ values_at h2 s = Some (upd (V v0))
                /\ forall l, l ∉ slot_locs s -> h2 !! l = h1 !! l) ->
  exists hq,
    foreach_zero_ ts hp = (Ok tt, hq) /\ tracks (fun v => upd (V v)) hq.
Proof. intros Ht Hlen Hbody. now apply phase_step. Qed.

(** The temporaries of the batched kernel: the roots and the means *)
Lemma foreach_sqrt_run ts hp :
  (forall l, l ∈ ts -> is_Some (hp !! l)) ->
  exists roots,
    foreach_sqrt ts hp = (Ok roots, hp)
    /\ length roots = length ts
    /\ forall i l t, ts !! i = Some l -> hp !! l = Some t ->
                     roots !! i = Some (t_sqrt t).
Proof.
  induction ts as [|l ts IH]; intros Hall.
  - exists []. repeat split. intros i l t Hl. now rewrite lookup_nil in Hl.
  - destruct (Hall l) as [t Hl]; [apply elem_of_cons; now left|].
    destruct IH as (roots & Hrun & Hlen & Hroots).
    { intros l' Hl'. apply Hall. apply elem_of_cons. now right. }
    exists (t_sqrt t :: roots). split; [|split].
    + cbn [foreach_sqrt].
      rewrite (bind_ok _ _ _ _ _ (run_read _ _ _ Hl)).
      now rewrite (bind_ok _ _ _ _ _ Hrun).
    + simpl. now rewrite Hlen.
    + intros [|i] l' t' Hi Ht'.
      * simpl in Hi. injection Hi as <-. rewrite Hl in Ht'.
        now injection Ht' as <-.
      * simpl in Hi. simpl. now apply (Hroots i l').
Qed.

Lemma exp_avg_means_run ips acc hp :
  (forall m i p, ips !! m = Some (i, p) ->
     exists l t, exp_avgs k !! i = Some l /\ hp !! l = Some t) ->
  exists means,
    exp_avg_means k ips acc hp = (Ok (acc ++ means), hp)
    /\ length means = length ips
    /\ forall m i p l t,
         ips !! m = Some (i, p) -> exp_avgs k !! i = Some l ->
         hp !! l = Some t -> means !! m = Some (t_mean t).
Proof.
  revert acc. induction ips as [|[i p] ips IH]; intros acc Hall.
  - exists []. rewrite app_nil_r. repeat split.
    intros m i p l t Hm. now rewrite lookup_nil in Hm.
  - destruct (Hall 0 i p) as (l & t & Hl & Ht); [reflexivity|].
    destruct (IH (acc ++ [t_mean t])) as (means & Hrun & Hlen & Hmeans).
    { intros m i' p' Hm. now apply (Hall (S m) i' p'). }
    exists (t_mean t :: means). split; [|split].
    + cbn [exp_avg_means].
      rewrite (bind_ok _ _ _ _ _ (index_ok _ _ _ _ Hl)).
      rewrite (bind_ok _ _ _ _ _ (run_read _ _ _ Ht)).
      rewrite Hrun. now rewrite <- app_assoc.
    + simpl. now rewrite Hlen.
    + intros [|m] i' p' l' t' Hm Hl' Ht'.
      * simpl in Hm. injection Hm as <- <-. rewrite Hl in Hl'.
        injection Hl' as <-. rewrite Ht in Ht'. now injection Ht' as <-.
      * simpl in Hm. simpl. now apply (Hmeans m i' p' l').
Qed.

End Phases.

End ScalarLoop.

(** The facts about one slot, for the body of a batched operation *)
Ltac slot_facts Hs Hsh Hv1 Hnds :=
  apply slots_at_Some in Hs as (? & ? & ? & ? & ? & ?);
  apply values_at_Some in Hv1 as (? & ? & ? & ? & ? & ?);
  cbn [a_param a_grad a_exp_avg a_exp_avg_sq a_exp_avg_diff a_neg_pre_grad
       set_a_param set_a_grad set_a_exp_avg set_a_exp_avg_sq
       set_a_exp_avg_diff set_a_neg_pre_grad] in *;
  destruct Hsh as (? & ? & ? & ? & ?);
  unfold slot_locs in Hnds; distinct_from Hnds.

(** The item of a list at the position of the slot is a tensor of the slot. *)
Ltac known_item :=
  repeat match goal with
         | P : ?L !! ?i = Some ?a, Hx : ?L !! ?i = Some ?x |- _ =>
             is_var x; tryif is_var a then fail else
               (rewrite P in Hx; injection Hx as <-)
         end.

(** One operation on a slot: its run, the values of the slot afterwards and
    what it leaves alone *)
Tactic Notation "slot_run" uconstr(lem) :=
  eexists; split;
  [ eapply lem; side_tac
  | split;
    [ apply values_at_Some;
      cbn [a_param a_grad a_exp_avg a_exp_avg_sq a_exp_avg_diff a_neg_pre_grad
           set_a_param set_a_grad set_a_exp_avg set_a_exp_avg_sq
           set_a_exp_avg_diff set_a_neg_pre_grad];
      repeat split; read_back; try assumption
    | let l := fresh "l" in
      let Hl := fresh "Hl" in
      intros l Hl; unfold slot_locs in Hl; frame_tac Hl ] ].

(** The values a phase tracks, with the projections of the updates reduced *)
Ltac norm_in T :=
  cbn [a_param a_grad a_exp_avg a_exp_avg_sq a_exp_avg_diff a_neg_pre_grad
       set_a_param set_a_grad set_a_exp_avg set_a_exp_avg_sq
       set_a_exp_avg_diff set_a_neg_pre_grad] in T.

(** The body of [torch._foreach_op_(ts, c)] at one position *)
Ltac scalar_phase lem :=
  let i := fresh "i" in let x := fresh "x" in let s := fresh "s" in
  let v0 := fresh "v0" in let hx := fresh "hx" in
  let Hx := fresh "Hx" in let Hs := fresh "Hs" in let Hv0 := fresh "Hv0" in
  let Hsh := fresh "Hsh" in let Hv1 := fresh "Hv1" in
  let Hnds := fresh "Hnds" in
  intros i x s v0 hx Hx Hs Hv0 Hsh Hv1 Hnds;
  slot_facts Hs Hsh Hv1 Hnds; known_item;
  eexists; split;
  [ eapply lem; side_tac
  | split;
    [ apply values_at_Some;
      cbn [a_param a_grad a_exp_avg a_exp_avg_sq a_exp_avg_diff a_neg_pre_grad
           set_a_param set_a_grad set_a_exp_avg set_a_exp_avg_sq
           set_a_exp_avg_diff set_a_neg_pre_grad];
      repeat split; read_back; try assumption
    | let l := fresh "l" in
      let Hl := fresh "Hl" in
      intros l Hl; unfold slot_locs in Hl; frame_tac Hl ] ].

(** The body of [torch._foreach_op_(ts, os)] at one position *)
Ltac list_phase lem :=
  let i := fresh "i" in let x := fresh "x" in let o := fresh "o" in
  let s := fresh "s" in
  let v0 := fresh "v0" in let hx := fresh "hx" in
  let Hx := fresh "Hx" in let Ho := fresh "Ho" in
  let Hs := fresh "Hs" in let Hv0 := fresh "Hv0" in
  let Hsh := fresh "Hsh" in let Hv1 := fresh "Hv1" in
  let Hnds := fresh "Hnds" in
  intros i x o s v0 hx Hx Ho Hs Hv0 Hsh Hv1 Hnds;
  slot_facts Hs Hsh Hv1 Hnds; known_item;
  eexists; split;
  [ eapply lem; side_tac
  | split;
    [ apply values_at_Some;
      cbn [a_param a_grad a_exp_avg a_exp_avg_sq a_exp_avg_diff a_neg_pre_grad
           set_a_param set_a_grad set_a_exp_avg set_a_exp_avg_sq
           set_a_exp_avg_diff set_a_neg_pre_grad];
      repeat split; read_back; try assumption
    | let l := fresh "l" in
      let Hl := fresh "Hl" in
      intros l Hl; unfold slot_locs in Hl; frame_tac Hl ] ].

(** The body of [torch._foreach_op_(ts, t1s, t2s)] at one position *)
Ltac list3_phase lem :=
  let i := fresh "i" in let x := fresh "x" in
  let t1 := fresh "t1" in let t2 := fresh "t2" in
  let s := fresh "s" in
  let v0 := fresh "v0" in let hx := fresh "hx" in
  let Hx := fresh "Hx" in let H1 := fresh "H1" in let H2 := fresh "H2" in
  let Hs := fresh "Hs" in let Hv0 := fresh "Hv0" in
  let Hsh := fresh "Hsh" in let Hv1 := fresh "Hv1" in
  let Hnds := fresh "Hnds" in
  intros i x t1 t2 s v0 hx Hx H1 H2 Hs Hv0 Hsh Hv1 Hnds;
  slot_facts Hs Hsh Hv1 Hnds; known_item;
  eexists; split;
  [ eapply lem; side_tac
  | split;
    [ apply values_at_Some;
      cbn [a_param a_grad a_exp_avg a_exp_avg_sq a_exp_avg_diff a_neg_pre_grad
           set_a_param set_a_grad set_a_exp_avg set_a_exp_avg_sq
           set_a_exp_avg_diff set_a_neg_pre_grad];
      repeat split; read_back; try assumption
    | let l := fresh "l" in
      let Hl := fresh "Hl" in
      intros l Hl; unfold slot_locs in Hl; frame_tac Hl ] ].

(** The operations that read the denominators, which are temporaries *)
Ltac addcdiv_phase T Hroots denom :=
  let i := fresh "i" in let x := fresh "x" in
  let t1 := fresh "t1" in let t2 := fresh "t2" in
  let s := fresh "s" in
  let v0 := fresh "v0" in let hx := fresh "hx" in
  let Hx := fresh "Hx" in let H1 := fresh "H1" in let H2 := fresh "H2" in
  let Hs := fresh "Hs" in let Hv0 := fresh "Hv0" in
  let Hsh := fresh "Hsh" in let Hv1 := fresh "Hv1" in
  let Hnds := fresh "Hnds" in
  let Hvt := fresh "Hvt" in let Hva := fresh "Hva" in
  let Hea := fresh "Hea" in let Heas := fresh "Heas" in
  let Head := fresh "Head" in let Hri := fresh "Hri" in
  intros i x t1 t2 s v0 hx Hx H1 H2 Hs Hv0 Hsh Hv1 Hnds;
  pose proof (proj1 T i s v0 Hs Hv0) as Hvt;
  apply values_at_Some in Hvt as (_ & _ & _ & Hva & _);
  pose proof (proj1 (slots_at_Some _ _ _) Hs) as (_ & _ & Hea & Heas & Head & _);
  pose proof (Hroots i _ _ Heas Hva) as Hri;
  unfold denom in H2;
  change (map ?f ?l) with (f <$> l) in H1;
  change (map ?f ?l) with (f <$> l) in H2;
  rewrite list_lookup_fmap in H1; rewrite list_lookup_fmap in H2;
  rewrite Hri in H2; first [rewrite Hea in H1 | rewrite Head in H1];
  simpl in H1, H2; injection H1 as <-; injection H2 as <-;
  clear Hva Hea Heas Head Hri;
  slot_facts Hs Hsh Hv1 Hnds; known_item;
  eexists; split;
  [ eapply run_addcdiv_; side_tac
  | split;
    [ apply values_at_Some;
      cbn [a_param a_grad a_exp_avg a_exp_avg_sq a_exp_avg_diff a_neg_pre_grad
           set_a_param set_a_grad set_a_exp_avg set_a_exp_avg_sq
           set_a_exp_avg_diff set_a_neg_pre_grad];
      repeat split; read_back; try assumption
    | let l := fresh "l" in
      let Hl := fresh "Hl" in
      intros l Hl; unfold slot_locs in Hl; frame_tac Hl ] ].

Section BatchedKernel.
Context {F : Type} `{Scalar F}.

(** Lists of the same length have a slot at every position. *)
Lemma slots_at_is_Some (k : kernel_args F) i :
  aligned k -> i < length (params k) -> is_Some (slots_at k i).
Proof.
  intros (A1 & A2 & A3 & A4 & A5) Hi.
  destruct (lookup_lt_is_Some_2 (params k) i) as [? E0]; [lia|].
  destruct (lookup_lt_is_Some_2 (grads k) i) as [? E1]; [lia|].
  destruct (lookup_lt_is_Some_2 (exp_avgs k) i) as [? E2]; [lia|].
  destruct (lookup_lt_is_Some_2 (exp_avg_sqs k) i) as [? E3]; [lia|].
  destruct (lookup_lt_is_Some_2 (exp_avg_diffs k) i) as [? E4]; [lia|].
  destruct (lookup_lt_is_Some_2 (neg_pre_grads k) i) as [? E5]; [lia|].
  unfold slots_at. rewrite E0, E1, E2, E3, E4, E5. simpl. eauto.
Qed.

(** Values are equal when their six tensors are. *)
Lemma adan_values_ext (x y : adan_values F) :
  a_param x = a_param y -> a_grad x = a_grad y ->
  a_exp_avg x = a_exp_avg y -> a_exp_avg_sq x = a_exp_avg_sq y ->
  a_exp_avg_diff x = a_exp_avg_diff y ->
  a_neg_pre_grad x = a_neg_pre_grad y -> x = y.
Proof. destruct x, y. cbn. congruence. Qed.

(** The batched kernel on lists that are ready: it returns, and every slot
    holds what the equations give, with the first moment centralized in the
    state when [mc]. *)
Lemma multi_tensor_adan_run (k : kernel_args F) (h : gmap loc (list F)) :
  kernel_ready k h ->
  exists h',
    _multi_tensor_adan k h = (Ok tt, h')
    /\ (forall i s v, slots_at k i = Some s -> values_at h s = Some v ->
          values_at h' s = Some (adan_equations_batched k v))
    /\ (forall l, ~ in_lists k l -> h' !! l = h !! l).
Proof.
  intros ready.
  pose proof (ready_aligned k h ready) as Hal.
  pose proof Hal as (A1 & A2 & A3 & A4 & A5).
  pose proof (ready_bc1 k h ready) as Hbc1.
  pose proof (ready_bc2 k h ready) as Hbc2.
  unfold _multi_tensor_adan.
  destruct (decide (length (params k) = 0)) as [Hz|Hnz].
  { exists h. split; [reflexivity|]. split; [|auto].
    intros i s v Hs. apply slots_at_lt in Hs. lia. }
  pose proof (tracks_start k h) as T0.
  destruct (phase_scalar k h ready _
              (fun v => set_a_grad (t_mul (a_grad v) (clip_global_grad_norm k)) v)
              mul_ (grads k) (clip_global_grad_norm k) h T0 A1)
    as (h1 & R1 & T1); [scalar_phase run_mul_|norm_in T1].
  destruct (phase_list k h ready _
              (fun v => set_a_neg_pre_grad
                          (t_add (a_neg_pre_grad v) (a_grad v)) v)
              add_ (neg_pre_grads k) (grads k) h1 T1 A5 A1)
    as (h2 & R2 & T2); [list_phase run_add_|norm_in T2].
  destruct (phase_scalar k h ready _
              (fun v => set_a_exp_avg (t_mul (a_exp_avg v) (beta1 k)) v)
              mul_ (exp_avgs k) (beta1 k) h2 T2 A2)
    as (h3 & R3 & T3); [scalar_phase run_mul_|norm_in T3].
  destruct (phase_list k h ready _
              (fun v => set_a_exp_avg
                          (t_add_alpha (a_exp_avg v) (a_grad v)
                             (fone - beta1 k)%F) v)
              (fun l o => add_alpha_ l o (fone - beta1 k)%F)
              (exp_avgs k) (grads k) h3 T3 A2 A1)
    as (h4 & R4 & T4); [list_phase run_add_alpha_|norm_in T4].
  match type of T4 with
  | tracks _ _ ?V _ =>
      assert (exists h5,
            (if mc k then
               let* exp_avg_mean := exp_avg_means k (enumerate (params k)) [] in
               foreach_list (fun l s => add_scalar_alpha_ l s (- fone)%F)
                 (exp_avgs k) exp_avg_mean
             else ret tt) h4 = (Ok tt, h5)
            /\ tracks k h
                 (fun v =>
                    (fun v =>
                       set_a_exp_avg
                         (if mc k
                          then t_add_scalar (a_exp_avg v)
                                 (- fone * t_mean (a_exp_avg v))%F
                          else a_exp_avg v) v) (V v)) h5) as (h5 & R5 & T5)
  end.
  { destruct (mc k).
    - destruct (exp_avg_means_run k (enumerate (params k)) [] h4)
        as (means & Rm & Lm & Hmeans).
      { intros m i p Hm. unfold enumerate in Hm.
        rewrite enumerate_from_lookup_Some in Hm.
        destruct (params k !! m) as [p'|] eqn:Hp; [|discriminate].
        injection Hm as <- <-.
        destruct (slots_at_is_Some k m Hal (lookup_lt_Some _ _ _ Hp))
          as [s Hs].
        destruct (ready_values k h ready m s Hs) as (v0 & Hv0 & _).
        pose proof (proj1 T4 m s v0 Hs Hv0) as Hv4.
        apply slots_at_Some in Hs as (_ & _ & Hea & _).
        apply values_at_Some in Hv4 as (_ & _ & Hva & _).
        eauto. }
      simpl in Rm.
      destruct (phase_list k h ready _
                  (fun v => set_a_exp_avg
                              (t_add_scalar (a_exp_avg v)
                                 (- fone * t_mean (a_exp_avg v))%F) v)
                  (fun l s => add_scalar_alpha_ l s (- fone)%F)
                  (exp_avgs k) means h4 T4 A2)
        as (h5 & R5 & T5).
      { rewrite Lm. unfold enumerate. apply length_enumerate_from. }
      { intros i x o s v0 hx Hx Ho Hs Hv0 Hsh Hv1 Hnds.
        pose proof (proj1 T4 i s v0 Hs Hv0) as Hv4.
        apply values_at_Some in Hv4 as (_ & _ & Hva & _).
        pose proof (proj1 (slots_at_Some _ _ _) Hs) as (Hp & _ & Hea & _).
        assert (enumerate (params k) !! i = Some (i, s_param s)) as Hen.
        { unfold enumerate. rewrite enumerate_from_lookup_Some, Hp.
          reflexivity. }
        pose proof (Hmeans i i _ _ _ Hen Hea Hva) as Hmi.
        clear Hen Hp Hea Hva.
        slot_facts Hs Hsh Hv1 Hnds. known_item.
        slot_run run_add_scalar_alpha_. }
      exists h5. split; [|exact T5].
      now rewrite (bind_ok _ _ _ _ _ Rm).
    - exists h4. split; [reflexivity|].
      revert T4. apply tracks_ext; [exact ready|]. intros v _. now destruct v. }
  norm_in T5.
  destruct (phase_scalar k h ready _
              (fun v => set_a_exp_avg_diff
                          (t_mul (a_exp_avg_diff v) (beta2 k)) v)
              mul_ (exp_avg_diffs k) (beta2 k) h5 T5 A4)
    as (h6 & R6 & T6); [scalar_phase run_mul_|norm_in T6].
  destruct (phase_list k h ready _
              (fun v => set_a_exp_avg_diff
                          (t_add_alpha (a_exp_avg_diff v) (a_neg_pre_grad v)
                             (fone - beta2 k)%F) v)
              (fun l o => add_alpha_ l o (fone - beta2 k)%F)
              (exp_avg_diffs k) (neg_pre_grads k) h6 T6 A4 A5)
    as (h7 & R7 & T7); [list_phase run_add_alpha_|norm_in T7].
  destruct (phase_scalar k h ready _
              (fun v => set_a_neg_pre_grad
                          (t_mul (a_neg_pre_grad v) (beta2 k)) v)
              mul_ (neg_pre_grads k) (beta2 k) h7 T7 A5)
    as (h8 & R8 & T8); [scalar_phase run_mul_|norm_in T8].
  destruct (phase_list k h ready _
              (fun v => set_a_neg_pre_grad
                          (t_add (a_neg_pre_grad v) (a_grad v)) v)
              add_ (neg_pre_grads k) (grads k) h8 T8 A5 A1)
    as (h9 & R9 & T9); [list_phase run_add_|norm_in T9].
  destruct (phase_scalar k h ready _
              (fun v => set_a_exp_avg_sq
                          (t_mul (a_exp_avg_sq v) (beta3 k)) v)
              mul_ (exp_avg_sqs k) (beta3 k) h9 T9 A3)
    as (h10 & R10 & T10); [scalar_phase run_mul_|norm_in T10].
  destruct (phase_list3 k h ready _
              (fun v => set_a_exp_avg_sq
                          (t_addcmul (a_exp_avg_sq v) (a_neg_pre_grad v)
                             (a_neg_pre_grad v) (fone - beta3 k)%F) v)
              (fun l t1 t2 => addcmul_ l t1 t2 (fone - beta3 k)%F)
              (exp_avg_sqs k) (neg_pre_grads k) (neg_pre_grads k) h10 T10
              A3 A5 A5)
    as (h11 & R11 & T11); [list3_phase run_addcmul_|norm_in T11].
  destruct (foreach_sqrt_run (exp_avg_sqs k) h11) as (roots & Rr & Lr & Hroots).
  { intros l Hl. apply list_elem_of_lookup in Hl as [i Hi].
    destruct (slots_at_is_Some k i Hal) as [s Hs].
    { rewrite <- A3. exact (lookup_lt_Some _ _ _ Hi). }
    destruct (ready_values k h ready i s Hs) as (v0 & Hv0 & _).
    pose proof (proj1 T11 i s v0 Hs Hv0) as Hv11.
    apply slots_at_Some in Hs as (_ & _ & _ & Heas & _).
    apply values_at_Some in Hv11 as (_ & _ & _ & Hva & _).
    rewrite Heas in Hi. injection Hi as <-. eauto. }
  set (denom :=
         map (fun r => Tmp (t_add_scalar (t_div r (bias_correction3_sqrt k))
                              (eps k))) roots).
  assert (length denom = length (params k)) as Ld.
  { unfold denom. rewrite length_map. congruence. }
  assert (length (map (@Ref F) (exp_avgs k)) = length (params k)) as La
    by (rewrite length_map; exact A2).
  assert (length (map (@Ref F) (exp_avg_diffs k)) = length (params k)) as Lb
    by (rewrite length_map; exact A4).
  set (step_size := (lr k / bias_correction1 k)%F).
  set (step_size_diff := (lr k * beta2 k / bias_correction2 k)%F).
  match type of T11 with
  | tracks _ _ ?V _ =>
      assert (exists h14,
        (if no_prox k then
           foreach_scalar mul_ (params k) (fone - lr k * weight_decay k)%F >>
           foreach_list3 (fun l t1 t2 => addcdiv_ l t1 t2 (- step_size)%F)
             (params k) (map (@Ref F) (exp_avgs k)) denom >>
           foreach_list3 (fun l t1 t2 => addcdiv_ l t1 t2 (- step_size_diff)%F)
             (params k) (map (@Ref F) (exp_avg_diffs k)) denom
         else
           foreach_list3 (fun l t1 t2 => addcdiv_ l t1 t2 (- step_size)%F)
             (params k) (map (@Ref F) (exp_avgs k)) denom >>
           foreach_list3 (fun l t1 t2 => addcdiv_ l t1 t2 (- step_size_diff)%F)
             (params k) (map (@Ref F) (exp_avg_diffs k)) denom >>
           foreach_scalar div_ (params k) (fone + lr k * weight_decay k)%F)
          h11 = (Ok tt, h14)
        /\ tracks k h
             (fun v =>
                (fun v =>
                   let dn :=
                     t_add_scalar
                       (t_div (t_sqrt (a_exp_avg_sq v))
                          (bias_correction3_sqrt k)) (eps k) in
                   set_a_param
                     (if no_prox k then
                        t_addcdiv
                          (t_addcdiv
                             (t_mul (a_param v)
                                (fone - lr k * weight_decay k)%F)
                             (a_exp_avg v) dn (- step_size)%F)
                          (a_exp_avg_diff v) dn (- step_size_diff)%F
                      else
                        t_div
                          (t_addcdiv
                             (t_addcdiv (a_param v) (a_exp_avg v) dn
                                (- step_size)%F)
                             (a_exp_avg_diff v) dn (- step_size_diff)%F)
                          (fone + lr k * weight_decay k)%F) v) (V v)) h14)
        as (h14 & R14 & T14)
  end.
  { destruct (no_prox k).
    - destruct (phase_scalar k h ready _
                  (fun v => set_a_param
                              (t_mul (a_param v)
                                 (fone - lr k * weight_decay k)%F) v)
                  mul_ (params k) (fone - lr k * weight_decay k)%F h11 T11
                  eq_refl)
        as (h12 & R12 & T12); [scalar_phase run_mul_|norm_in T12].
      destruct (phase_list3 k h ready _
                  (fun v => set_a_param
                              (t_addcdiv (a_param v) (a_exp_avg v)
                                 (t_add_scalar
                                    (t_div (t_sqrt (a_exp_avg_sq v))
                                       (bias_correction3_sqrt k)) (eps k))
                                 (- step_size)%F) v)
                  (fun l t1 t2 => addcdiv_ l t1 t2 (- step_size)%F)
                  (params k) (map (@Ref F) (exp_avgs k)) denom h12 T12
                  eq_refl La Ld)
        as (h13 & R13 & T13); [addcdiv_phase T11 Hroots denom|norm_in T13].
      destruct (phase_list3 k h ready _
                  (fun v => set_a_param
                              (t_addcdiv (a_param v) (a_exp_avg_diff v)
                                 (t_add_scalar
                                    (t_div (t_sqrt (a_exp_avg_sq v))
                                       (bias_correction3_sqrt k)) (eps k))
                                 (- step_size_diff)%F) v)
                  (fun l t1 t2 => addcdiv_ l t1 t2 (- step_size_diff)%F)
                  (params k) (map (@Ref F) (exp_avg_diffs k)) denom h13 T13
                  eq_refl Lb Ld)
        as (h14 & R14 & T14); [addcdiv_phase T11 Hroots denom|norm_in T14].
      exists h14. split; [|exact T14].
      eapply bind_step; [exact R12|].
      eapply bind_step; [exact R13|exact R14].
    - destruct (phase_list3 k h ready _
                  (fun v => set_a_param
                              (t_addcdiv (a_param v) (a_exp_avg v)
                                 (t_add_scalar
                                    (t_div (t_sqrt (a_exp_avg_sq v))
                                       (bias_correction3_sqrt k)) (eps k))
                                 (- step_size)%F) v)
                  (fun l t1 t2 => addcdiv_ l t1 t2 (- step_size)%F)
                  (params k) (map (@Ref F) (exp_avgs k)) denom h11 T11
                  eq_refl La Ld)
        as (h12 & R12 & T12); [addcdiv_phase T11 Hroots denom|norm_in T12].
      destruct (phase_list3 k h ready _
                  (fun v => set_a_param
                              (t_addcdiv (a_param v) (a_exp_avg_diff v)
                                 (t_add_scalar
                                    (t_div (t_sqrt (a_exp_avg_sq v))
                                       (bias_correction3_sqrt k)) (eps k))
                                 (- step_size_diff)%F) v)
                  (fun l t1 t2 => addcdiv_ l t1 t2 (- step_size_diff)%F)
                  (params k) (map (@Ref F) (exp_avg_diffs k)) denom h12 T12
                  eq_refl Lb Ld)
        as (h13 & R13 & T13); [addcdiv_phase T11 Hroots denom|norm_in T13].
      destruct (phase_scalar k h ready _
                  (fun v => set_a_param
                              (t_div (a_param v)
                                 (fone + lr k * weight_decay k)%F) v)
                  div_ (params k) (fone + lr k * weight_decay k)%F h13 T13
                  eq_refl)
        as (h14 & R14 & T14); [scalar_phase run_div_|norm_in T14].
      exists h14. split; [|exact T14].
      eapply bind_step; [exact R12|].
      eapply bind_step; [exact R13|exact R14]. }
  cbv zeta in T14. norm_in T14.
  destruct (phase_zero k h ready _
              (fun v => set_a_neg_pre_grad (zeros_like (a_neg_pre_grad v)) v)
              (neg_pre_grads k) h14 T14 A5)
    as (h15 & R15 & T15); [scalar_phase run_zero_|norm_in T15].
  destruct (phase_list k h ready _
              (fun v => set_a_neg_pre_grad
                          (t_add_alpha (a_neg_pre_grad v) (a_grad v)
                             (- fone)%F) v)
              (fun l o => add_alpha_ l o (- fone)%F)
              (neg_pre_grads k) (grads k) h15 T15 A5 A1)
    as (h16 & R16 & T16); [list_phase run_add_alpha_|norm_in T16].
  exists h16. split; [|split].
  - eapply bind_step; [exact R1|].
    eapply bind_step; [exact R2|].
    eapply bind_step; [exact R3|].
    eapply bind_step; [exact R4|].
    eapply bind_step; [exact R5|].
    eapply bind_step; [exact R6|].
    eapply bind_step; [exact R7|].
    eapply bind_step; [exact R8|].
    eapply bind_step; [exact R9|].
    eapply bind_step; [exact R10|].
    eapply bind_step; [exact R11|].
    eapply bind_step; [exact Rr|].
    eapply bind_step; [exact (run_py_div _ _ _ Hbc2)|].
    eapply bind_step; [exact (run_py_div _ _ _ Hbc1)|].
    eapply bind_step; [exact R14|].
    eapply bind_step; [exact R15|exact R16].
  - intros i s v Hs Hv.
    destruct (ready_values k h ready i s Hs) as (v' & Hv' & Hsh).
    rewrite Hv in Hv'. injection Hv' as <-.
    destruct Hsh as (S1 & S2 & S3 & S4 & S5).
    rewrite (proj1 T16 i s v Hs Hv). f_equal.
    unfold step_size, step_size_diff.
    apply adan_values_ext;
      cbn [adan_equations_batched
           a_param a_grad a_exp_avg a_exp_avg_sq a_exp_avg_diff a_neg_pre_grad
           set_a_param set_a_grad set_a_exp_avg set_a_exp_avg_sq
           set_a_exp_avg_diff set_a_neg_pre_grad];
      try reflexivity;
      try (now destruct (no_prox k), (mc k)).
    f_equal. apply zeros_like_length. len_tac.
  - exact (proj2 T16).
Qed.

(** Without moment centralization the two kernels compute the same
    equations: they return, and leave the same values in every slot and the
    same tensors elsewhere. *)
Lemma equations_agree_without_mc (k : kernel_args F) (v : adan_values F) :
  mc k = false -> adan_equations_batched k v = adan_equations k v.
Proof.
  intros Hmc. unfold adan_equations_batched, adan_equations.
  now rewrite Hmc.
Qed.

Lemma kernels_agree_without_mc (k : kernel_args F) (h : gmap loc (list F)) :
  kernel_ready k h -> mc k = false ->
  exists h1 h2,
    _single_tensor_adan k h = (Ok tt, h1)
    /\ _multi_tensor_adan k h = (Ok tt, h2)
    /\ (forall i s, slots_at k i = Some s -> values_at h2 s = values_at h1 s)
    /\ (forall l, ~ in_lists k l -> h2 !! l = h1 !! l).
Proof.
  intros Hready Hmc.
  destruct (single_tensor_adan_run k h Hready) as (h1 & R1 & V1 & F1).
  destruct (multi_tensor_adan_run k h Hready) as (h2 & R2 & V2 & F2).
  exists h1, h2. split; [exact R1|]. split; [exact R2|]. split.
  - intros i s Hs.
    destruct (ready_values k h Hready i s Hs) as (v & Hv & _).
    rewrite (V1 i s v Hs Hv), (V2 i s v Hs Hv).
    now rewrite equations_agree_without_mc.
  - intros l Hl. now rewrite F1, F2.
Qed.

End BatchedKernel.



Section OptimizerFacts.

Context {F : Type} `{Scalar F}.

(** ** [__setstate__] *)

(** C9: for every state argument and every optimizer, [__setstate__] stops
    with a NameError for the name [Adan], which adan.py never binds (its class
    is called [adan]); it does so before the method of the base class runs
    and before any group is touched, so no state is ever restored through
    it. *)
Theorem setstate_raises_NameError :
  forall (St : Type) (Optimizer_setstate : St -> M (World F) unit)
         (state : St) (w : World F),
    __setstate__ Optimizer_setstate state w = (Raise (NameError "Adan"), w).
Proof. intros. reflexivity. Qed.

(** ** Computations that only read *)

Definition readonly {St A} (m : M St A) : Prop := forall s, (m s).2 = s.

Lemma readonly_keeps {St A} (I : St -> Prop) (m : M St A) :
  readonly m -> keeps I m (fun _ => True).
Proof.
  intros Hm s Hs. specialize (Hm s). destruct (m s) as [[a|e] s']; simpl in *;
    subst; auto.
Qed.

Lemma readonly_ret {St A} (a : A) : readonly (St:=St) (ret a).
Proof. intros s. reflexivity. Qed.

Lemma readonly_raise {St A} e : readonly (St:=St) (A:=A) (raise e).
Proof. intros s. reflexivity. Qed.

Lemma readonly_bind {St A B} (m : M St A) (k : A -> M St B) :
  readonly m -> (forall a, readonly (k a)) -> readonly (bind m k).
Proof.
  intros Hm Hk s. specialize (Hm s). unfold bind.
  destruct (m s) as [[a|e] s']; simpl in *; subst; [apply Hk|reflexivity].
Qed.

Lemma readonly_index {St A} (l : list A) i : readonly (St:=St) (index l i).
Proof. intros s. unfold index. now destruct (l !! i). Qed.

Lemma readonly_key {St A} name (v : option A) : readonly (St:=St) (key name v).
Proof. intros s. now destruct v. Qed.

Lemma readonly_on_heap_read (l : loc) :
  readonly (on_heap (F:=F) (read l)).
Proof.
  intros w. unfold on_heap, read. destruct w as [d gs st h]; simpl.
  now destruct (h !! l).
Qed.

Lemma readonly_add_grad_norms ps (acc : F) : readonly (add_grad_norms ps acc).
Proof.
  revert acc. induction ps as [|p ps IH]; intros acc; simpl;
    [apply readonly_ret|].
  destruct (p_grad p); [|apply IH].
  apply readonly_bind; [apply readonly_on_heap_read|]. intros t. apply IH.
Qed.

Lemma readonly_add_group_norms gs (acc : F) : readonly (add_group_norms gs acc).
Proof.
  revert acc. induction gs as [|g gs IH]; intros acc; simpl;
    [apply readonly_ret|].
  apply readonly_bind; [apply readonly_add_grad_norms|]. intros a. apply IH.
Qed.

(** The clipping pass changes nothing. *)
Lemma readonly_clip_pass : readonly (clip_pass (F:=F)).
Proof.
  intros w. unfold clip_pass.
  destruct (fltb fzero (d_max_grad_norm (w_defaults w))); [|reflexivity].
  revert w. change (readonly
    (fun w : World F =>
       (let* g0 := index (w_groups w) 0 in
        let* _ := index (g_params g0) 0 in
        let* total := add_group_norms (w_groups w) fzero in
        let* group := key "group" (last (w_groups w)) in
        ret (clamp_max
               (d_max_grad_norm (w_defaults w) / (fsqrt total + g_eps group))%F
               fone)) w)).
  intros w.
  apply (readonly_bind (index (w_groups w) 0)); [apply readonly_index|].
  intros g0. apply readonly_bind; [apply readonly_index|].
  intros _. apply readonly_bind; [apply readonly_add_group_norms|].
  intros total. apply readonly_bind; [apply readonly_key|].
  intros g. apply readonly_ret.
Qed.

(** ** What [step] leaves alone *)

(** The tensors of the state of a parameter *)
Definition state_locs (o : option ParamState) : list loc :=
  match o with
  | Some s => omap id [exp_avg s; exp_avg_sq s; exp_avg_diff s; neg_pre_grad s]
  | None => []
  end.

Lemma elem_of_state_locs s l :
  l ∈ state_locs (Some s) <->
  exp_avg s = Some l \/ exp_avg_sq s = Some l \/ exp_avg_diff s = Some l
  \/ neg_pre_grad s = Some l.
Proof.
  unfold state_locs. rewrite list_elem_of_omap. split.
  - intros [o [Hin Ho]]. simpl in Ho. subst o.
    rewrite !elem_of_cons in Hin. rewrite elem_of_nil in Hin.
    destruct Hin as [E|[E|[E|[E|[]]]]]; rewrite <- E; tauto.
  - intros Hl. exists (Some l). split; [|reflexivity].
    rewrite !elem_of_cons.
    destruct Hl as [E|[E|[E|E]]]; rewrite <- E; tauto.
Qed.

Lemma state_locs_default o :
  state_locs (Some (default empty_state o)) = state_locs o.
Proof. now destruct o. Qed.

Section Frame.

(** [L] are the tensors and [K] the state entries under watch, [Qs] the
    parameters of all the groups, [w0] the optimizer before the call. *)
Variable L : loc -> Prop.
Variable K : loc -> Prop.
Variable Qs : Param -> Prop.
Variable w0 : World F.

(** What [step] handles for a parameter [q] that has a gradient is not under
    watch: [q] itself, its gradient, its state entry and its state
    tensors. *)
Definition apart (st : gmap loc ParamState) (q : Param) : Prop :=
  forall g, p_grad q = Some g ->
    ~ L (p_data q) /\ ~ K (p_data q) /\ ~ L g
    /\ forall l, l ∈ state_locs (st !! p_data q) -> ~ L l.

Record protected (w : World F) : Prop := {
  prot_heap : forall l, L l -> w_heap w !! l = w_heap w0 !! l;
  prot_state : forall k, K k -> w_state w !! k = w_state w0 !! k;
  prot_apart : forall q, Qs q -> apart (w_state w) q;
  prot_params : forall g q, g ∈ w_groups w -> q ∈ g_params g -> Qs q
}.

Hypothesis L_allocated : forall l, L l -> is_Some (w_heap w0 !! l).

Lemma keeps_on_heap {A} (m : M (gmap loc (list F)) A) (P : loc -> Prop)
    (Q : A -> Prop) :
  (forall h0, keeps (agrees_off P h0) m Q) ->
  (forall l, P l -> ~ L l) ->
  keeps protected (on_heap m) Q.
Proof.
  intros Hm HPL w Hw. unfold on_heap.
  assert (Hh : agrees_off P (w_heap w) (w_heap w)) by (intros l _; reflexivity).
  specialize (Hm (w_heap w) (w_heap w) Hh).
  assert (Hprot : forall h, agrees_off P (w_heap w) h -> protected (set_heap h w)).
  { intros h Hag. destruct Hw as [H1 H2 H3 H4].
    split; simpl; auto.
    intros l Hl. rewrite <- (H1 l Hl). apply Hag. intros HP.
    exact (HPL l HP Hl). }
  destruct (m (w_heap w)) as [[a|e] h]; simpl.
  - destruct Hm as [Ha Hag]. auto.
  - auto.
Qed.

(** A new tensor is not under watch. *)
Lemma keeps_alloc_after_read l (f : list F -> list F) :
  keeps protected (on_heap (let* t := read l in alloc (f t)))
    (fun l' => ~ L l').
Proof.
  intros w Hw. unfold on_heap, bind, read.
  destruct (w_heap w !! l) as [t|]; simpl.
  - assert (Hfresh : ~ L (fresh (dom (w_heap w)))).
    { intros HL. destruct (L_allocated _ HL) as [t' Ht'].
      rewrite <- (prot_heap w Hw _ HL) in Ht'.
      apply (is_fresh (dom (w_heap w))). apply elem_of_dom. eauto. }
    split; [exact Hfresh|].
    destruct Hw as [H1 H2 H3 H4]. split; simpl; auto.
    intros l' Hl'. rewrite lookup_insert_ne; [auto|].
    intros <-. contradiction.
  - destruct w; exact Hw.
Qed.

Lemma keeps_new_zeros_like p :
  keeps protected (new_zeros_like p) (fun l' => ~ L l').
Proof. apply keeps_alloc_after_read. Qed.

Lemma keeps_get_group gi :
  keeps protected (get_group gi) (fun g => forall q, q ∈ g_params g -> Qs q).
Proof.
  intros w Hw. unfold get_group, index.
  destruct (w_groups w !! gi) as [g|] eqn:Hg; simpl; [|exact Hw].
  split; [|exact Hw]. intros q Hq.
  apply (prot_params w Hw g q); [|exact Hq].
  exact (list_elem_of_lookup_2 _ _ _ Hg).
Qed.

Lemma keeps_modify_group_step gi n :
  keeps protected (modify_group gi (set_g_step n)) (fun _ => True).
Proof.
  intros w Hw. unfold modify_group. simpl. split; [exact Logic.I|].
  destruct Hw as [H1 H2 H3 H4]. split; simpl; auto.
  intros g q Hg Hq.
  apply list_elem_of_lookup_1 in Hg as [j Hj].
  rewrite list_lookup_alter in Hj. case_decide.
  - destruct (w_groups w !! gi) as [g'|] eqn:Hg'; [|discriminate].
    simpl in Hj. inversion Hj; subst g. simpl in Hq.
    exact (H4 g' q (list_elem_of_lookup_2 _ _ _ Hg') Hq).
  - exact (H4 g q (list_elem_of_lookup_2 _ _ _ Hj) Hq).
Qed.

Lemma keeps_get_state p g :
  Qs p -> p_grad p = Some g ->
  keeps protected (get_state p)
    (fun s => ~ L (p_data p) /\ ~ L g
              /\ forall l, l ∈ state_locs (Some s) -> ~ L l).
Proof.
  intros Hp Hg w Hw. unfold get_state. cbv beta iota. split; [|exact Hw].
  destruct (prot_apart w Hw p Hp g Hg) as (H1 & _ & H2 & Hst).
  repeat split; auto.
  intros l Hl. rewrite state_locs_default in Hl. now apply Hst.
Qed.

(** Putting a tensor that is not under watch into the state of a parameter
    that has a gradient *)
Lemma keeps_modify_state p g (f : ParamState -> ParamState) :
  Qs p -> p_grad p = Some g ->
  (forall s l, l ∈ state_locs (Some (f s)) ->
               l ∈ state_locs (Some s) \/ ~ L l) ->
  keeps protected (modify_state p f) (fun _ => True).
Proof.
  intros Hp Hg Hf w Hw. unfold modify_state. cbv beta iota.
  split; [exact Logic.I|].
  destruct (prot_apart w Hw p Hp g Hg) as (_ & HK & _ & Hst).
  destruct Hw as [H1 H2 H3 H4].
  split; cbn [set_state w_heap w_state w_groups]; auto.
  - intros k Hk. rewrite lookup_insert_ne; [auto|].
    intros <-. contradiction.
  - intros q Hq gq Hgq. destruct (H3 q Hq gq Hgq) as (A1 & A2 & A3 & A4).
    repeat split; auto.
    intros l Hl. destruct (decide (p_data p = p_data q)) as [Heq|Hne].
    + rewrite Heq, lookup_insert_eq in Hl.
      apply Hf in Hl as [Hl|Hl]; [|exact Hl].
      rewrite state_locs_default in Hl. now apply A4.
    + rewrite lookup_insert_ne in Hl by exact Hne. now apply A4.
Qed.

Lemma set_exp_avg_locs l0 s l :
  l ∈ state_locs (Some (set_exp_avg l0 s)) ->
  l ∈ state_locs (Some s) \/ l = l0.
Proof. rewrite !elem_of_state_locs. simpl. intros [E|?]; [inversion E|]; tauto. Qed.

Lemma set_exp_avg_sq_locs l0 s l :
  l ∈ state_locs (Some (set_exp_avg_sq l0 s)) ->
  l ∈ state_locs (Some s) \/ l = l0.
Proof.
  rewrite !elem_of_state_locs. simpl. intros [?|[E|?]]; [|inversion E|]; tauto.
Qed.

Lemma set_exp_avg_diff_locs l0 s l :
  l ∈ state_locs (Some (set_exp_avg_diff l0 s)) ->
  l ∈ state_locs (Some s) \/ l = l0.
Proof.
  rewrite !elem_of_state_locs. simpl.
  intros [?|[?|[E|?]]]; [| |inversion E|]; tauto.
Qed.

Lemma set_neg_pre_grad_locs l0 s l :
  l ∈ state_locs (Some (set_neg_pre_grad l0 s)) ->
  l ∈ state_locs (Some s) \/ l = l0.
Proof.
  rewrite !elem_of_state_locs. simpl.
  intros [?|[?|[?|E]]]; [| | |inversion E]; tauto.
Qed.

Lemma keeps_key {St A} (I : St -> Prop) name (v : option A) :
  keeps I (key name v) (fun x => v = Some x).
Proof. destruct v; [now apply keeps_ret|apply keeps_raise]. Qed.

Lemma keeps_math_sqrt {St} (I : St -> Prop) (x : F) :
  keeps I (math_sqrt x) (fun _ => True).
Proof.
  unfold math_sqrt. destruct (fltb x fzero); [apply keeps_raise|now apply keeps_ret].
Qed.

Lemma keeps_py_pow {St} (I : St -> Prop) (x : F) n :
  keeps I (py_pow x n) (fun _ => True).
Proof.
  unfold py_pow. destruct (pow_overflows x n);
    [apply keeps_raise|now apply keeps_ret].
Qed.

(** None of the tensors collected for the kernel is under watch. *)
Definition lists_apart (a : gathered) : Prop :=
  forall l,
    l ∈ params_with_grad a ++ gr_grads a ++ gr_exp_avgs a ++ gr_exp_avg_sqs a
        ++ gr_exp_avg_diffs a ++ gr_neg_pre_grads a ->
    ~ L l.

Lemma keeps_gather_param clip st acc p :
  Qs p -> lists_apart acc ->
  keeps protected (gather_param clip st acc p) lists_apart.
Proof.
  intros Hp Hacc. unfold gather_param.
  destruct (p_grad p) as [g|] eqn:Hg; [|now apply keeps_ret].
  eapply keeps_bind; [exact (keeps_get_state p g Hp Hg)|].
  intros state (Hdata & Hgrad & _).
  eapply keeps_bind with (Q := fun _ => True).
  { case_decide; [|now apply keeps_ret].
    eapply keeps_bind; [apply keeps_new_zeros_like|]. intros l1 Hl1.
    eapply keeps_bind.
    { apply (keeps_modify_state p g _ Hp Hg). intros s l Hl.
      apply set_exp_avg_locs in Hl as [Hl| ->]; auto. }
    intros _ _.
    eapply keeps_bind; [apply keeps_new_zeros_like|]. intros l2 Hl2.
    eapply keeps_bind.
    { apply (keeps_modify_state p g _ Hp Hg). intros s l Hl.
      apply set_exp_avg_sq_locs in Hl as [Hl| ->]; auto. }
    intros _ _.
    eapply keeps_bind; [apply keeps_new_zeros_like|]. intros l3 Hl3.
    apply (keeps_modify_state p g _ Hp Hg). intros s l Hl.
    apply set_exp_avg_diff_locs in Hl as [Hl| ->]; auto. }
  intros _ _.
  eapply keeps_bind; [exact (keeps_get_state p g Hp Hg)|]. intros state2 _.
  eapply keeps_bind with (Q := fun _ => True).
  { destruct (bool_decide (neg_pre_grad state2 = None) || bool_decide (st = 1));
      [|now apply keeps_ret].
    eapply keeps_bind; [apply keeps_alloc_after_read|]. intros l4 Hl4.
    apply (keeps_modify_state p g _ Hp Hg). intros s l Hl.
    apply set_neg_pre_grad_locs in Hl as [Hl| ->]; auto. }
  intros _ _.
  eapply keeps_bind; [exact (keeps_get_state p g Hp Hg)|].
  intros state3 (_ & _ & Hst).
  eapply keeps_bind; [apply keeps_key|]. intros ea Hea.
  eapply keeps_bind; [apply keeps_key|]. intros eas Heas.
  eapply keeps_bind; [apply keeps_key|]. intros ead Head.
  eapply keeps_bind; [apply keeps_key|]. intros npg Hnpg.
  apply keeps_ret. intros l Hl. cbn [params_with_grad gr_grads gr_exp_avgs
    gr_exp_avg_sqs gr_exp_avg_diffs gr_neg_pre_grads] in Hl.
  assert (Hold : forall l', l' ∈ params_with_grad acc \/ l' ∈ gr_grads acc
             \/ l' ∈ gr_exp_avgs acc \/ l' ∈ gr_exp_avg_sqs acc
             \/ l' ∈ gr_exp_avg_diffs acc \/ l' ∈ gr_neg_pre_grads acc ->
             ~ L l').
  { intros l' Hl'. apply Hacc. rewrite !elem_of_app. tauto. }
  assert (Hnew : forall l', exp_avg state3 = Some l' \/ exp_avg_sq state3 = Some l'
             \/ exp_avg_diff state3 = Some l' \/ neg_pre_grad state3 = Some l' ->
             ~ L l').
  { intros l' Hl'. apply Hst. now apply elem_of_state_locs. }
  rewrite !elem_of_app, !list_elem_of_singleton in Hl.
  destruct Hl as [[?| ->]|[[?| ->]|[[?| ->]|[[?| ->]|[[?| ->]|[?| ->]]]]]];
    auto 10.
Qed.

Lemma keeps_gather clip st acc ps :
  (forall p, p ∈ ps -> Qs p) -> lists_apart acc ->
  keeps protected (gather clip st acc ps) lists_apart.
Proof.
  revert acc. induction ps as [|p ps IH]; intros acc Hps Hacc; simpl.
  - now apply keeps_ret.
  - eapply keeps_bind.
    + apply keeps_gather_param; [apply Hps; left|exact Hacc].
    + intros acc' Hacc'. apply IH; [|exact Hacc'].
      intros q Hq. apply Hps. now right.
Qed.

Lemma keeps_step_group clip gi :
  keeps protected (step_group clip gi) (fun _ => True).
Proof.
  unfold step_group.
  eapply keeps_bind; [apply keeps_get_group|]. intros group Hgroup.
  destruct (g_betas group) as [[b1 b2] b3].
  eapply keeps_bind; [apply keeps_modify_group_step|]. intros _ _.
  eapply keeps_bind; [apply keeps_py_pow|]. intros p1 _.
  eapply keeps_bind; [apply keeps_py_pow|]. intros p2 _.
  eapply keeps_bind; [apply keeps_py_pow|]. intros p3 _.
  eapply keeps_bind.
  { apply keeps_gather; [exact Hgroup|]. intros l Hl. simpl in Hl.
    inversion Hl. }
  intros l Hl. case_decide; [now apply keeps_ret|].
  eapply keeps_bind; [apply keeps_math_sqrt|]. intros bc3_sqrt _.
  eapply keeps_bind; [apply keeps_key|]. intros np _.
  destruct (g_foreach group).
  - eapply keeps_on_heap; [intros h0; apply multi_tensor_writes_lists|].
    intros l'. unfold in_lists. simpl. apply Hl.
  - eapply keeps_on_heap; [intros h0; apply single_tensor_writes_lists|].
    intros l'. unfold in_lists. simpl. apply Hl.
Qed.

Lemma keeps_for_each_group (I : World F -> Prop) body :
  (forall gi, keeps I (body gi) (fun _ => True)) ->
  keeps I (for_each_group body) (fun _ => True).
Proof.
  intros Hbody w Hw. unfold for_each_group.
  apply (keeps_for_each I body (seq 0 (length (w_groups w)))); [|exact Hw].
  intros gi _. apply Hbody.
Qed.

(** Whatever is under watch is the same after the clipping pass and the loop
    over the groups, whether [step] returns or raises. *)
Lemma step_keeps_protected :
  keeps protected (step None) (fun _ => True).
Proof.
  unfold step. eapply keeps_bind with (Q := fun _ => True).
  { unfold call_closure. now apply keeps_ret. }
  intros loss _.
  eapply keeps_bind; [apply readonly_keeps, readonly_clip_pass|].
  intros c _.
  eapply keeps_bind; [apply keeps_for_each_group, keeps_step_group|].
  intros _ _. now apply keeps_ret.
Qed.

End Frame.

Lemma step_closure_world (closure : option (M (World F) F)) w loss w1 :
  call_closure closure w = (Ok loss, w1) ->
  (step closure w).2 = (step None w1).2.
Proof.
  intros Hc. unfold step. rewrite (bind_ok _ _ _ _ _ Hc).
  change (call_closure None) with (ret (S:=World F) (@None F)).
  rewrite bind_ret. unfold bind.
  destruct (clip_pass w1) as [[c|e] w2]; [|reflexivity].
  now destruct (for_each_group (step_group c) w2) as [[[]|e] w3].
Qed.

(** The parameter itself and the tensors of its state *)
Definition tensors_of (w : World F) (p : Param) : list loc :=
  p_data p :: state_locs (w_state w !! p_data p).

(** What [step] works on for a parameter [q] that has a gradient: [q], its
    gradient and the tensors of its state *)
Definition handled_for (w : World F) (q : Param) : list loc :=
  p_data q :: option_list (p_grad q) ++ state_locs (w_state w !! p_data q).

(** C7: let [p] be a parameter of some group without a gradient when the
    loop of [step] starts (after the closure, if any).  Provided its tensors
    exist and no parameter that has a gradient shares a tensor with it,
    [step] leaves the value of [p], the state entry of [p] (none is created
    when there was none) and every tensor of that state unchanged, whether
    [step] returns or raises. *)
Theorem step_skips_parameter_without_gradient :
  forall (closure : option (M (World F) F)) (w w1 : World F) (loss : option F)
         (g : Group F) (p : Param),
    call_closure closure w = (Ok loss, w1) ->
    g ∈ w_groups w1 -> p ∈ g_params g ->
    p_grad p = None ->
    (forall l, l ∈ tensors_of w1 p -> is_Some (w_heap w1 !! l)) ->
    (forall g' q, g' ∈ w_groups w1 -> q ∈ g_params g' -> is_Some (p_grad q) ->
       forall l, l ∈ handled_for w1 q -> l ∉ tensors_of w1 p) ->
    let w' := (step closure w).2 in
    w_heap w' !! p_data p = w_heap w1 !! p_data p
    /\ w_state w' !! p_data p = w_state w1 !! p_data p
    /\ forall l, l ∈ state_locs (w_state w1 !! p_data p) ->
                 w_heap w' !! l = w_heap w1 !! l.
Proof.
  intros closure w w1 loss g p Hc Hg Hp Hgrad Halloc Hsep w'.
  subst w'. rewrite (step_closure_world _ _ _ _ Hc).
  pose (L := fun l => l ∈ tensors_of w1 p).
  pose (K := fun k => k = p_data p).
  pose (Qs := fun q => exists g', g' ∈ w_groups w1 /\ q ∈ g_params g').
  assert (Hinit : protected L K Qs w1 w1).
  { split; auto.
    intros q [g' [Hg' Hq]] gq Hgq.
    assert (Hh : forall l, l ∈ handled_for w1 q -> ~ L l).
    { intros l Hl. apply (Hsep g' q Hg' Hq); [rewrite Hgq; eauto|exact Hl]. }
    unfold handled_for in Hh. rewrite Hgq in Hh. simpl in Hh.
    assert (Hdata : ~ L (p_data q)) by (apply Hh; left).
    repeat split.
    - exact Hdata.
    - unfold K. intros Heq. apply Hdata. unfold L, tensors_of.
      rewrite <- Heq. left.
    - apply Hh. right. left.
    - intros l Hl. apply Hh. right. right. exact Hl.
    - intros g' q Hg' Hq. exists g'. auto. }
  pose proof (step_keeps_protected L K Qs w1 Halloc w1 Hinit) as Hkeep.
  assert (Hfin : protected L K Qs w1 (step None w1).2).
  { destruct (step None w1) as [[a|e] w2]; simpl in *; tauto. }
  destruct Hfin as [H1 H2 _ _]. repeat split.
  - apply H1. unfold L, tensors_of. left.
  - now apply H2.
  - intros l Hl. apply H1. unfold L, tensors_of. now right.
Qed.

(** ** Groups without gradients *)

Lemma gather_without_gradients clip st acc ps (w : World F) :
  (forall p, p ∈ ps -> p_grad p = None) ->
  gather clip st acc ps w = (Ok acc, w).
Proof.
  induction ps as [|p ps IH]; intros Hps; simpl; [reflexivity|].
  unfold bind, gather_param. rewrite (Hps p) by left. simpl.
  apply IH. intros q Hq. apply Hps. now right.
Qed.

(** The value of the step counter after one more call *)
Definition next_step (g : Group F) : nat :=
  match g_step g with
  | Some n => S n
  | None => 1
  end.

(** Some power [beta ** step] of the round of the group overflows. *)
Definition powers_overflow (g : Group F) : bool :=
  pow_overflows (g_betas g).1.1 (next_step g)
  || pow_overflows (g_betas g).1.2 (next_step g)
  || pow_overflows (g_betas g).2 (next_step g).

Lemma run_py_pow {St} (x : F) n (s : St) :
  pow_overflows x n = false -> py_pow x n s = (Ok (fpow x n), s).
Proof. intros E. unfold py_pow. now rewrite E. Qed.

Lemma run_py_pow_overflow {St} (x : F) n (s : St) :
  pow_overflows x n = true -> py_pow (St:=St) x n s = (Raise OverflowError, s).
Proof. intros E. unfold py_pow. now rewrite E. Qed.

(** The round of a group in which no parameter has a gradient: the step
    counter is incremented (set to 1 when absent), then the three powers are
    computed, and nothing else happens. *)
Lemma step_group_skips (clip : F) (gi : nat) (w : World F) (group : Group F) :
  w_groups w !! gi = Some group ->
  (forall p, p ∈ g_params group -> p_grad p = None) ->
  step_group clip gi w
  = ((if powers_overflow group then Raise OverflowError else Ok tt),
     set_groups (alter (set_g_step (next_step group)) gi (w_groups w)) w).
Proof.
  intros Hgroup Hnone. unfold step_group, powers_overflow.
  assert (Hget : get_group gi w = (Ok group, w)).
  { unfold get_group. now apply index_ok. }
  rewrite (bind_ok _ _ _ _ _ Hget).
  destruct (g_betas group) as [[b1 b2] b3]. cbn [fst snd].
  fold (next_step group).
  eapply bind_step; [reflexivity|]. cbv beta.
  destruct (pow_overflows b1 (next_step group)) eqn:E1.
  { apply bind_raise. now apply run_py_pow_overflow. }
  eapply bind_step; [now apply run_py_pow|]. cbv beta.
  destruct (pow_overflows b2 (next_step group)) eqn:E2.
  { apply bind_raise. now apply run_py_pow_overflow. }
  eapply bind_step; [now apply run_py_pow|]. cbv beta.
  destruct (pow_overflows b3 (next_step group)) eqn:E3.
  { apply bind_raise. now apply run_py_pow_overflow. }
  eapply bind_step; [now apply run_py_pow|]. cbv beta.
  rewrite (bind_ok _ _ _ _ _
             (gather_without_gradients clip (next_step group) no_lists
                (g_params group) _ Hnone)).
  reflexivity.
Qed.

(** *** What the rounds change of the groups *)

(** A computation that leaves [defaults] and [param_groups] as they are,
    whether it returns or raises *)
Definition keeps_hyper {A} (m : M (World F) A) : Prop :=
  forall w, w_defaults (m w).2 = w_defaults w
            /\ w_groups (m w).2 = w_groups w.

Lemma keeps_hyper_ret {A} (a : A) : keeps_hyper (ret a).
Proof. intros w. split; reflexivity. Qed.

Lemma keeps_hyper_raise {A} e : keeps_hyper (raise (A:=A) e).
Proof. intros w. split; reflexivity. Qed.

Lemma keeps_hyper_bind {A B} (m : M (World F) A) (k : A -> M (World F) B) :
  keeps_hyper m -> (forall a, keeps_hyper (k a)) -> keeps_hyper (bind m k).
Proof.
  intros Hm Hk w. unfold bind. specialize (Hm w).
  destruct (m w) as [[a|e] w1]; simpl in *; [|exact Hm].
  destruct (Hk a w1) as [H1 H2]. destruct Hm as [H3 H4].
  split; congruence.
Qed.

Lemma keeps_hyper_key {A} name (v : option A) : keeps_hyper (key name v).
Proof. destruct v; [apply keeps_hyper_ret|apply keeps_hyper_raise]. Qed.

Lemma keeps_hyper_py_pow (x : F) n : keeps_hyper (py_pow x n).
Proof.
  unfold py_pow. destruct (pow_overflows x n);
    [apply keeps_hyper_raise|apply keeps_hyper_ret].
Qed.

Lemma keeps_hyper_on_heap {A} (m : M (gmap loc (list F)) A) :
  keeps_hyper (on_heap m).
Proof. intros w. unfold on_heap. destruct (m (w_heap w)). split; reflexivity. Qed.

Lemma keeps_hyper_get_state p : keeps_hyper (get_state p).
Proof. intros w. split; reflexivity. Qed.

Lemma keeps_hyper_modify_state p f : keeps_hyper (modify_state p f).
Proof. intros w. split; reflexivity. Qed.

Lemma keeps_hyper_gather_param c st acc p :
  keeps_hyper (gather_param c st acc p).
Proof.
  unfold gather_param. destruct (p_grad p) as [g|]; [|apply keeps_hyper_ret].
  apply keeps_hyper_bind; [apply keeps_hyper_get_state|]. intros state.
  apply keeps_hyper_bind.
  { case_decide; [|apply keeps_hyper_ret].
    unfold new_zeros_like.
    apply keeps_hyper_bind; [apply keeps_hyper_on_heap|]. intros l1.
    apply keeps_hyper_bind; [apply keeps_hyper_modify_state|]. intros ?.
    apply keeps_hyper_bind; [apply keeps_hyper_on_heap|]. intros l2.
    apply keeps_hyper_bind; [apply keeps_hyper_modify_state|]. intros ?.
    apply keeps_hyper_bind; [apply keeps_hyper_on_heap|]. intros l3.
    apply keeps_hyper_modify_state. }
  intros ?. apply keeps_hyper_bind; [apply keeps_hyper_get_state|].
  intros state2. apply keeps_hyper_bind.
  { destruct (_ || _); [|apply keeps_hyper_ret].
    apply keeps_hyper_bind; [apply keeps_hyper_on_heap|]. intros l.
    apply keeps_hyper_modify_state. }
  intros ?. apply keeps_hyper_bind; [apply keeps_hyper_get_state|].
  intros state3.
  apply keeps_hyper_bind; [apply keeps_hyper_key|]. intros ea.
  apply keeps_hyper_bind; [apply keeps_hyper_key|]. intros eas.
  apply keeps_hyper_bind; [apply keeps_hyper_key|]. intros ead.
  apply keeps_hyper_bind; [apply keeps_hyper_key|]. intros npg.
  apply keeps_hyper_ret.
Qed.

Lemma keeps_hyper_gather c st ps :
  forall acc, keeps_hyper (gather c st acc ps).
Proof.
  induction ps as [|p ps IH]; intros acc; cbn [gather].
  - apply keeps_hyper_ret.
  - apply keeps_hyper_bind; [apply keeps_hyper_gather_param|exact IH].
Qed.

(** The groups [gs], those before the position [j] having had their step
    counter incremented (set to 1 when the group had none) *)
Definition counted (j : nat) (gs : list (Group F)) : list (Group F) :=
  imap (fun i g => if decide (i < j) then set_g_step (next_step g) g else g)
    gs.

Lemma counted_lookup j gs i :
  counted j gs !! i
  = (fun g => if decide (i < j) then set_g_step (next_step g) g else g)
      <$> gs !! i.
Proof. unfold counted. now rewrite list_lookup_imap. Qed.

Lemma counted_0 gs : counted 0 gs = gs.
Proof.
  apply list_eq. intros i. rewrite counted_lookup.
  destruct (gs !! i); [|reflexivity].
  cbn [fmap option_fmap option_map].
  rewrite decide_False by lia. reflexivity.
Qed.

Lemma counted_S j gs g :
  gs !! j = Some g ->
  alter (set_g_step (next_step g)) j (counted j gs) = counted (S j) gs.
Proof.
  intros Hg. apply list_eq. intros i.
  destruct (decide (i = j)) as [->|Hne].
  - rewrite list_lookup_alter_eq, !counted_lookup, Hg.
    cbn [fmap option_fmap option_map].
    rewrite decide_False by lia. rewrite decide_True by lia. reflexivity.
  - rewrite list_lookup_alter_ne by auto. rewrite !counted_lookup.
    destruct (gs !! i); [|reflexivity].
    cbn [fmap option_fmap option_map].
    destruct (decide (i < j)), (decide (i < S j)); try reflexivity; lia.
Qed.

Section Counting.

Variable w1 : World F.

Definition counted_to (j : nat) (w : World F) : Prop :=
  w_defaults w = w_defaults w1 /\ w_groups w = counted j (w_groups w1).

(** The round of the group at position [j]: it increments the counter of
    that group and touches nothing else of the groups, also when it
    raises. *)
Lemma step_group_counts c j :
  j < length (w_groups w1) ->
  hoare (counted_to j) (step_group c j) (fun _ => counted_to (S j))
    (counted_to (S j)).
Proof.
  intros Hlt w [Hd Hgs].
  destruct (lookup_lt_is_Some_2 _ _ Hlt) as [g Hg].
  assert (Hgw : w_groups w !! j = Some g).
  { rewrite Hgs, counted_lookup, Hg.
    cbn [fmap option_fmap option_map].
    rewrite decide_False by lia. reflexivity. }
  unfold step_group.
  erewrite bind_ok; [|unfold get_group; apply index_ok; exact Hgw].
  destruct (g_betas g) as [[b1 b2] b3]. fold (next_step g).
  erewrite bind_ok; [|reflexivity].
  set (wm := set_groups _ w).
  assert (Hwm : counted_to (S j) wm).
  { split; [exact Hd|]. unfold wm. cbn [w_groups set_groups].
    rewrite Hgs. now apply counted_S. }
  assert (Hrest : forall A (m : M (World F) A),
            keeps_hyper m ->
            match m wm with
            | (Ok _, w') => counted_to (S j) w'
            | (Raise _, w') => counted_to (S j) w'
            end).
  { intros A m Hm. specialize (Hm wm). destruct Hwm as [H1 H2].
    destruct (m wm) as [[a|e] w']; cbn [snd] in Hm; destruct Hm as [H3 H4];
      (split; [now rewrite H3|now rewrite H4]). }
  match goal with
  | |- match ?m wm with _ => _ end => apply (Hrest _ m)
  end.
  apply keeps_hyper_bind; [apply keeps_hyper_py_pow|]. intros p1.
  apply keeps_hyper_bind; [apply keeps_hyper_py_pow|]. intros p2.
  apply keeps_hyper_bind; [apply keeps_hyper_py_pow|]. intros p3.
  apply keeps_hyper_bind; [apply keeps_hyper_gather|]. intros l.
  case_decide; [apply keeps_hyper_ret|].
  apply keeps_hyper_bind.
  { unfold math_sqrt. destruct (fltb _ _);
      [apply keeps_hyper_raise|apply keeps_hyper_ret]. }
  intros bc3. apply keeps_hyper_bind; [apply keeps_hyper_key|]. intros np.
  destruct (g_foreach g); apply keeps_hyper_on_heap.
Qed.

(** The rounds of the first [n] groups *)
Lemma rounds_count c n :
  n <= length (w_groups w1) ->
  hoare (fun w => w = w1) (for_each (step_group c) (seq 0 n))
    (fun _ => counted_to n)
    (fun w => exists j, j <= n /\ counted_to j w).
Proof.
  intros Hn w ->.
  pose proof (hoare_for_each_prefix
                (fun l1 => counted_to (length l1)) (step_group c)
                (seq 0 n)
                (fun w => exists j, j <= n /\ counted_to j w)) as Hloop.
  unfold hoare in Hloop. cbv beta in Hloop. rewrite length_seq in Hloop.
  apply Hloop.
  - intros l1 x l2 Heq.
    assert (Hx : x = length l1 /\ length l1 < n).
    { assert (Hlook : seq 0 n !! length l1 = Some x).
      { rewrite Heq. now apply list_lookup_middle. }
      apply lookup_seq in Hlook. lia. }
    destruct Hx as [-> Hlt]. rewrite length_app. cbn [length].
    replace (length l1 + 1) with (S (length l1)) by lia.
    eapply hoare_conseq; [apply (step_group_counts c)|auto|auto|]; [lia|].
    intros w' Hw'. exists (S (length l1)). split; [lia|exact Hw'].
  - split; [reflexivity|]. cbn [length]. now rewrite counted_0.
Qed.

End Counting.

(** Once the closure has returned, [step] changes neither [defaults] nor
    any field of a group other than the step counter; the counters it
    increments are those of the groups before some position, and those of
    all the groups when it returns, which it does with the loss of the
    closure. *)
Lemma step_counts (closure : option (M (World F) F)) (w w1 : World F) loss :
  call_closure closure w = (Ok loss, w1) ->
  exists j,
    j <= length (w_groups w1)
    /\ w_defaults (step closure w).2 = w_defaults w1
    /\ w_groups (step closure w).2 = counted j (w_groups w1)
    /\ forall r, (step closure w).1 = Ok r ->
                 r = loss /\ j = length (w_groups w1).
Proof.
  intros Hc. unfold step.
  rewrite (bind_ok _ _ _ _ _ Hc).
  pose proof (readonly_clip_pass w1) as Hclip. unfold bind.
  destruct (clip_pass w1) as [[c|e] w2]; simpl in Hclip; subst w2.
  - pose proof (rounds_count w1 c (length (w_groups w1)) (le_n _) w1 eq_refl)
      as Hloop.
    unfold for_each_group.
    destruct (for_each (step_group c) (seq 0 (length (w_groups w1))) w1)
      as [[[]|e] w3].
    + exists (length (w_groups w1)). destruct Hloop as [Hd Hgs].
      split; [lia|]. split; [exact Hd|]. split; [exact Hgs|].
      intros r Hr. simpl in Hr. injection Hr as <-. auto.
    + destruct Hloop as (j & Hj & Hd & Hgs). exists j.
      split; [exact Hj|]. split; [exact Hd|]. split; [exact Hgs|].
      intros r Hr. discriminate.
  - exists 0. split; [lia|]. split; [reflexivity|].
    split; [simpl; now rewrite counted_0|]. intros r Hr. discriminate.
Qed.

(** What [step] leaves alone for the parameters of a group, none of which
    has a gradient: their values, their state entries and the tensors of
    their states, provided no parameter that has a gradient shares a tensor
    with them. *)
Lemma step_keeps_idle_group (closure : option (M (World F) F)) (w w1 : World F)
    loss (g : Group F) :
  call_closure closure w = (Ok loss, w1) ->
  (forall p l, p ∈ g_params g -> l ∈ tensors_of w1 p ->
     is_Some (w_heap w1 !! l)) ->
  (forall g' q, g' ∈ w_groups w1 -> q ∈ g_params g' -> is_Some (p_grad q) ->
     forall p l, p ∈ g_params g -> l ∈ handled_for w1 q ->
       l ∉ tensors_of w1 p) ->
  forall p, p ∈ g_params g ->
    w_heap (step closure w).2 !! p_data p = w_heap w1 !! p_data p
    /\ w_state (step closure w).2 !! p_data p = w_state w1 !! p_data p
    /\ forall l, l ∈ state_locs (w_state w1 !! p_data p) ->
         w_heap (step closure w).2 !! l = w_heap w1 !! l.
Proof.
  intros Hc Halloc Hsep p Hp.
  rewrite (step_closure_world _ _ _ _ Hc).
  pose (L := fun l => l ∈ tensors_of w1 p).
  pose (K := fun k => k = p_data p).
  pose (Qs := fun q => exists g', g' ∈ w_groups w1 /\ q ∈ g_params g').
  assert (Hinit : protected L K Qs w1 w1).
  { split; auto.
    intros q [g' [Hg' Hq]] gq Hgq.
    assert (Hh : forall l, l ∈ handled_for w1 q -> ~ L l).
    { intros l Hl. apply (Hsep g' q Hg' Hq); [rewrite Hgq; eauto|exact Hp|exact Hl]. }
    unfold handled_for in Hh. rewrite Hgq in Hh. simpl in Hh.
    assert (Hdata : ~ L (p_data q)) by (apply Hh; left).
    repeat split.
    - exact Hdata.
    - unfold K. intros Heq. apply Hdata. unfold L, tensors_of.
      rewrite <- Heq. left.
    - apply Hh. right. left.
    - intros l Hl. apply Hh. right. right. exact Hl.
    - intros g' q Hg' Hq. exists g'. auto. }
  pose proof (step_keeps_protected L K Qs w1 (fun l Hl => Halloc p l Hp Hl) w1 Hinit) as Hkeep.
  assert (Hfin : protected L K Qs w1 (step None w1).2).
  { destruct (step None w1) as [[a|e] w2]; simpl in *; tauto. }
  destruct Hfin as [H1 H2 _ _]. repeat split.
  - apply H1. unfold L, tensors_of. left.
  - now apply H2.
  - intros l Hl. apply H1. unfold L, tensors_of. now right.
Qed.

(** *** A step in which no parameter has a gradient *)

Lemma counted_all (gs : list (Group F)) :
  counted (length gs) gs = (fun g => set_g_step (next_step g) g) <$> gs.
Proof.
  apply list_eq. intros i. rewrite counted_lookup, list_lookup_fmap.
  destruct (gs !! i) as [g|] eqn:Hg; [|reflexivity].
  cbn [fmap option_fmap option_map].
  rewrite decide_True by exact (lookup_lt_Some _ _ _ Hg). reflexivity.
Qed.

Lemma add_grad_norms_idle ps (acc : F) (w : World F) :
  (forall p, p ∈ ps -> p_grad p = None) ->
  add_grad_norms ps acc w = (Ok acc, w).
Proof.
  induction ps as [|p ps IH]; intros Hps; cbn [add_grad_norms];
    [reflexivity|].
  rewrite (Hps p) by left. apply IH. intros q Hq. apply Hps. now right.
Qed.

Lemma add_group_norms_idle gs (acc : F) (w : World F) :
  (forall g p, g ∈ gs -> p ∈ g_params g -> p_grad p = None) ->
  add_group_norms gs acc w = (Ok acc, w).
Proof.
  induction gs as [|g gs IH]; intros Hgs; cbn [add_group_norms];
    [reflexivity|].
  assert (Hg : g ∈ g :: gs) by left.
  rewrite (bind_ok _ _ _ _ _ (add_grad_norms_idle (g_params g) acc w
                                (fun p Hp => Hgs g p Hg Hp))).
  apply IH. intros g' p Hg'. apply Hgs. now right.
Qed.

(** The clipping pass when no parameter has a gradient *)
Lemma clip_pass_idle (w : World F) :
  (forall g p, g ∈ w_groups w -> p ∈ g_params g -> p_grad p = None) ->
  (fltb fzero (d_max_grad_norm (w_defaults w)) = true ->
   exists g0 p0, w_groups w !! 0 = Some g0 /\ g_params g0 !! 0 = Some p0) ->
  exists c, clip_pass w = (Ok c, w).
Proof.
  intros Hidle Hfirst. unfold clip_pass.
  destruct (fltb fzero (d_max_grad_norm (w_defaults w))); [|now eexists].
  destruct (Hfirst eq_refl) as (g0 & p0 & Hg0 & Hp0).
  rewrite (bind_ok _ _ _ _ _ (index_ok _ _ _ _ Hg0)).
  rewrite (bind_ok _ _ _ _ _ (index_ok _ _ _ _ Hp0)).
  rewrite (bind_ok _ _ _ _ _ (add_group_norms_idle _ _ _ Hidle)).
  destruct (last (w_groups w)) as [glast|] eqn:Hlast; [now eexists|].
  apply last_None in Hlast. rewrite Hlast in Hg0. discriminate.
Qed.

(** The rounds of the first [n] groups, none of which has a parameter with
    a gradient or a power that overflows *)
Lemma idle_rounds c (w1 : World F) n :
  n <= length (w_groups w1) ->
  (forall g, g ∈ w_groups w1 ->
     (forall p, p ∈ g_params g -> p_grad p = None)
     /\ powers_overflow g = false) ->
  for_each (step_group c) (seq 0 n) w1
  = (Ok tt, set_groups (counted n (w_groups w1)) w1).
Proof.
  intros Hn Hidle. induction n as [|n IH].
  - cbn [seq for_each]. rewrite counted_0. now destruct w1.
  - rewrite seq_S. cbn [plus].
    rewrite (for_each_app _ _ _ _ _ (IH ltac:(lia))).
    destruct (lookup_lt_is_Some_2 (w_groups w1) n ltac:(lia)) as [g Hg].
    destruct (Hidle g (list_elem_of_lookup_2 _ _ _ Hg)) as [Hnone Hpow].
    cbn [for_each]. unfold bind.
    erewrite step_group_skips; [| |exact Hnone].
    2:{ cbn [w_groups set_groups]. rewrite counted_lookup, Hg.
        cbn [fmap option_fmap option_map].
        now rewrite decide_False by lia. }
    rewrite Hpow. cbn [w_groups set_groups].
    rewrite (counted_S _ _ _ Hg). reflexivity.
Qed.

(** When no parameter of any group has a gradient and no power overflows,
    [step] returns the loss of the closure, having incremented the step
    counter of every group and changed nothing else. *)
Lemma step_idle (closure : option (M (World F) F)) (w w1 : World F) loss :
  call_closure closure w = (Ok loss, w1) ->
  (forall g p, g ∈ w_groups w1 -> p ∈ g_params g -> p_grad p = None) ->
  (forall g, g ∈ w_groups w1 -> powers_overflow g = false) ->
  (fltb fzero (d_max_grad_norm (w_defaults w1)) = true ->
   exists g0 p0, w_groups w1 !! 0 = Some g0 /\ g_params g0 !! 0 = Some p0) ->
  step closure w
  = (Ok loss,
     set_groups ((fun g => set_g_step (next_step g) g) <$> w_groups w1) w1).
Proof.
  intros Hc Hidle Hpow Hfirst.
  destruct (clip_pass_idle w1 Hidle Hfirst) as [c Hclip].
  unfold step. rewrite (bind_ok _ _ _ _ _ Hc).
  rewrite (bind_ok _ _ _ _ _ Hclip).
  assert (Hloop : for_each_group (step_group c) w1
                  = (Ok tt,
                     set_groups (counted (length (w_groups w1)) (w_groups w1))
                       w1)).
  { unfold for_each_group. apply idle_rounds; [lia|].
    intros g Hg. split; [intros p; now apply Hidle|now apply Hpow]. }
  rewrite (bind_ok _ _ _ _ _ Hloop). now rewrite counted_all.
Qed.

(** C5, as amended: take a group none of whose parameters has a gradient when
    the loop of [step] starts (after the closure, if any), the tensors of its
    parameters existing and being shared with no parameter that has a
    gradient.  Whether [step] returns or raises, it leaves the value and the
    state of every parameter of the group unchanged, and of the fields of the
    group it changes at most the step counter, which it increments (sets to 1
    when absent); it has done so when it returns.  When the clipping pass and
    the rounds of the groups before have returned, the round of the group
    increments the counter and then either raises OverflowError, when one of
    the powers [beta ** step] overflows, or hands over to the round of the
    next group with nothing else changed: the round raises no other
    error.  And when no parameter of any group has a gradient, no power
    overflows and, if [max_grad_norm > 0], the first group has a first
    parameter, [step] returns the loss of the closure, having incremented
    the step counter of every group and changed nothing else. *)
Theorem step_without_gradients_in_group :
  forall (closure : option (M (World F) F)) (w w1 : World F) (loss : option F)
         (gi : nat) (g : Group F),
    call_closure closure w = (Ok loss, w1) ->
    w_groups w1 !! gi = Some g ->
    (forall p, p ∈ g_params g -> p_grad p = None) ->
    (forall p l, p ∈ g_params g -> l ∈ tensors_of w1 p ->
       is_Some (w_heap w1 !! l)) ->
    (forall g' q, g' ∈ w_groups w1 -> q ∈ g_params g' -> is_Some (p_grad q) ->
       forall p l, p ∈ g_params g -> l ∈ handled_for w1 q ->
         l ∉ tensors_of w1 p) ->
    let w' := (step closure w).2 in
    (forall p, p ∈ g_params g ->
       w_heap w' !! p_data p = w_heap w1 !! p_data p
       /\ w_state w' !! p_data p = w_state w1 !! p_data p
       /\ forall l, l ∈ state_locs (w_state w1 !! p_data p) ->
            w_heap w' !! l = w_heap w1 !! l)
    /\ (w_groups w' !! gi = Some g
        \/ w_groups w' !! gi = Some (set_g_step (next_step g) g))
    /\ (forall r, (step closure w).1 = Ok r ->
          r = loss /\ w_groups w' !! gi = Some (set_g_step (next_step g) g))
    /\ (forall c w2,
         (clip_pass w1).1 = Ok c ->
         for_each (step_group c) (seq 0 gi) w1 = (Ok tt, w2) ->
         let w3 :=
           set_groups (alter (set_g_step (next_step g)) gi (w_groups w2)) w2 in
         step closure w
         = if powers_overflow g then (Raise OverflowError, w3)
           else (for_each (step_group c)
                   (seq (S gi) (length (w_groups w1) - S gi)) >>
                 ret loss) w3)
    /\ ((forall g' p, g' ∈ w_groups w1 -> p ∈ g_params g' ->
          p_grad p = None) ->
        (forall g', g' ∈ w_groups w1 -> powers_overflow g' = false) ->
        (fltb fzero (d_max_grad_norm (w_defaults w1)) = true ->
         exists g0 p0,
           w_groups w1 !! 0 = Some g0 /\ g_params g0 !! 0 = Some p0) ->
        step closure w
        = (Ok loss,
           set_groups
             ((fun g' => set_g_step (next_step g') g') <$> w_groups w1) w1)).
Proof.
  intros closure w w1 loss gi g Hc Hg Hnone Halloc Hsep w'.
  pose proof (lookup_lt_Some _ _ _ Hg) as Hlt.
  split; [exact (step_keeps_idle_group closure w w1 loss g Hc Halloc Hsep)|].
  destruct (step_counts closure w w1 loss Hc) as (j & Hj & _ & Hgs & Hret).
  assert (Hlook : w_groups w' !! gi
                  = Some (if decide (gi < j) then set_g_step (next_step g) g
                          else g)).
  { unfold w'. rewrite Hgs, counted_lookup, Hg. reflexivity. }
  split; [|split; [|split]].
  - rewrite Hlook. destruct (decide (gi < j)); auto.
  - intros r Hr. destruct (Hret r Hr) as [-> ->]. split; [reflexivity|].
    rewrite Hlook. now rewrite decide_True by exact Hlt.
  - intros c w2 Hclip Hbefore w3.
    assert (Hclip' : clip_pass w1 = (Ok c, w1)).
    { pose proof (readonly_clip_pass w1) as Hro.
      destruct (clip_pass w1) as [r wc]. simpl in *. now subst. }
    assert (Hw2 : w_groups w2 !! gi = Some g).
    { pose proof (rounds_count w1 c gi (Nat.lt_le_incl _ _ Hlt) w1 eq_refl)
        as Hloop.
      rewrite Hbefore in Hloop. destruct Hloop as [_ Hgs2].
      rewrite Hgs2, counted_lookup, Hg. cbn [fmap option_fmap option_map].
      now rewrite decide_False by lia. }
    assert (Hsplit :
              for_each_group (step_group c) w1
              = (step_group c gi >>
                 for_each (step_group c)
                   (seq (S gi) (length (w_groups w1) - S gi))) w2).
    { unfold for_each_group.
      replace (seq 0 (length (w_groups w1)))
        with (seq 0 gi ++ gi :: seq (S gi) (length (w_groups w1) - S gi)).
      - now rewrite (for_each_app _ _ _ _ _ Hbefore).
      - change (gi :: seq (S gi) (length (w_groups w1) - S gi))
          with (seq gi (S (length (w_groups w1) - S gi))).
        rewrite <- seq_app. f_equal. lia. }
    unfold step. rewrite (bind_ok _ _ _ _ _ Hc).
    rewrite (bind_ok _ _ _ _ _ Hclip').
    unfold bind in Hsplit |- *. rewrite Hsplit.
    rewrite (step_group_skips c gi w2 g Hw2 Hnone). fold w3.
    destruct (powers_overflow g); reflexivity.
  - intros Hidle Hpow Hfirst. now apply step_idle.
Qed.

(** ** [restart_opt] *)

(** The tensor at [o] is all zeros and has the shape of [t]. *)
Definition holds_zeros (h : gmap loc (list F)) (t : list F) (o : option loc)
  : Prop :=
  exists l, o = Some l /\ h !! l = Some (zeros_like t).

Lemma holds_zeros_weaken h h' t o :
  h ⊆ h' -> holds_zeros h t o -> holds_zeros h' t o.
Proof.
  intros Hsub [l [Ho Hl]]. exists l. split; [exact Ho|].
  exact (lookup_weaken _ _ _ _ Hl Hsub).
Qed.

Section Restart.

(** [w0] is the optimizer before the call. *)
Variable w0 : World F.

(** The store only grows and the groups are [gs]. *)
Definition grown (gs : list (Group F)) (w : World F) : Prop :=
  w_heap w0 ⊆ w_heap w /\ w_groups w = gs.

(** The moments of [p] selected by the flags are zero tensors of the shape
    of [p]. *)
Definition zeroed (b1 b2 b3 : bool) (p : Param) (w : World F) : Prop :=
  exists t,
    w_heap w0 !! p_data p = Some t
    /\ (b1 = true ->
        holds_zeros (w_heap w) t
          (exp_avg (default empty_state (w_state w !! p_data p))))
    /\ (b2 = true ->
        holds_zeros (w_heap w) t
          (exp_avg_sq (default empty_state (w_state w !! p_data p))))
    /\ (b3 = true ->
        holds_zeros (w_heap w) t
          (exp_avg_diff (default empty_state (w_state w !! p_data p)))).

(** [l] is a zero tensor of the shape of [q]. *)
Definition zeros_for (q : Param) (l : loc) (w : World F) : Prop :=
  exists tq,
    w_heap w0 !! p_data q = Some tq /\ w_heap w !! l = Some (zeros_like tq).

Lemma restart_alloc gs q tq :
  w_heap w0 !! p_data q = Some tq ->
  hoare (grown gs) (new_zeros_like q)
    (fun l w => grown gs w /\ zeros_for q l w) (fun _ => False).
Proof.
  intros Hq w [Hsub Hgs]. unfold new_zeros_like, on_heap, bind, read.
  rewrite (lookup_weaken _ _ _ _ Hq Hsub). cbv beta iota. unfold alloc.
  cbv beta iota zeta.
  assert (Hnone : w_heap w !! fresh (dom (w_heap w)) = None).
  { apply not_elem_of_dom, is_fresh. }
  split; [split|].
  - cbn [set_heap w_heap]. etrans; [exact Hsub|]. now apply insert_subseteq.
  - exact Hgs.
  - exists tq. split; [exact Hq|]. cbn [set_heap w_heap].
    apply lookup_insert_eq.
Qed.

Lemma restart_alloc_zeroed gs q b1 b2 b3 p :
  hoare (fun w => grown gs w /\ zeroed b1 b2 b3 p w) (new_zeros_like q)
    (fun _ w => zeroed b1 b2 b3 p w) (fun _ => True).
Proof.
  intros w [[Hsub Hgs] (t & Ht & Z1 & Z2 & Z3)].
  unfold new_zeros_like, on_heap, bind, read.
  destruct (w_heap w !! p_data q) as [tq|]; cbv beta iota; [|exact Logic.I].
  unfold alloc. cbv beta iota zeta.
  assert (Hnone : w_heap w !! fresh (dom (w_heap w)) = None).
  { apply not_elem_of_dom, is_fresh. }
  pose proof (insert_subseteq (w_heap w) _ (zeros_like tq) Hnone) as Hext.
  exists t. cbn [set_heap w_heap w_state].
  repeat split; try exact Ht; intros Hb;
    eapply holds_zeros_weaken; eauto.
Qed.

(** Storing a zero tensor of the right shape as a moment of [q] *)
Lemma restart_store gs q l (set : loc -> ParamState -> ParamState)
    (f1 f2 f3 : bool) b1 b2 b3 p :
  (forall s, exp_avg (set l s) = if f1 then Some l else exp_avg s) ->
  (forall s, exp_avg_sq (set l s) = if f2 then Some l else exp_avg_sq s) ->
  (forall s, exp_avg_diff (set l s) = if f3 then Some l else exp_avg_diff s) ->
  let same := bool_decide (p_data q = p_data p) in
  hoare (fun w => (grown gs w /\ zeros_for q l w) /\ zeroed b1 b2 b3 p w)
    (modify_state q (set l))
    (fun _ w => zeroed (b1 || (same && f1)) (b2 || (same && f2))
                  (b3 || (same && f3)) p w)
    (fun _ => True).
Proof.
  intros Hf1 Hf2 Hf3 same w [[[Hsub Hgs] (tq & Htq & Hl)] (t & Ht & Z1 & Z2 & Z3)].
  unfold modify_state. cbv beta iota. exists t. split; [exact Ht|].
  cbn [set_state w_heap w_state]. subst same.
  destruct (decide (p_data q = p_data p)) as [Heq|Hne].
  - rewrite (bool_decide_eq_true_2 _ Heq). rewrite Heq, lookup_insert_eq.
    rewrite Heq, Ht in Htq. inversion Htq; subst tq.
    change (default empty_state (Some ?x)) with x.
    rewrite Hf1, Hf2, Hf3.
    repeat split; intros Hb.
    + destruct f1; [exists l; auto|]. rewrite andb_false_r, orb_false_r in Hb.
      auto.
    + destruct f2; [exists l; auto|]. rewrite andb_false_r, orb_false_r in Hb.
      auto.
    + destruct f3; [exists l; auto|]. rewrite andb_false_r, orb_false_r in Hb.
      auto.
  - rewrite (bool_decide_eq_false_2 _ Hne). rewrite lookup_insert_ne by exact Hne.
    simpl in *. rewrite !orb_false_r. auto.
Qed.

Lemma restart_store_grown gs q f :
  hoare (grown gs) (modify_state q f) (fun _ => grown gs) (fun _ => False).
Proof. intros w Hw. exact Hw. Qed.

Lemma restart_alloc_both gs q tq b1 b2 b3 p :
  w_heap w0 !! p_data q = Some tq ->
  hoare (fun w => grown gs w /\ zeroed b1 b2 b3 p w) (new_zeros_like q)
    (fun l w => (grown gs w /\ zeros_for q l w) /\ zeroed b1 b2 b3 p w)
    (fun _ => False).
Proof.
  intros Hq.
  eapply hoare_conseq;
    [exact (hoare_conj _ _ _ _ _ _ _ (restart_alloc gs q tq Hq)
              (restart_alloc_zeroed gs q b1 b2 b3 p))
    |intros w [Hg Hz]; auto|auto|intros w [[] _]].
Qed.

Lemma restart_store_both gs q l (set : loc -> ParamState -> ParamState)
    (f1 f2 f3 : bool) b1 b2 b3 p :
  (forall s, exp_avg (set l s) = if f1 then Some l else exp_avg s) ->
  (forall s, exp_avg_sq (set l s) = if f2 then Some l else exp_avg_sq s) ->
  (forall s, exp_avg_diff (set l s) = if f3 then Some l else exp_avg_diff s) ->
  let same := bool_decide (p_data q = p_data p) in
  hoare (fun w => (grown gs w /\ zeros_for q l w) /\ zeroed b1 b2 b3 p w)
    (modify_state q (set l))
    (fun _ w => grown gs w
                /\ zeroed (b1 || (same && f1)) (b2 || (same && f2))
                     (b3 || (same && f3)) p w)
    (fun _ => False).
Proof.
  intros Hf1 Hf2 Hf3 same.
  eapply hoare_conseq;
    [apply hoare_conj;
       [apply (restart_store_grown gs q (set l))
       |apply (restart_store gs q l set f1 f2 f3 b1 b2 b3 p Hf1 Hf2 Hf3)]
    |intros w [[Hg Hl] Hz]; cbv beta; auto|auto|intros w [[] _]].
Qed.

(** One round of the loop over the parameters, seen from a parameter [p] *)
Lemma restart_param_spec gs q b1 b2 b3 p :
  (p_requires_grad q = true -> is_Some (w_heap w0 !! p_data q)) ->
  let e := bool_decide (p_data q = p_data p) && p_requires_grad q in
  hoare (fun w => grown gs w /\ zeroed b1 b2 b3 p w) (restart_param q)
    (fun _ w => grown gs w /\ zeroed (b1 || e) (b2 || e) (b3 || e) p w)
    (fun _ => False).
Proof.
  intros Hq e. unfold restart_param. subst e.
  destruct (p_requires_grad q).
  - destruct (Hq eq_refl) as [tq Htq].
    eapply hoare_bind; [exact (restart_alloc_both gs q tq _ _ _ p Htq)|].
    intros l1. eapply hoare_bind.
    { apply (restart_store_both gs q l1 set_exp_avg true false false);
        reflexivity. }
    intros ?.
    eapply hoare_bind; [exact (restart_alloc_both gs q tq _ _ _ p Htq)|].
    intros l2. eapply hoare_bind.
    { apply (restart_store_both gs q l2 set_exp_avg_sq false true false);
        reflexivity. }
    intros ?.
    eapply hoare_bind; [exact (restart_alloc_both gs q tq _ _ _ p Htq)|].
    intros l3. eapply hoare_conseq.
    { apply (restart_store_both gs q l3 set_exp_avg_diff false false true);
        reflexivity. }
    + intros w Hw. exact Hw.
    + intros ? w [Hg Hz]. split; [exact Hg|].
      rewrite !andb_false_r, !andb_true_r, !orb_false_r in Hz.
      rewrite !andb_true_r. exact Hz.
    + intros w Hw. exact Hw.
  - apply hoare_ret. intros w [Hg Hz].
    rewrite !andb_false_r, !orb_false_r. auto.
Qed.

Lemma restart_param_grown gs q :
  (p_requires_grad q = true -> is_Some (w_heap w0 !! p_data q)) ->
  hoare (grown gs) (restart_param q) (fun _ => grown gs) (fun _ => False).
Proof.
  intros Hq. unfold restart_param.
  destruct (p_requires_grad q); [|now apply hoare_ret].
  destruct (Hq eq_refl) as [tq Htq].
  assert (Halloc : hoare (grown gs) (new_zeros_like q) (fun _ => grown gs)
                     (fun _ => False)).
  { eapply hoare_conseq; [exact (restart_alloc gs q tq Htq)|auto| |auto].
    intros l w [Hg _]. exact Hg. }
  eapply hoare_bind; [exact Halloc|]. intros l1.
  eapply hoare_bind; [apply restart_store_grown|]. intros ?.
  eapply hoare_bind; [exact Halloc|]. intros l2.
  eapply hoare_bind; [apply restart_store_grown|]. intros ?.
  eapply hoare_bind; [exact Halloc|]. intros l3.
  apply restart_store_grown.
Qed.

(** The parameters in [D] that require a gradient have zero moments. *)
Definition all_zeroed (D : Param -> Prop) (w : World F) : Prop :=
  forall p, D p -> p_requires_grad p = true -> zeroed true true true p w.

Lemma restart_param_family gs q (D : Param -> Prop) :
  (p_requires_grad q = true -> is_Some (w_heap w0 !! p_data q)) ->
  hoare (fun w => grown gs w /\ all_zeroed D w) (restart_param q)
    (fun _ w => grown gs w /\ all_zeroed (fun p => D p \/ p = q) w)
    (fun _ => False).
Proof.
  intros Hq w [Hg Hall].
  pose proof (restart_param_grown gs q Hq w Hg) as Hbase.
  pose proof (fun p Hz =>
    restart_param_spec gs q true true true p Hq w (conj Hg Hz)) as Hold.
  pose proof (fun Hz =>
    restart_param_spec gs q false false false q Hq w (conj Hg Hz)) as Hnew.
  destruct (restart_param q w) as [[[]|e] w']; [|exact Hbase].
  split; [exact Hbase|]. intros p [HD| ->] Hrg.
  - exact (proj2 (Hold p (Hall p HD Hrg))).
  - destruct (Hq Hrg) as [tq Htq].
    assert (Hz : zeroed false false false q w).
    { exists tq. repeat split; auto; discriminate. }
    pose proof (proj2 (Hnew Hz)) as Hz'.
    rewrite (bool_decide_eq_true_2 _ eq_refl), Hrg in Hz'. exact Hz'.
Qed.

Lemma restart_params_family gs ps (D : Param -> Prop) :
  (forall q, q ∈ ps -> p_requires_grad q = true ->
             is_Some (w_heap w0 !! p_data q)) ->
  hoare (fun w => grown gs w /\ all_zeroed D w) (for_each restart_param ps)
    (fun _ w => grown gs w /\ all_zeroed (fun p => D p \/ p ∈ ps) w)
    (fun _ => False).
Proof.
  intros Hps.
  eapply hoare_conseq;
    [apply (hoare_for_each_prefix
              (fun done w => grown gs w
                             /\ all_zeroed (fun p => D p \/ p ∈ done) w)
              restart_param ps (fun _ => False))| | |auto].
  - intros l1 x l2 Hl.
    eapply hoare_conseq;
      [apply (restart_param_family gs x (fun p => D p \/ p ∈ l1))
      |intros w Hw; exact Hw| |auto].
    + apply Hps. rewrite Hl. set_solver.
    + intros ? w [Hg Hall]. split; [exact Hg|].
      intros p [HD|Hin]; [apply Hall; auto|].
      apply elem_of_app in Hin as [Hin|Hin].
      * apply Hall. left. now right.
      * apply list_elem_of_singleton in Hin. subst p. apply Hall. now right.
  - intros w [Hg Hall]. split; [exact Hg|].
    intros p [HD|Hin]; [now apply Hall|inversion Hin].
  - auto.
Qed.

(** One round of the loop over the groups *)
Lemma restart_group_spec gs gi g (D : Param -> Prop) :
  gs !! gi = Some g ->
  (forall q, q ∈ g_params g -> p_requires_grad q = true ->
             is_Some (w_heap w0 !! p_data q)) ->
  hoare (fun w => grown gs w /\ all_zeroed D w) (restart_group gi)
    (fun _ w => grown (alter (set_g_step 0) gi gs) w
                /\ all_zeroed (fun p => D p \/ p ∈ g_params g) w)
    (fun _ => False).
Proof.
  intros Hgi Hps. unfold restart_group.
  eapply hoare_bind with
    (Q := fun _ w => grown (alter (set_g_step 0) gi gs) w /\ all_zeroed D w).
  { intros w [[Hsub Hgs] Hall]. unfold modify_group. cbv beta iota.
    split; [split|]; cbn [set_groups w_heap w_groups]; auto.
    now rewrite Hgs. }
  intros ?.
  eapply hoare_bind with
    (Q := fun group w =>
            group = set_g_step 0 g
            /\ grown (alter (set_g_step 0) gi gs) w /\ all_zeroed D w).
  { intros w [[Hsub Hgs] Hall]. unfold get_group, index.
    rewrite Hgs, list_lookup_alter_eq, Hgi. cbn. repeat split; auto. }
  intros group. apply hoare_pure. intros ->. cbn [set_g_step g_params].
  now apply restart_params_family.
Qed.

(** The invariant of the loop over the groups, [done] being the positions
    already visited *)
Definition restarted (done : list nat) (w : World F) : Prop :=
  exists gs,
    grown gs w
    /\ (forall i, i ∈ done -> gs !! i = set_g_step 0 <$> w_groups w0 !! i)
    /\ (forall i, i ∉ done -> gs !! i = w_groups w0 !! i)
    /\ all_zeroed
         (fun p => exists i g,
              i ∈ done /\ w_groups w0 !! i = Some g /\ p ∈ g_params g) w.

Lemma restart_group_restarted l1 x l2 :
  seq 0 (length (w_groups w0)) = l1 ++ x :: l2 ->
  (forall g q, g ∈ w_groups w0 -> q ∈ g_params g -> p_requires_grad q = true ->
               is_Some (w_heap w0 !! p_data q)) ->
  hoare (restarted l1) (restart_group x) (fun _ => restarted (l1 ++ [x]))
    (fun _ => False).
Proof.
  intros Hseq Halloc w (gs & Hg & Hdone & Hrest & Hall).
  assert (Hnodup : NoDup (l1 ++ x :: l2)).
  { rewrite <- Hseq. apply NoDup_seq. }
  assert (Hx1 : x ∉ l1).
  { apply NoDup_app in Hnodup as (_ & Hdisj & _). intros Hx.
    apply (Hdisj x Hx). left. }
  assert (Hxlt : x < length (w_groups w0)).
  { assert (Hin : x ∈ seq 0 (length (w_groups w0))) by (rewrite Hseq; set_solver).
    apply elem_of_seq in Hin. lia. }
  destruct (lookup_lt_is_Some_2 _ _ Hxlt) as [g0 Hg0].
  assert (Hgx : gs !! x = Some g0) by (rewrite (Hrest x Hx1); exact Hg0).
  pose proof (restart_group_spec gs x g0 _ Hgx
                (fun q => Halloc g0 q (list_elem_of_lookup_2 _ _ _ Hg0))
                w (conj Hg Hall)) as Hrun.
  destruct (restart_group x w) as [[[]|e] w']; [|exact Hrun].
  destruct Hrun as [Hg' Hall'].
  exists (alter (set_g_step 0) x gs). split; [exact Hg'|]. repeat split.
  - intros i Hi. apply elem_of_app in Hi as [Hi|Hi].
    + rewrite list_lookup_alter_ne by (intros ->; contradiction). now apply Hdone.
    + apply list_elem_of_singleton in Hi. subst i.
      rewrite list_lookup_alter_eq, Hgx, Hg0. reflexivity.
  - intros i Hi. rewrite not_elem_of_app, list_elem_of_singleton in Hi.
    destruct Hi as [Hi1 Hi2].
    rewrite list_lookup_alter_ne by (intros ->; contradiction). now apply Hrest.
  - intros p (i & g & Hi & Hgi & Hp). apply Hall'.
    apply elem_of_app in Hi as [Hi|Hi].
    + left. eauto.
    + apply list_elem_of_singleton in Hi. subst i. right.
      rewrite Hg0 in Hgi. now inversion Hgi.
Qed.

End Restart.

(** C8: whatever the optimizer has been through, [restart_opt] returns
    normally (the tensors of the parameters that require a gradient exist),
    and afterwards the step counter of every group is 0, the groups hold the
    parameters they held, and every parameter that requires a gradient has a
    state entry whose [exp_avg], [exp_avg_sq] and [exp_avg_diff] are tensors
    of zeros with as many elements as the parameter. *)
Theorem restart_opt_zeroes_moments :
  forall (w : World F),
    (forall g p, g ∈ w_groups w -> p ∈ g_params g -> p_requires_grad p = true ->
                 is_Some (w_heap w !! p_data p)) ->
    exists w',
      restart_opt w = (Ok tt, w')
      /\ (forall g, g ∈ w_groups w' -> g_step g = Some 0)
      /\ g_params <$> w_groups w' = g_params <$> w_groups w
      /\ forall g p,
           g ∈ w_groups w' -> p ∈ g_params g -> p_requires_grad p = true ->
           exists s t,
             w_state w' !! p_data p = Some s
             /\ w_heap w' !! p_data p = Some t
             /\ holds_zeros (w_heap w') t (exp_avg s)
             /\ holds_zeros (w_heap w') t (exp_avg_sq s)
             /\ holds_zeros (w_heap w') t (exp_avg_diff s).
Proof.
  intros w Halloc.
  assert (Hinit : restarted w [] w).
  { exists (w_groups w). repeat split; auto.
    - intros i Hi. inversion Hi.
    - intros p (i & g & Hi & _). inversion Hi. }
  pose proof (hoare_for_each_prefix (restarted w) restart_group
                (seq 0 (length (w_groups w))) (fun _ => False)
                (fun l1 x l2 Hl => restart_group_restarted w l1 x l2 Hl Halloc)
                w Hinit) as Hrun.
  unfold restart_opt, for_each_group.
  destruct (for_each restart_group (seq 0 (length (w_groups w))) w)
    as [[[]|e] w']; [|contradiction].
  exists w'. split; [reflexivity|].
  destruct Hrun as (gs & [Hsub Hgs] & Hdone & Hrest & Hall).
  assert (Heq : gs = set_g_step 0 <$> w_groups w).
  { apply list_eq. intros i. rewrite list_lookup_fmap.
    destruct (decide (i < length (w_groups w))) as [Hlt|Hge].
    - apply Hdone. apply elem_of_seq. lia.
    - rewrite (Hrest i) by (rewrite elem_of_seq; lia).
      assert (Hnone : w_groups w !! i = None) by (apply lookup_ge_None; lia).
      now rewrite Hnone. }
  rewrite Hgs, Heq. repeat split.
  - intros g Hg. apply list_elem_of_fmap in Hg as [g0 [-> _]]. reflexivity.
  - rewrite <- list_fmap_compose. apply list_fmap_ext. intros i g0 _.
    reflexivity.
  - intros g p Hg Hp Hrg. apply list_elem_of_fmap in Hg as [g0 [-> Hg0]].
    cbn [set_g_step g_params] in Hp.
    apply list_elem_of_lookup_1 in Hg0 as [i Hi].
    destruct (Hall p) as (t & Ht & Z1 & Z2 & Z3); [|exact Hrg|].
    { exists i, g0. repeat split; auto.
      apply elem_of_seq. apply lookup_lt_Some in Hi. lia. }
    specialize (Z1 eq_refl). specialize (Z2 eq_refl). specialize (Z3 eq_refl).
    destruct (w_state w' !! p_data p) as [s|] eqn:Hs.
    + exists s, t. repeat split; auto.
      exact (lookup_weaken _ _ _ _ Ht Hsub).
    + destruct Z1 as [l [Hl _]]. discriminate.
Qed.

(** ** Seeding [neg_pre_grad] *)

(** The six lists only grow at their ends. *)
Definition lists_extend (a b : gathered) : Prop :=
  params_with_grad a `prefix_of` params_with_grad b
  /\ gr_grads a `prefix_of` gr_grads b
  /\ gr_exp_avgs a `prefix_of` gr_exp_avgs b
  /\ gr_exp_avg_sqs a `prefix_of` gr_exp_avg_sqs b
  /\ gr_exp_avg_diffs a `prefix_of` gr_exp_avg_diffs b
  /\ gr_neg_pre_grads a `prefix_of` gr_neg_pre_grads b.

Lemma lists_extend_refl a : lists_extend a a.
Proof. repeat split; reflexivity. Qed.

Lemma lists_extend_trans a b c :
  lists_extend a b -> lists_extend b c -> lists_extend a c.
Proof.
  intros (A1 & A2 & A3 & A4 & A5 & A6) (B1 & B2 & B3 & B4 & B5 & B6).
  repeat split; etrans; eauto.
Qed.

(** The loop over the parameters of a group only adds tensors to the
    store. *)
Definition heap_above (h : gmap loc (list F)) (w : World F) : Prop :=
  h ⊆ w_heap w.

Lemma keeps_heap_above_alloc h src (f : list F -> list F) :
  keeps (heap_above h) (on_heap (let* t := read src in alloc (f t)))
    (fun _ => True).
Proof.
  intros w Hw. unfold on_heap, bind, read.
  destruct (w_heap w !! src) as [t|]; cbv beta iota; [|exact Hw].
  unfold alloc. cbv beta iota zeta. split; [exact Logic.I|].
  unfold heap_above. cbn [set_heap w_heap]. etrans; [exact Hw|].
  apply insert_subseteq, not_elem_of_dom, is_fresh.
Qed.

Lemma keeps_heap_above_gather_param h clip st acc p :
  keeps (heap_above h) (gather_param clip st acc p) (lists_extend acc).
Proof.
  unfold gather_param.
  destruct (p_grad p) as [g|]; [|apply keeps_ret, lists_extend_refl].
  assert (Hget : keeps (heap_above h) (get_state p) (fun _ => True)).
  { intros w Hw. split; auto. }
  assert (Hmod : forall f, keeps (heap_above h) (modify_state p f)
                             (fun _ => True)).
  { intros f w Hw. split; auto. }
  eapply keeps_bind; [exact Hget|]. intros state _.
  eapply keeps_bind with (Q := fun _ => True).
  { case_decide; [|now apply keeps_ret].
    eapply keeps_bind; [apply keeps_heap_above_alloc|]. intros l1 _.
    eapply keeps_bind; [apply Hmod|]. intros _ _.
    eapply keeps_bind; [apply keeps_heap_above_alloc|]. intros l2 _.
    eapply keeps_bind; [apply Hmod|]. intros _ _.
    eapply keeps_bind; [apply keeps_heap_above_alloc|]. intros l3 _.
    apply Hmod. }
  intros _ _. eapply keeps_bind; [exact Hget|]. intros state2 _.
  eapply keeps_bind with (Q := fun _ => True).
  { destruct (bool_decide (neg_pre_grad state2 = None) || bool_decide (st = 1));
      [|now apply keeps_ret].
    eapply keeps_bind; [apply keeps_heap_above_alloc|]. intros l4 _.
    apply Hmod. }
  intros _ _. eapply keeps_bind; [exact Hget|]. intros state3 _.
  eapply keeps_bind; [apply keeps_key|]. intros ea _.
  eapply keeps_bind; [apply keeps_key|]. intros eas _.
  eapply keeps_bind; [apply keeps_key|]. intros ead _.
  eapply keeps_bind; [apply keeps_key|]. intros npg _.
  apply keeps_ret. repeat split; cbn; now apply prefix_app_r.
Qed.

Lemma keeps_heap_above_gather h clip st acc ps :
  keeps (heap_above h) (gather clip st acc ps) (lists_extend acc).
Proof.
  revert acc. induction ps as [|p ps IH]; intros acc; simpl.
  - apply keeps_ret, lists_extend_refl.
  - eapply keeps_bind; [apply keeps_heap_above_gather_param|].
    intros acc' Hacc'. eapply keeps_weaken; [apply IH|].
    intros acc'' Hacc''. eapply lists_extend_trans; eauto.
Qed.

Section Seeding.

(** The loop has reached the parameter [p], whose gradient [g] holds [t], in
    the optimizer [w]. *)
Variable w : World F.
Variable p : Param.
Variable g : loc.
Variables t tp : list F.
Variable clip : F.

Hypothesis p_has_grad : p_grad p = Some g.
Hypothesis grad_value : w_heap w !! g = Some t.
Hypothesis param_value : w_heap w !! p_data p = Some tp.

(** Until the seeding, the store has only grown and [neg_pre_grad] is as it
    was. *)
Definition unseeded (w1 : World F) : Prop :=
  w_heap w ⊆ w_heap w1
  /\ neg_pre_grad (default empty_state (w_state w1 !! p_data p))
     = neg_pre_grad (default empty_state (w_state w !! p_data p)).

(** [neg_pre_grad] of [p] is the new tensor [l], which holds
    [-clip * grad]. *)
Definition seeded (l : loc) (w1 : World F) : Prop :=
  w_heap w ⊆ w_heap w1
  /\ (l ∉ dom (w_heap w))
  /\ w_heap w1 !! l = Some (t_mul t (- clip)%F)
  /\ neg_pre_grad (default empty_state (w_state w1 !! p_data p)) = Some l.

Lemma unseeded_alloc :
  hoare unseeded (new_zeros_like p) (fun _ => unseeded) (fun _ => False).
Proof.
  intros w1 [Hsub Hneg]. unfold new_zeros_like, on_heap, bind, read.
  rewrite (lookup_weaken _ _ _ _ param_value Hsub). cbv beta iota.
  unfold alloc. cbv beta iota zeta. split; cbn [set_heap w_heap w_state].
  - etrans; [exact Hsub|]. apply insert_subseteq, not_elem_of_dom, is_fresh.
  - exact Hneg.
Qed.

Lemma unseeded_store (set : loc -> ParamState -> ParamState) l :
  (forall s, neg_pre_grad (set l s) = neg_pre_grad s) ->
  hoare unseeded (modify_state p (set l)) (fun _ => unseeded) (fun _ => False).
Proof.
  intros Hset w1 [Hsub Hneg]. unfold modify_state. cbv beta iota.
  split; cbn [set_state w_heap w_state]; [exact Hsub|].
  rewrite lookup_insert_eq. change (default empty_state (Some ?x)) with x.
  now rewrite Hset.
Qed.

Lemma unseeded_init_state (state : ParamState) :
  hoare unseeded
    (if decide (state_len state = 0) then
       let* l1 := new_zeros_like p in
       modify_state p (set_exp_avg l1) >>
       let* l2 := new_zeros_like p in
       modify_state p (set_exp_avg_sq l2) >>
       let* l3 := new_zeros_like p in
       modify_state p (set_exp_avg_diff l3)
     else ret tt)
    (fun _ => unseeded) (fun _ => False).
Proof.
  case_decide; [|now apply hoare_ret].
  eapply hoare_bind; [apply unseeded_alloc|]. intros l1.
  eapply hoare_bind; [now apply unseeded_store|]. intros ?.
  eapply hoare_bind; [apply unseeded_alloc|]. intros l2.
  eapply hoare_bind; [now apply unseeded_store|]. intros ?.
  eapply hoare_bind; [apply unseeded_alloc|]. intros l3.
  now apply unseeded_store.
Qed.

Lemma seeding :
  hoare unseeded
    (let* l := on_heap (let* t := read g in
                        alloc (t_mul t (- clip)%F)) in
     modify_state p (set_neg_pre_grad l))
    (fun _ w1 => exists l, seeded l w1) (fun _ => False).
Proof.
  intros w1 [Hsub Hneg]. unfold bind at 1. unfold on_heap, bind, read.
  rewrite (lookup_weaken _ _ _ _ grad_value Hsub). cbv beta iota.
  unfold alloc, modify_state. cbv beta iota zeta.
  assert (Hnone : w_heap w1 !! fresh (dom (w_heap w1)) = None).
  { apply not_elem_of_dom, is_fresh. }
  exists (fresh (dom (w_heap w1))).
  repeat split; cbn [set_state set_heap w_heap w_state].
  - etrans; [exact Hsub|]. now apply insert_subseteq.
  - intros Hin. apply elem_of_dom in Hin as [x Hx].
    rewrite (lookup_weaken _ _ _ _ Hx Hsub) in Hnone. discriminate.
  - apply lookup_insert_eq.
  - rewrite lookup_insert_eq. reflexivity.
Qed.

(** The round of the loop for [p], when the group is at its first step or
    [p] has no [neg_pre_grad] yet *)
Lemma gather_param_seeds st acc :
  st = 1 \/ neg_pre_grad (default empty_state (w_state w !! p_data p)) = None ->
  hoare (fun w1 => w1 = w) (gather_param clip st acc p)
    (fun acc' w1 =>
       exists l, seeded l w1
                 /\ gr_grads acc' = gr_grads acc ++ [g]
                 /\ gr_neg_pre_grads acc' = gr_neg_pre_grads acc ++ [l])
    (fun w1 => exists l, seeded l w1).
Proof.
  intros Hcond. unfold gather_param. rewrite p_has_grad.
  eapply hoare_bind with (Q := fun _ => unseeded).
  { intros w1 ->. split; reflexivity. }
  intros state.
  eapply hoare_bind with (Q := fun _ => unseeded).
  { eapply hoare_conseq; [apply unseeded_init_state|auto|auto|intros ? []]. }
  intros ?.
  eapply hoare_bind with
    (Q := fun s w1 => unseeded w1
            /\ s = default empty_state (w_state w1 !! p_data p)).
  { intros w1 Hw1. split; [exact Hw1|reflexivity]. }
  intros state2.
  eapply hoare_bind with (Q := fun _ w1 => exists l, seeded l w1).
  { intros w1 [Hun ->].
    assert (Htrue : bool_decide
                      (neg_pre_grad (default empty_state (w_state w1 !! p_data p))
                       = None) || bool_decide (st = 1) = true).
    { destruct Hcond as [->|Hnone].
      - now rewrite orb_true_r.
      - destruct Hun as [_ Hneg]. rewrite Hneg, Hnone. reflexivity. }
    rewrite Htrue.
    pose proof (seeding w1 Hun) as Hrun.
    destruct (bind _ _ w1) as [[[]|e] w2]; [exact Hrun|contradiction]. }
  intros ?.
  eapply hoare_bind with
    (Q := fun s w1 => exists l, seeded l w1 /\ neg_pre_grad s = Some l).
  { intros w1 [l Hl]. exists l. split; [exact Hl|].
    destruct Hl as (_ & _ & _ & Hneg). exact Hneg. }
  intros state3.
  assert (Hkey : forall name (v : option loc),
             hoare (fun w1 => exists l, seeded l w1 /\ neg_pre_grad state3 = Some l)
               (key name v)
               (fun _ w1 => exists l, seeded l w1 /\ neg_pre_grad state3 = Some l)
               (fun w1 => exists l, seeded l w1)).
  { intros name [x|]; [now apply hoare_ret|].
    apply hoare_raise. intros w1 [l [Hl _]]. eauto. }
  eapply hoare_bind; [apply Hkey|]. intros ea.
  eapply hoare_bind; [apply Hkey|]. intros eas.
  eapply hoare_bind; [apply Hkey|]. intros ead.
  eapply hoare_bind with
    (Q := fun npg w1 => exists l, seeded l w1 /\ npg = l).
  { intros w1 [l [Hl Hneg]]. rewrite Hneg. cbn. eauto. }
  intros npg. apply hoare_ret. intros w1 [l [Hl ->]]. exists l.
  repeat split; auto; apply Hl.
Qed.

End Seeding.

(** When the loop over the parameters of a group reaches a parameter [p]
    with a gradient, and the step counter of the group (just incremented) is
    1 or the state of [p] has no [neg_pre_grad], the round for [p] makes
    [neg_pre_grad] of [p] a new tensor [l] that holds [grad * (-clip)], the
    gradient not yet being clipped.  This is so whether or not the round
    then fails on a missing moment.  When the loop has gone through the
    remaining parameters, that is when the kernel starts, [l] is the entry
    of [neg_pre_grads] for [p] and still holds [grad * (-clip)], and the
    gradient is untouched. *)
Lemma gather_seeds_neg_pre_grad :
  forall (clip : F) (step : nat) (acc : gathered) (p : Param)
         (rest : list Param) (w : World F) (g : loc) (t : list F),
    p_grad p = Some g ->
    w_heap w !! g = Some t ->
    is_Some (w_heap w !! p_data p) ->
    step = 1
    \/ neg_pre_grad (default empty_state (w_state w !! p_data p)) = None ->
    exists l,
      (l ∉ dom (w_heap w))
      /\ (let w1 := (gather_param clip step acc p w).2 in
          w_heap w1 !! l = Some (t_mul t (- clip)%F)
          /\ neg_pre_grad <$> w_state w1 !! p_data p = Some (Some l))
      /\ forall lists w2,
           gather clip step acc (p :: rest) w = (Ok lists, w2) ->
           gr_grads lists !! length (gr_grads acc) = Some g
           /\ gr_neg_pre_grads lists !! length (gr_neg_pre_grads acc) = Some l
           /\ w_heap w2 !! g = Some t
           /\ w_heap w2 !! l = Some (t_mul t (- clip)%F).
Proof.
  intros clip step acc p rest w g t Hg Ht [tp Htp] Hcond.
  pose proof (gather_param_seeds w p g t tp clip Hg Ht Htp step acc Hcond
                w eq_refl) as Hrun.
  assert (Hstate : forall l w1, seeded w p t clip l w1 ->
            w_heap w1 !! l = Some (t_mul t (- clip)%F)
            /\ neg_pre_grad <$> w_state w1 !! p_data p = Some (Some l)).
  { intros l w1 (_ & _ & Hl & Hneg). split; [exact Hl|].
    destruct (w_state w1 !! p_data p) as [s|]; [|discriminate].
    cbn in *. now rewrite Hneg. }
  simpl gather. unfold bind.
  destruct (gather_param clip step acc p w) as [[acc'|e] w1].
  - destruct Hrun as (l & Hseed & Hgr & Hnp). exists l.
    split; [apply Hseed|]. split; [now apply Hstate|].
    intros lists w2 Hrest.
    pose proof (keeps_heap_above_gather (w_heap w1) clip step acc' rest w1) as Hk.
    unfold keeps, hoare in Hk. specialize (Hk (reflexivity _)).
    rewrite Hrest in Hk. destruct Hk as [Hext Hsub].
    destruct Hext as (_ & E2 & _ & _ & _ & E6).
    destruct Hseed as (Hsub1 & _ & Hl & _).
    repeat split.
    + eapply prefix_lookup_Some; [|exact E2].
      rewrite Hgr. apply list_lookup_middle. reflexivity.
    + eapply prefix_lookup_Some; [|exact E6].
      rewrite Hnp. apply list_lookup_middle. reflexivity.
    + eapply lookup_weaken; [|exact Hsub].
      eapply lookup_weaken; [exact Ht|exact Hsub1].
    + eapply lookup_weaken; [exact Hl|exact Hsub].
  - destruct Hrun as (l & Hseed). exists l.
    split; [apply Hseed|]. split; [now apply Hstate|].
    intros lists w2 Hrest. discriminate.
Qed.

(** ** [__init__] *)

(** C4, as amended: [__init__] raises its ValueError exactly for the
    hyperparameters that fail one of its comparisons, that is for a beta
    that fails [0 <= beta < 1] or an [lr], [eps] or [max_grad_norm] that
    fails [x >= 0] (a negative value, and also a NaN); no value is clamped:
    the hyperparameters that pass reach the constructor of the base class
    unchanged, and [__init__] returns what that constructor returns. *)
Theorem init_rejects_iff_comparison_fails :
  forall (P : Type) (Optimizer_init : P -> Defaults F -> outcome (World F))
         (params : P) (lr : F) (betas : F * F * F)
         (eps weight_decay max_grad_norm : F) (no_prox mc foreach : bool),
    (rejected lr betas eps max_grad_norm = true <->
     exists msg,
       forall (Q : Type) (init : Q -> Defaults F -> outcome (World F)) (ps : Q),
         __init__ init ps lr betas eps weight_decay max_grad_norm no_prox mc
           foreach = Raise (ValueError msg)) /\
    (rejected lr betas eps max_grad_norm = false ->
     __init__ Optimizer_init params lr betas eps weight_decay max_grad_norm
       no_prox mc foreach
     = Optimizer_init params
         {| d_lr := lr; d_betas := betas; d_eps := eps;
            d_weight_decay := weight_decay; d_max_grad_norm := max_grad_norm;
            d_no_prox := no_prox; d_mc := mc; d_foreach := foreach |}).
Proof.
  intros P Optimizer_init params lr [[b0 b1] b2] eps wd mgn no_prox mc foreach.
  unfold rejected, fails_range, fails_unit_range, __init__.
  split; [split|].
  - intros Hrej.
    destruct (negb (fleb fzero mgn)); [eexists; intros; reflexivity|].
    destruct (negb (fleb fzero lr)); [eexists; intros; reflexivity|].
    destruct (negb (fleb fzero eps)); [eexists; intros; reflexivity|].
    destruct (negb (fleb fzero b0 && fltb b0 fone));
      [eexists; intros; reflexivity|].
    destruct (negb (fleb fzero b1 && fltb b1 fone));
      [eexists; intros; reflexivity|].
    destruct (negb (fleb fzero b2 && fltb b2 fone));
      [eexists; intros; reflexivity|].
    discriminate.
  - intros [msg Hraise].
    pose (w := {| w_defaults :=
                    {| d_lr := lr; d_betas := (b0, b1, b2); d_eps := eps;
                       d_weight_decay := wd; d_max_grad_norm := mgn;
                       d_no_prox := no_prox; d_mc := mc; d_foreach := foreach |};
                  w_groups := []; w_state := ∅; w_heap := ∅ |}).
    specialize (Hraise unit (fun _ _ => Ok w) tt).
    destruct (negb (fleb fzero mgn)); [now rewrite !orb_true_r|].
    destruct (negb (fleb fzero lr)); [now rewrite !orb_true_r|].
    destruct (negb (fleb fzero eps)); [now rewrite !orb_true_r|].
    destruct (negb (fleb fzero b0 && fltb b0 fone)); [reflexivity|].
    destruct (negb (fleb fzero b1 && fltb b1 fone)); [reflexivity|].
    destruct (negb (fleb fzero b2 && fltb b2 fone)); [reflexivity|].
    discriminate.
  - intros Hrej.
    destruct (negb (fleb fzero mgn)); [now rewrite !orb_true_r in Hrej|].
    destruct (negb (fleb fzero lr)); [now rewrite !orb_true_r in Hrej|].
    destruct (negb (fleb fzero eps)); [now rewrite !orb_true_r in Hrej|].
    destruct (negb (fleb fzero b0 && fltb b0 fone)); [discriminate|].
    destruct (negb (fleb fzero b1 && fltb b1 fone)); [discriminate|].
    destruct (negb (fleb fzero b2 && fltb b2 fone)); [discriminate|].
    reflexivity.
Qed.

(** ** [step]: the clipping pass *)

(** C10: when [defaults["max_grad_norm"] > 0] and the first group has no
    parameter, [step] raises IndexError at [param_groups[0]["params"][0]]:
    whatever the closure (if any) left behind is all that has happened, and
    no group, state or tensor has been touched by [step] itself. *)
Theorem step_IndexError_on_empty_first_group :
  forall (closure : option (M (World F) F)) (w w1 : World F) (loss : option F)
         (g0 : Group F),
    call_closure closure w = (Ok loss, w1) ->
    fltb fzero (d_max_grad_norm (w_defaults w1)) = true ->
    w_groups w1 !! 0 = Some g0 ->
    g_params g0 = [] ->
    step closure w = (Raise IndexError, w1).
Proof.
  intros closure w w1 loss g0 Hc Hmgn Hg0 Hps.
  unfold step. rewrite (bind_ok _ _ _ _ _ Hc).
  apply bind_raise. unfold clip_pass. rewrite Hmgn.
  rewrite (bind_ok _ _ _ _ _ (index_ok _ _ _ _ Hg0)).
  apply bind_raise. apply index_none. now rewrite Hps.
Qed.

End OptimizerFacts.

(** * The whole step

    The clipping pass, the loop that gathers the tensors of a group, the
    round of a group and the loop over the groups, on an optimizer that is
    ready for a step. *)

Section Clipping.
Context {F : Type} `{Scalar F}.

(** The gradients that are present, group after group *)
Definition present_grads (gs : list (Group F)) : list loc :=
  g ← gs; omap p_grad (g_params g).

(** The clip factor as the specification writes it:
    [global_norm = sqrt(Σ grad_i²)] over the gradients [ts], and
    [clip_factor = min(max_grad_norm / (global_norm + eps), 1.0)] when
    [max_grad_norm > 0], [1.0] otherwise.  The sum runs over the gradients
    in their order, and [min] is the one of Python. *)
Definition spec_sum_of_squares (ts : list (list F)) : F :=
  foldl (fun acc t => (acc + t_sum (t_pow t 2))%F) fzero ts.

Definition spec_global_norm (ts : list (list F)) : F :=
  fsqrt (spec_sum_of_squares ts).

Definition py_min (a b : F) : F := if fltb b a then b else a.

Definition spec_clip_factor (max_grad_norm eps : F) (ts : list (list F)) : F :=
  if fltb fzero max_grad_norm
  then py_min (max_grad_norm / (spec_global_norm ts + eps))%F fone
  else fone.

Lemma add_grad_norms_run ps (acc : F) (w : World F) ts :
  Forall2 (fun l t => w_heap w !! l = Some t) (omap p_grad ps) ts ->
  add_grad_norms ps acc w
  = (Ok (foldl (fun acc t => (acc + t_sum (t_pow t 2))%F) acc ts), w).
Proof.
  revert acc ts. induction ps as [|p ps IH]; intros acc ts Hts; simpl in *.
  - inversion Hts; subst. reflexivity.
  - destruct (p_grad p) as [g|]; simpl in Hts.
    + inversion Hts as [|? t ? ts' Hg Hrest]; subst.
      unfold bind at 1, on_heap, read. rewrite Hg.
      destruct w; cbn. now apply IH.
    + now apply IH.
Qed.

Lemma add_group_norms_run gs (acc : F) (w : World F) ts :
  Forall2 (fun l t => w_heap w !! l = Some t) (present_grads gs) ts ->
  add_group_norms gs acc w
  = (Ok (foldl (fun acc t => (acc + t_sum (t_pow t 2))%F) acc ts), w).
Proof.
  revert acc ts. induction gs as [|g gs IH]; intros acc ts Hts.
  - inversion Hts; subst. reflexivity.
  - unfold present_grads in Hts. cbn [mbind list_bind] in Hts.
    apply Forall2_app_inv_l in Hts as (t1 & t2 & H1 & H2 & ->).
    cbn [add_group_norms].
    rewrite (bind_ok _ _ _ _ _ (add_grad_norms_run _ acc w t1 H1)).
    rewrite foldl_app. now apply IH.
Qed.

(** The [eps] of the last group, which is what the name [group] refers to
    after the loop of the clipping pass *)
Definition last_eps (gs : list (Group F)) : F :=
  match last gs with
  | Some g => g_eps g
  | None => fzero
  end.

(** The clipping pass returns the factor of the specification, with the
    [eps] of the last group. *)
Lemma clip_pass_run (w : World F) ts :
  Forall2 (fun l t => w_heap w !! l = Some t) (present_grads (w_groups w)) ts ->
  (fltb fzero (d_max_grad_norm (w_defaults w)) = true ->
   exists g0 p0, w_groups w !! 0 = Some g0 /\ g_params g0 !! 0 = Some p0) ->
  clip_pass w
  = (Ok (spec_clip_factor (d_max_grad_norm (w_defaults w))
           (last_eps (w_groups w)) ts), w).
Proof.
  intros Hts Hfirst.
  unfold clip_pass, spec_clip_factor, spec_global_norm, spec_sum_of_squares,
    last_eps.
  destruct (fltb fzero (d_max_grad_norm (w_defaults w))); [|reflexivity].
  destruct (Hfirst eq_refl) as (g0 & p0 & Hg0 & Hp0).
  rewrite (bind_ok _ _ _ _ _ (index_ok _ _ _ _ Hg0)).
  rewrite (bind_ok _ _ _ _ _ (index_ok _ _ _ _ Hp0)).
  rewrite (bind_ok _ _ _ _ _ (add_group_norms_run _ _ _ _ Hts)).
  destruct (last (w_groups w)) as [glast|] eqn:Hlast; [reflexivity|].
  apply last_None in Hlast. rewrite Hlast in Hg0. discriminate.
Qed.

End Clipping.

Section Gathering.
Context {F : Type} `{Scalar F}.

(** The six lists, read off a list of slots *)
Definition lists_of (ss : list slots) : gathered :=
  {| params_with_grad := s_param <$> ss;
     gr_grads := s_grad <$> ss;
     gr_exp_avgs := s_exp_avg <$> ss;
     gr_exp_avg_sqs := s_exp_avg_sq <$> ss;
     gr_exp_avg_diffs := s_exp_avg_diff <$> ss;
     gr_neg_pre_grads := s_neg_pre_grad <$> ss |}.

(** The state entry whose four tensors are those of a slot *)
Definition state_of (s : slots) : ParamState :=
  {| exp_avg := Some (s_exp_avg s); exp_avg_sq := Some (s_exp_avg_sq s);
     exp_avg_diff := Some (s_exp_avg_diff s);
     neg_pre_grad := Some (s_neg_pre_grad s) |}.

(** The values the kernel starts from for the parameter [p], whose value is
    [tp] and whose gradient is [tg], when the loop over the parameters of its
    group runs in [w] at the step [step]: a moment that is missing is a new
    tensor of zeros, and [neg_pre_grad] is [tg * (-c)] when it is missing or
    the step is the first. *)
Definition start_values (c : F) (step : nat) (w : World F) (p : Param)
    (tp tg : list F) : adan_values F :=
  let st := default empty_state (w_state w !! p_data p) in
  let moment (o : option loc) :=
    match o with
    | Some l => default [] (w_heap w !! l)
    | None => zeros_like tp
    end in
  {| a_param := tp;
     a_grad := tg;
     a_exp_avg := moment (exp_avg st);
     a_exp_avg_sq := moment (exp_avg_sq st);
     a_exp_avg_diff := moment (exp_avg_diff st);
     a_neg_pre_grad :=
       match neg_pre_grad st with
       | Some l =>
           if decide (step = 1) then t_mul tg (- c)%F
           else default [] (w_heap w !! l)
       | None => t_mul tg (- c)%F
       end |}.

(** The parameter [p] and its gradient [g] exist, with the values [tp] and
    [tg] of the same shape; the state of [p] is empty or has the three
    moments, and its tensors exist and have the shape of [p]. *)
Record param_ready (w : World F) (p : Param) (g : loc) (tp tg : list F)
  : Prop := {
  pr_param : w_heap w !! p_data p = Some tp;
  pr_grad : w_heap w !! g = Some tg;
  pr_shape : length tg = length tp;
  pr_state :
    let st := default empty_state (w_state w !! p_data p) in
    state_len st = 0
    \/ (is_Some (exp_avg st) /\ is_Some (exp_avg_sq st)
        /\ is_Some (exp_avg_diff st));
  pr_moments :
    forall l, l ∈ state_locs (w_state w !! p_data p) ->
      exists t, w_heap w !! l = Some t /\ length t = length tp
}.

(** A new tensor computed from one that exists *)
Lemma run_alloc_from (src : loc) (f : list F -> list F) (w : World F) t :
  w_heap w !! src = Some t ->
  on_heap (let* t := read src in alloc (f t)) w
  = (Ok (fresh (dom (w_heap w))),
     set_heap (<[fresh (dom (w_heap w)) := f t]> (w_heap w)) w).
Proof. intros E. unfold on_heap, bind, read. rewrite E. reflexivity. Qed.

(** A new tensor leaves those that exist alone. *)
Lemma lookup_alloc (h : gmap loc (list F)) l (t x : list F) :
  h !! l = Some x -> <[fresh (dom h) := t]> h !! l = Some x.
Proof.
  intros E. rewrite lookup_insert_ne; [exact E|].
  intros Heq. apply (is_fresh (dom h)). rewrite Heq. now apply elem_of_dom_2 in E.
Qed.

(** Running the rounds of the loop over the parameters: allocations, and
    reads and writes of the state *)
Ltac alloc_side :=
  cbn [w_heap w_state w_groups w_defaults set_heap set_state];
  repeat apply lookup_alloc; eassumption.

Ltac run_alloc :=
  eapply bind_step;
  [ first [ unfold new_zeros_like | idtac ]; eapply run_alloc_from; alloc_side
  | cbv beta ].

Ltac run_pure :=
  eapply bind_step; [ reflexivity | cbv beta ];
  cbn [w_heap w_state w_groups w_defaults set_heap set_state];
  rewrite ?lookup_insert_eq;
  cbn [default exp_avg exp_avg_sq exp_avg_diff neg_pre_grad
       set_exp_avg set_exp_avg_sq set_exp_avg_diff set_neg_pre_grad].

(** The new tensors of a run, named, with what they differ from *)
Ltac name_fresh :=
  repeat match goal with
         | |- context [fresh (dom ?h)] =>
             lazymatch h with
             | context [fresh _] => fail
             | _ =>
                 let l := fresh "l" in
                 let Hl := fresh "Hl" in
                 pose proof (is_fresh (dom h)) as Hl;
                 revert Hl; generalize (fresh (dom h)); intros l Hl;
                 rewrite ?dom_insert_L, ?not_elem_of_union,
                   ?not_elem_of_singleton in Hl;
                 destruct_and?
             end
         end.

(** Two tensors differ: a known fact, or one exists and the other is new. *)
Ltac loc_ne :=
  first
    [ assumption
    | apply not_eq_sym; assumption
    | let Heq := fresh "Heq" in
      intros Heq;
      match goal with
      | Hin : ?x ∈ dom ?h, Hout : ?y ∉ dom ?h |- _ =>
          first [ apply Hout; rewrite <- Heq; exact Hin
                | apply Hout; rewrite Heq; exact Hin ]
      end ].

(** Reading the store a run has produced *)
Ltac heap_lookup :=
  repeat first
    [ rewrite lookup_insert_eq
    | rewrite lookup_insert_ne by loc_ne ];
  repeat match goal with
         | E : ?h !! ?l = Some _ |- context [?h !! ?l] => rewrite E
         end;
  try reflexivity.

(** The six tensors of the slot are different. *)
Ltac slot_NoDup :=
  unfold slot_locs;
  cbn [s_param s_grad s_exp_avg s_exp_avg_sq s_exp_avg_diff s_neg_pre_grad];
  repeat (apply NoDup_cons_2;
          [ rewrite ?not_elem_of_cons; repeat split;
            first [ apply not_elem_of_nil | loc_ne ]
          | ]);
  apply NoDup_nil_2.

(** Each tensor of the slot was handled for the parameter or is new. *)
Ltac slot_origin :=
  let l := fresh "l" in
  let Hl := fresh "Hl" in
  intros l Hl; unfold slot_locs in Hl;
  cbn [s_param s_grad s_exp_avg s_exp_avg_sq s_exp_avg_diff s_neg_pre_grad]
    in Hl;
  rewrite ?elem_of_cons in Hl; rewrite elem_of_nil in Hl;
  repeat (destruct Hl as [->|Hl]); [..|destruct Hl];
  first [ right; assumption
        | left; cbn; rewrite ?elem_of_cons; tauto ].

(** What a round of the loop over the parameters establishes *)
Ltac gathered_facts :=
  cbn [s_param s_grad w_defaults w_groups w_heap w_state set_heap set_state];
  name_fresh;
  split; [reflexivity|];
  split; [reflexivity|];
  split; [reflexivity|];
  split; [reflexivity|];
  split;
  [ repeat (apply insert_subseteq_r; [apply not_elem_of_dom; assumption|]);
    reflexivity | ];
  split;
  [ let k := fresh "k" in
    let Hk := fresh "Hk" in
    intros k Hk;
    rewrite ?lookup_insert_ne by (apply not_eq_sym; exact Hk); reflexivity | ];
  split;
  [ first
      [ rewrite lookup_insert_eq; reflexivity
      | match goal with
        | E : default empty_state (?m !! ?k) = _ |- ?m !! ?k = _ =>
            destruct (m !! k);
            [ simpl in E; rewrite E; reflexivity | discriminate E ]
        end ] | ];
  split;
  [ apply values_at_Some;
    cbn [a_param a_grad a_exp_avg a_exp_avg_sq a_exp_avg_diff a_neg_pre_grad
         s_param s_grad s_exp_avg s_exp_avg_sq s_exp_avg_diff s_neg_pre_grad];
    repeat split; heap_lookup | ];
  split; [ slot_NoDup | slot_origin ].

(** The round of the loop for a parameter with a gradient: it returns, and
    the parameter gets a slot [s] whose tensors are its own or new and hold
    the values the kernel starts from; the store has only grown and no other
    state entry has changed. *)
Lemma gather_param_run c st ss p g tp tg (w : World F) :
  p_grad p = Some g -> param_ready w p g tp tg ->
  NoDup (handled_for w p) ->
  exists s w',
    gather_param c st (lists_of ss) p w = (Ok (lists_of (ss ++ [s])), w')
    /\ s_param s = p_data p /\ s_grad s = g
    /\ w_defaults w' = w_defaults w /\ w_groups w' = w_groups w
    /\ w_heap w ⊆ w_heap w'
    /\ (forall k, k ≠ p_data p -> w_state w' !! k = w_state w !! k)
    /\ w_state w' !! p_data p = Some (state_of s)
    /\ values_at (w_heap w') s = Some (start_values c st w p tp tg)
    /\ NoDup (slot_locs s)
    /\ (forall l, l ∈ slot_locs s ->
          l ∈ handled_for w p \/ l ∉ dom (w_heap w)).
Proof.
  intros Hg [Hp Hgr Hshape Hstate Hmom] Hnd.
  unfold handled_for in Hnd. rewrite Hg in Hnd. cbn [option_list app] in Hnd.
  unfold handled_for. rewrite Hg. cbn [option_list app].
  rewrite <- state_locs_default in Hnd, Hmom.
  rewrite <- (state_locs_default (w_state w !! p_data p)).
  unfold gather_param, start_values. rewrite Hg.
  pose proof (elem_of_dom_2 _ _ _ Hp) as Dp.
  pose proof (elem_of_dom_2 _ _ _ Hgr) as Dg.
  destruct (default empty_state (w_state w !! p_data p))
    as [oea oeas oead onpg] eqn:Hst0.
  cbn [exp_avg exp_avg_sq exp_avg_diff neg_pre_grad] in Hstate |- *.
  destruct oea as [ea|], oeas as [eas|], oead as [ead|];
    try (exfalso; destruct Hstate as [Hlen|(H1 & H2 & H3)];
         [ destruct onpg; discriminate Hlen
         | first [ now destruct H1 | now destruct H2 | now destruct H3 ] ]).
  - (* the moments exist *)
    destruct (Hmom ea) as (tea & Hea & Lea);
      [apply elem_of_state_locs; cbn; tauto|].
    destruct (Hmom eas) as (teas & Heas & Leas);
      [apply elem_of_state_locs; cbn; tauto|].
    destruct (Hmom ead) as (tead & Head & Lead);
      [apply elem_of_state_locs; cbn; tauto|].
    pose proof (elem_of_dom_2 _ _ _ Hea) as Dea.
    pose proof (elem_of_dom_2 _ _ _ Heas) as Deas.
    pose proof (elem_of_dom_2 _ _ _ Head) as Dead.
    assert (Hlen : state_len
                     {| exp_avg := Some ea; exp_avg_sq := Some eas;
                        exp_avg_diff := Some ead; neg_pre_grad := onpg |}
                   ≠ 0) by (destruct onpg; discriminate).
    destruct onpg as [npg|]; [destruct (decide (st = 1)) as [Hst|Hst]|].
    + (* a first step: [neg_pre_grad] is made anew *)
      cbn in Hnd. distinct_from Hnd.
      eexists {| s_param := p_data p; s_grad := g |}, _.
      split.
      { eapply bind_step; [reflexivity|cbv beta]. rewrite Hst0.
        rewrite decide_False by exact Hlen.
        eapply bind_step; [reflexivity|cbv beta].
        run_pure. rewrite Hst0.
        cbn [default exp_avg exp_avg_sq exp_avg_diff neg_pre_grad].
        rewrite (bool_decide_eq_true_2 (st = 1)) by exact Hst.
        rewrite orb_true_r.
        eapply bind_step.
        { run_alloc. reflexivity. }
        cbv beta.
        run_pure. rewrite Hst0.
        unfold key, lists_of. cbn. rewrite !fmap_app. cbn. reflexivity. }
      gathered_facts.
    + (* [neg_pre_grad] is kept *)
      destruct (Hmom npg) as (tnpg & Hnpg & Lnpg);
        [apply elem_of_state_locs; cbn; tauto|].
      pose proof (elem_of_dom_2 _ _ _ Hnpg) as Dnpg.
      cbn in Hnd. distinct_from Hnd.
      eexists {| s_param := p_data p; s_grad := g |}, _.
      split.
      { eapply bind_step; [reflexivity|cbv beta]. rewrite Hst0.
        rewrite decide_False by exact Hlen.
        eapply bind_step; [reflexivity|cbv beta].
        run_pure. rewrite Hst0.
        cbn [default exp_avg exp_avg_sq exp_avg_diff neg_pre_grad].
        rewrite (bool_decide_eq_false_2 (st = 1)) by exact Hst.
        rewrite (bool_decide_eq_false_2 (Some npg = None)) by discriminate.
        cbn [orb].
        eapply bind_step; [reflexivity|cbv beta].
        run_pure. rewrite Hst0.
        unfold key, lists_of. cbn. rewrite !fmap_app. cbn. reflexivity. }
      gathered_facts.
    + (* no [neg_pre_grad] yet *)
      cbn in Hnd. distinct_from Hnd.
      eexists {| s_param := p_data p; s_grad := g |}, _.
      split.
      { eapply bind_step; [reflexivity|cbv beta]. rewrite Hst0.
        rewrite decide_False by exact Hlen.
        eapply bind_step; [reflexivity|cbv beta].
        run_pure. rewrite Hst0.
        cbn [default exp_avg exp_avg_sq exp_avg_diff neg_pre_grad].
        rewrite (bool_decide_eq_true_2 (None = None)) by reflexivity.
        cbn [orb].
        eapply bind_step.
        { run_alloc. reflexivity. }
        cbv beta.
        run_pure. rewrite Hst0.
        unfold key, lists_of. cbn. rewrite !fmap_app. cbn. reflexivity. }
      gathered_facts.
  - (* no moment yet *)
    destruct onpg as [npg|].
    { exfalso. destruct Hstate as [Hlen|(H1 & _)];
        [discriminate Hlen|now destruct H1]. }
    cbn in Hnd. distinct_from Hnd.
    eexists {| s_param := p_data p; s_grad := g |}, _.
    split.
    { eapply bind_step; [reflexivity|cbv beta]. rewrite Hst0.
      rewrite decide_True by reflexivity.
      eapply bind_step.
      { run_alloc. run_pure. run_alloc. run_pure. run_alloc.
        reflexivity. }
      cbv beta.
      run_pure. rewrite Hst0.
      cbn [default exp_avg exp_avg_sq exp_avg_diff neg_pre_grad
           set_exp_avg set_exp_avg_sq set_exp_avg_diff set_neg_pre_grad].
      rewrite bool_decide_eq_true_2 by reflexivity. cbn [orb].
      eapply bind_step.
      { run_alloc. reflexivity. }
      cbv beta.
      run_pure.
      unfold key, lists_of. cbn. rewrite !fmap_app. cbn. reflexivity. }
    gathered_facts.
Qed.

(** What [step] works on for the parameters of a list that have a
    gradient *)
Definition handled (w : World F) (ps : list Param) : list loc :=
  p ← ps; match p_grad p with Some _ => handled_for w p | None => [] end.

Lemma elem_of_handled w ps l :
  l ∈ handled w ps <->
  exists p, p ∈ ps /\ is_Some (p_grad p) /\ l ∈ handled_for w p.
Proof.
  unfold handled. rewrite list_elem_of_bind. split.
  - intros (p & Hl & Hp). exists p. destruct (p_grad p) eqn:E.
    + eauto.
    + now apply elem_of_nil in Hl.
  - intros (p & Hp & [g Hg] & Hl). exists p. now rewrite Hg.
Qed.

Lemma handled_for_ext (w w' : World F) p :
  w_state w' !! p_data p = w_state w !! p_data p ->
  handled_for w' p = handled_for w p.
Proof. intros E. unfold handled_for. now rewrite E. Qed.

Lemma handled_ext (w w' : World F) ps :
  (forall p, p ∈ ps -> is_Some (p_grad p) ->
     w_state w' !! p_data p = w_state w !! p_data p) ->
  handled w' ps = handled w ps.
Proof.
  induction ps as [|p ps IH]; intros Hsame; [reflexivity|].
  unfold handled. cbn [mbind list_bind]. fold (handled w' ps) (handled w ps).
  rewrite IH by (intros q Hq; apply Hsame; now right).
  destruct (p_grad p) eqn:Hg; [|reflexivity].
  rewrite (handled_for_ext w w' p); [reflexivity|].
  apply Hsame; [now left|]. rewrite Hg. eauto.
Qed.

Lemma handled_for_allocated w p g tp tg l :
  p_grad p = Some g -> param_ready w p g tp tg ->
  l ∈ handled_for w p -> l ∈ dom (w_heap w).
Proof.
  intros Hg [Hp Hgr _ _ Hmom]. unfold handled_for. rewrite Hg.
  cbn [option_list app]. intros Hl.
  apply elem_of_cons in Hl as [->|Hl]; [|apply elem_of_cons in Hl as [->|Hl]].
  - now apply elem_of_dom_2 in Hp.
  - now apply elem_of_dom_2 in Hgr.
  - destruct (Hmom l Hl) as (t & Ht & _). now apply elem_of_dom_2 in Ht.
Qed.

Lemma param_ready_weaken (w w' : World F) p g tp tg :
  w_heap w ⊆ w_heap w' ->
  w_state w' !! p_data p = w_state w !! p_data p ->
  param_ready w p g tp tg -> param_ready w' p g tp tg.
Proof.
  intros Hsub Hst [Hp Hgr Hshape Hstate Hmom]. split.
  - eapply lookup_weaken; eauto.
  - eapply lookup_weaken; eauto.
  - exact Hshape.
  - now rewrite Hst.
  - rewrite Hst. intros l Hl. destruct (Hmom l Hl) as (t & Ht & Hlen).
    exists t. split; [|exact Hlen]. eapply lookup_weaken; eauto.
Qed.

Lemma start_values_ext c st (w w' : World F) p g tp tg :
  w_heap w ⊆ w_heap w' ->
  w_state w' !! p_data p = w_state w !! p_data p ->
  param_ready w p g tp tg ->
  start_values c st w' p tp tg = start_values c st w p tp tg.
Proof.
  intros Hsub Hst [_ _ _ _ Hmom]. unfold start_values. rewrite Hst.
  rewrite <- state_locs_default in Hmom.
  destruct (default empty_state (w_state w !! p_data p))
    as [oea oeas oead onpg].
  assert (Hsame : forall l, l ∈ state_locs
                    (Some {| exp_avg := oea; exp_avg_sq := oeas;
                             exp_avg_diff := oead; neg_pre_grad := onpg |}) ->
                  w_heap w' !! l = w_heap w !! l).
  { intros l Hl. destruct (Hmom l Hl) as (t & Ht & _).
    rewrite Ht. eapply lookup_weaken; eauto. }
  cbn [exp_avg exp_avg_sq exp_avg_diff neg_pre_grad].
  f_equal.
  - destruct oea as [l|]; [|reflexivity].
    rewrite Hsame; [reflexivity|]. apply elem_of_state_locs. cbn. tauto.
  - destruct oeas as [l|]; [|reflexivity].
    rewrite Hsame; [reflexivity|]. apply elem_of_state_locs. cbn. tauto.
  - destruct oead as [l|]; [|reflexivity].
    rewrite Hsame; [reflexivity|]. apply elem_of_state_locs. cbn. tauto.
  - destruct onpg as [l|]; [|reflexivity].
    rewrite Hsame; [reflexivity|]. apply elem_of_state_locs. cbn. tauto.
Qed.

Lemma same_shapes_start c st (w : World F) p g tp tg :
  param_ready w p g tp tg -> same_shapes (start_values c st w p tp tg).
Proof.
  intros [_ _ Hshape _ Hmom]. unfold start_values, same_shapes.
  rewrite <- state_locs_default in Hmom.
  destruct (default empty_state (w_state w !! p_data p))
    as [oea oeas oead onpg].
  assert (Hlen : forall l, l ∈ state_locs
                    (Some {| exp_avg := oea; exp_avg_sq := oeas;
                             exp_avg_diff := oead; neg_pre_grad := onpg |}) ->
                  length (default [] (w_heap w !! l)) = length tp).
  { intros l Hl. destruct (Hmom l Hl) as (t & Ht & Hlen). now rewrite Ht. }
  cbn [a_param a_grad a_exp_avg a_exp_avg_sq a_exp_avg_diff a_neg_pre_grad
       exp_avg exp_avg_sq exp_avg_diff neg_pre_grad].
  split; [exact Hshape|].
  split.
  { destruct oea as [l|]; [|apply length_zeros_like].
    apply Hlen, elem_of_state_locs. cbn. tauto. }
  split.
  { destruct oeas as [l|]; [|apply length_zeros_like].
    apply Hlen, elem_of_state_locs. cbn. tauto. }
  split.
  { destruct oead as [l|]; [|apply length_zeros_like].
    apply Hlen, elem_of_state_locs. cbn. tauto. }
  destruct onpg as [l|].
  - destruct (decide (st = 1)).
    + now rewrite length_t_mul.
    + apply Hlen, elem_of_state_locs. cbn. tauto.
  - now rewrite length_t_mul.
Qed.

Lemma values_at_weaken (h h' : gmap loc (list F)) s v :
  h ⊆ h' -> values_at h s = Some v -> values_at h' s = Some v.
Proof.
  intros Hsub Hv. apply values_at_Some in Hv as (V0 & V1 & V2 & V3 & V4 & V5).
  apply values_at_Some. repeat split; eapply lookup_weaken; eauto.
Qed.

Lemma values_at_dom (h : gmap loc (list F)) s v l :
  values_at h s = Some v -> l ∈ slot_locs s -> l ∈ dom h.
Proof.
  intros Hv Hl. apply values_at_Some in Hv as (V0 & V1 & V2 & V3 & V4 & V5).
  unfold slot_locs in Hl. rewrite !elem_of_cons in Hl.
  rewrite elem_of_nil in Hl.
  destruct Hl as [->|[->|[->|[->|[->|[->|[]]]]]]];
    eapply elem_of_dom_2; eauto.
Qed.

(** [Forall2_impl], with the membership of the left element at hand *)
Lemma Forall2_impl_l {A B} (P Q : A -> B -> Prop) l k :
  Forall2 P l k -> (forall x y, x ∈ l -> P x y -> Q x y) -> Forall2 Q l k.
Proof.
  induction 1 as [|x y l k Hxy Hrest IH]; intros Himpl; constructor.
  - apply Himpl; [now left|exact Hxy].
  - apply IH. intros x' y' Hx'. apply Himpl. now right.
Qed.

(** Replacing the tensors of one parameter by its slot, in which what is
    not one of those tensors is new *)
Lemma NoDup_swap_fresh (A Hp N R : list loc) (D : gset loc) :
  NoDup (A ++ Hp ++ R) -> NoDup N ->
  (forall l, l ∈ N -> l ∈ Hp \/ l ∉ D) ->
  (forall l, l ∈ A -> l ∈ D) -> (forall l, l ∈ R -> l ∈ D) ->
  NoDup ((A ++ N) ++ R).
Proof.
  intros Hnd HN Horigin HA HR.
  apply NoDup_app in Hnd as (HndA & HA_out & Hnd).
  apply NoDup_app in Hnd as (_ & Hp_out & HndR).
  apply NoDup_app. split; [|split; [|exact HndR]].
  - apply NoDup_app. split; [exact HndA|]. split; [|exact HN].
    intros l Hl HlN. destruct (Horigin l HlN) as [Hin|Hout].
    + apply (HA_out l Hl). apply elem_of_app. now left.
    + apply Hout. now apply HA.
  - intros l Hl HlR. apply elem_of_app in Hl as [Hl|Hl].
    + apply (HA_out l Hl). apply elem_of_app. now right.
    + destruct (Horigin l Hl) as [Hin|Hout].
      * now apply (Hp_out l Hin).
      * apply Hout. now apply HR.
Qed.

(** What the loop over the parameters of a group finds for the parameter
    [p]: its slot [s], with the values the kernel starts from *)
Definition gathered_for (c : F) (st : nat) (w w' : World F) (p : Param)
    (s : slots) : Prop :=
  exists g tp tg,
    p_grad p = Some g /\ param_ready w p g tp tg
    /\ s_param s = p_data p /\ s_grad s = g
    /\ w_state w' !! p_data p = Some (state_of s)
    /\ values_at (w_heap w') s = Some (start_values c st w p tp tg).

(** The loop over the parameters of a group: it returns the lists of the
    slots of the parameters that have a gradient, in order. *)
Lemma gather_run c st ps :
  forall ss (w : World F),
    (forall p g, p ∈ ps -> p_grad p = Some g ->
       exists tp tg, param_ready w p g tp tg) ->
    NoDup ((ss ≫= slot_locs) ++ handled w ps) ->
    (forall l, l ∈ ss ≫= slot_locs -> l ∈ dom (w_heap w)) ->
    exists ss' w',
      gather c st (lists_of ss) ps w = (Ok (lists_of (ss ++ ss')), w')
      /\ w_defaults w' = w_defaults w /\ w_groups w' = w_groups w
      /\ w_heap w ⊆ w_heap w'
      /\ (forall k, (forall p, p ∈ ps -> is_Some (p_grad p) -> k ≠ p_data p) ->
            w_state w' !! k = w_state w !! k)
      /\ Forall2 (gathered_for c st w w')
           (filter (fun p => is_Some (p_grad p)) ps) ss'
      /\ NoDup ((ss ++ ss') ≫= slot_locs)
      /\ (forall l, l ∈ ss' ≫= slot_locs ->
            l ∈ handled w ps \/ l ∉ dom (w_heap w)).
Proof.
  induction ps as [|p ps IH]; intros ss w Hready Hnd Hdom.
  - exists [], w. rewrite app_nil_r. cbn [gather].
    split; [reflexivity|]. split; [reflexivity|]. split; [reflexivity|].
    split; [reflexivity|]. split; [reflexivity|].
    split; [constructor|]. split.
    + unfold handled in Hnd. cbn in Hnd. now rewrite app_nil_r in Hnd.
    + intros l Hl. cbn in Hl. now apply elem_of_nil in Hl.
  - destruct (p_grad p) as [g|] eqn:Hg.
    + (* a gradient: the parameter gets a slot *)
      destruct (Hready p g) as (tp & tg & Hpr); [now left|exact Hg|].
      assert (Hhandled : handled w (p :: ps) = handled_for w p ++ handled w ps).
      { unfold handled. cbn [mbind list_bind]. now rewrite Hg. }
      rewrite Hhandled in Hnd.
      assert (Hndp : NoDup (handled_for w p)).
      { apply NoDup_app in Hnd as (_ & _ & Hnd).
        now apply NoDup_app in Hnd as (Hnd & _). }
      destruct (gather_param_run c st ss p g tp tg w Hg Hpr Hndp)
        as (s & w1 & Hrun1 & Hsp & Hsg & Hd1 & Hgs1 & Hsub1 & Hst1 & Hstp
            & Hval & Hnds & Horigin1).
      assert (Hother : forall q, q ∈ ps -> is_Some (p_grad q) ->
                                 p_data q ≠ p_data p).
      { intros q Hq Hgq Heq.
        apply NoDup_app in Hnd as (_ & _ & Hnd).
        apply NoDup_app in Hnd as (_ & Hdisj & _).
        apply (Hdisj (p_data p)).
        - unfold handled_for. left.
        - apply elem_of_handled. exists q. repeat split; auto.
          rewrite <- Heq. unfold handled_for. left. }
      assert (Hstate_same : forall q, q ∈ ps -> is_Some (p_grad q) ->
                w_state w1 !! p_data q = w_state w !! p_data q).
      { intros q Hq Hgq. apply Hst1. now apply Hother. }
      assert (Hh1 : handled w1 ps = handled w ps) by (now apply handled_ext).
      destruct (IH (ss ++ [s]) w1)
        as (ss' & w' & Hrun & Hd & Hgs & Hsub & Hst & Hall & Hnd' & Horigin).
      { intros q gq Hq Hgq.
        destruct (Hready q gq) as (tq & tgq & Hq'); [now right|exact Hgq|].
        exists tq, tgq.
        apply (param_ready_weaken w); [exact Hsub1| |exact Hq'].
        apply Hstate_same; [exact Hq|]. rewrite Hgq; eauto. }
      { rewrite Hh1, bind_app. cbn [mbind list_bind]. rewrite app_nil_r.
        apply (NoDup_swap_fresh _ (handled_for w p) _ _ (dom (w_heap w)));
          auto.
        intros l Hl. apply elem_of_handled in Hl as (q & Hq & [gq Hgq] & Hl).
        destruct (Hready q gq) as (tq & tgq & Hq'); [now right|exact Hgq|].
        eapply handled_for_allocated; eauto. }
      { intros l Hl. rewrite bind_app in Hl. apply elem_of_app in Hl as [Hl|Hl].
        - eapply elem_of_weaken; [now apply Hdom|now apply subseteq_dom].
        - cbn [mbind list_bind] in Hl. rewrite app_nil_r in Hl.
          eapply values_at_dom; eauto. }
      exists (s :: ss'), w'.
      split.
      { cbn [gather]. rewrite (bind_ok _ _ _ _ _ Hrun1). rewrite Hrun.
        now rewrite <- app_assoc. }
      split; [congruence|]. split; [congruence|].
      split; [etrans; eauto|].
      split.
      { intros k Hk. rewrite Hst by (intros q Hq; apply Hk; now right).
        apply Hst1. apply Hk; [now left|]. rewrite Hg. eauto. }
      split.
      { rewrite filter_cons_True by (rewrite Hg; eauto). constructor.
        - exists g, tp, tg. split; [exact Hg|]. split; [exact Hpr|].
          split; [exact Hsp|]. split; [exact Hsg|]. split.
          + rewrite Hst; [exact Hstp|].
            intros q Hq Hgq. apply not_eq_sym, Hother; auto.
          + eapply values_at_weaken; eauto.
        - eapply Forall2_impl_l; [exact Hall|].
          intros q sq Hq (gq & tq & tgq & Hgq & Hprq & Hsq1 & Hsq2 & Hstq & Hvq).
          apply list_elem_of_filter in Hq as [_ Hq].
          destruct (Hready q gq) as (tq0 & tgq0 & Hq0); [now right|exact Hgq|].
          assert (tq = tq0) as ->.
          { pose proof (pr_param _ _ _ _ _ Hprq) as E1.
            pose proof (lookup_weaken _ _ _ _ (pr_param _ _ _ _ _ Hq0) Hsub1)
              as E2.
            congruence. }
          assert (tgq = tgq0) as ->.
          { pose proof (pr_grad _ _ _ _ _ Hprq) as E1.
            pose proof (lookup_weaken _ _ _ _ (pr_grad _ _ _ _ _ Hq0) Hsub1)
              as E2.
            congruence. }
          exists gq, tq0, tgq0. split; [exact Hgq|]. split; [exact Hq0|].
          split; [exact Hsq1|]. split; [exact Hsq2|]. split; [exact Hstq|].
          rewrite <- (start_values_ext c st w w1 q gq);
            [exact Hvq|exact Hsub1| |exact Hq0].
          apply Hstate_same; [exact Hq|]. rewrite Hgq; eauto. }
      split.
      { rewrite <- app_assoc in Hnd'. exact Hnd'. }
      intros l Hl. cbn [mbind list_bind] in Hl.
      apply elem_of_app in Hl as [Hl|Hl].
      * destruct (Horigin1 l Hl) as [Hin|Hout]; [left|now right].
        rewrite Hhandled. apply elem_of_app. now left.
      * destruct (Horigin l Hl) as [Hin|Hout].
        -- left. rewrite Hhandled. apply elem_of_app. right.
           now rewrite <- Hh1.
        -- right. intros Hin. apply Hout.
           eapply elem_of_weaken; [exact Hin|now apply subseteq_dom].
    + (* no gradient: the parameter is skipped *)
      destruct (IH ss w) as (ss' & w' & Hrun & Hd & Hgs & Hsub & Hst & Hall
                             & Hnd' & Horigin).
      { intros q gq Hq. apply Hready. now right. }
      { unfold handled in Hnd. cbn [mbind list_bind] in Hnd.
        rewrite Hg in Hnd. exact Hnd. }
      { exact Hdom. }
      exists ss', w'. split; [|split; [exact Hd|split; [exact Hgs|]]].
      { cbn [gather]. unfold gather_param at 1. rewrite Hg.
        rewrite bind_ret. exact Hrun. }
      split; [exact Hsub|]. split.
      { intros k Hk. apply Hst. intros q Hq. apply Hk. now right. }
      split.
      { rewrite filter_cons_False; [exact Hall|].
        rewrite Hg. intros [? ?]. discriminate. }
      split; [exact Hnd'|].
      intros l Hl. destruct (Horigin l Hl) as [Hin|Hout]; [left|now right].
      unfold handled. cbn [mbind list_bind]. rewrite Hg. exact Hin.
Qed.

End Gathering.

Section GroupRun.
Context {F : Type} `{Scalar F}.

(** The arguments [step] hands to the kernel for the group [g] *)
Definition kwargs (c : F) (g : Group F) (l : gathered) : kernel_args F :=
  let n := next_step g in
  {| params := params_with_grad l; grads := gr_grads l;
     exp_avgs := gr_exp_avgs l; exp_avg_sqs := gr_exp_avg_sqs l;
     exp_avg_diffs := gr_exp_avg_diffs l;
     neg_pre_grads := gr_neg_pre_grads l;
     beta1 := (g_betas g).1.1; beta2 := (g_betas g).1.2;
     beta3 := (g_betas g).2;
     bias_correction1 := (fone - fpow (g_betas g).1.1 n)%F;
     bias_correction2 := (fone - fpow (g_betas g).1.2 n)%F;
     bias_correction3_sqrt := fsqrt (fone - fpow (g_betas g).2 n)%F;
     lr := g_lr g; weight_decay := g_weight_decay g;
     eps := g_eps g; no_prox := default false (g_no_prox g); mc := g_mc g;
     clip_global_grad_norm := c |}.

(** What the kernel of the group makes of the values of one parameter *)
Definition updated (c : F) (g : Group F) (v : adan_values F)
  : adan_values F :=
  if g_foreach g then adan_equations_batched (kwargs c g no_lists) v
  else adan_equations (kwargs c g no_lists) v.

(** The hyperparameters of the group let its round go through: the powers
    [beta ** step] of this step do not overflow, the bias corrections can be
    divided by, [math.sqrt] gets no negative number, and the group has its
    [no_prox]. *)
Definition hyper_ready (g : Group F) : Prop :=
  powers_overflow g = false
  /\ feqb (fone - fpow (g_betas g).1.1 (next_step g))%F fzero = false
  /\ feqb (fone - fpow (g_betas g).1.2 (next_step g))%F fzero = false
  /\ fltb (fone - fpow (g_betas g).2 (next_step g))%F fzero = false
  /\ is_Some (g_no_prox g).

(** What the round of the group has made of the parameter [p]: its state
    has the four tensors of the slot [s], and the six tensors hold what the
    kernel computes from the values at the start. *)
Definition stepped_for (c : F) (g : Group F) (w w' : World F) (p : Param)
    (s : slots) : Prop :=
  exists g' tp tg,
    p_grad p = Some g' /\ w_heap w !! p_data p = Some tp
    /\ w_heap w !! g' = Some tg
    /\ s_param s = p_data p /\ s_grad s = g'
    /\ w_state w' !! p_data p = Some (state_of s)
    /\ values_at (w_heap w') s
       = Some (updated c g (start_values c (next_step g) w p tp tg)).

(** The slots of the lists read off [ss] are those of [ss]. *)
Lemma slots_at_lists c g ss i :
  slots_at (kwargs c g (lists_of ss)) i = ss !! i.
Proof.
  unfold slots_at, kwargs, lists_of.
  cbn [params grads exp_avgs exp_avg_sqs exp_avg_diffs neg_pre_grads
       params_with_grad gr_grads gr_exp_avgs gr_exp_avg_sqs gr_exp_avg_diffs
       gr_neg_pre_grads].
  rewrite !list_lookup_fmap. destruct (ss !! i) as [[]|]; reflexivity.
Qed.

Lemma all_locs_lists c g ss :
  all_locs (kwargs c g (lists_of ss)) ≡ₚ ss ≫= slot_locs.
Proof.
  unfold all_locs, kwargs, lists_of.
  cbn [params grads exp_avgs exp_avg_sqs exp_avg_diffs neg_pre_grads
       params_with_grad gr_grads gr_exp_avgs gr_exp_avg_sqs gr_exp_avg_diffs
       gr_neg_pre_grads].
  induction ss as [|s ss IH]; [reflexivity|].
  cbn [fmap list_fmap mbind list_bind]. rewrite <- IH.
  unfold slot_locs. cbn [app]. now rewrite <- !Permutation_middle.
Qed.

Lemma aligned_lists c g ss : aligned (kwargs c g (lists_of ss)).
Proof. unfold aligned, kwargs, lists_of. cbn. now rewrite !length_fmap. Qed.

(** Both kernels, as the group chooses *)
Lemma kernel_run (b : bool) (k : kernel_args F) (h : gmap loc (list F)) :
  kernel_ready k h ->
  exists h',
    (if b then _multi_tensor_adan k else _single_tensor_adan k) h = (Ok tt, h')
    /\ (forall i s v, slots_at k i = Some s -> values_at h s = Some v ->
          values_at h' s
          = Some (if b then adan_equations_batched k v else adan_equations k v))
    /\ (forall l, ~ in_lists k l -> h' !! l = h !! l).
Proof.
  intros Hready. destruct b.
  - now apply multi_tensor_adan_run.
  - now apply single_tensor_adan_run.
Qed.

(** The round of [step] for a group: it returns, every parameter with a
    gradient is updated by the kernel of the group, and nothing else changes
    but the step counter of the group. *)
Lemma step_group_run c gi g (w : World F) :
  w_groups w !! gi = Some g ->
  (forall p g', p ∈ g_params g -> p_grad p = Some g' ->
     exists tp tg, param_ready w p g' tp tg) ->
  NoDup (handled w (g_params g)) ->
  hyper_ready g ->
  exists w',
    step_group c gi w = (Ok tt, w')
    /\ w_defaults w' = w_defaults w
    /\ w_groups w' = alter (set_g_step (next_step g)) gi (w_groups w)
    /\ dom (w_heap w) ⊆ dom (w_heap w')
    /\ (forall l, l ∈ dom (w_heap w) -> l ∉ handled w (g_params g) ->
          w_heap w' !! l = w_heap w !! l)
    /\ (forall k, (forall p, p ∈ g_params g -> is_Some (p_grad p) ->
                     k ≠ p_data p) ->
          w_state w' !! k = w_state w !! k)
    /\ (forall p, p ∈ g_params g -> is_Some (p_grad p) ->
          exists s, stepped_for c g w w' p s
                    /\ forall l, l ∈ slot_locs s ->
                         l ∈ handled w (g_params g) \/ l ∉ dom (w_heap w)).
Proof.
  intros Hgi Hready Hnd (Hpow & Hb1 & Hb2 & Hb3 & [np Hnp]).
  set (w0 := set_groups (alter (set_g_step (next_step g)) gi (w_groups w)) w).
  destruct (gather_run c (next_step g) (g_params g) [] w0)
    as (ss & w2 & Hrun & Hd & Hgs & Hsub & Hst & Hall & Hnds & Horigin).
  { intros p g' Hp Hg'. destruct (Hready p g' Hp Hg') as (tp & tg & Hpr).
    exists tp, tg. now apply (param_ready_weaken w). }
  { exact Hnd. }
  { intros l Hl. now apply elem_of_nil in Hl. }
  cbn [app] in Hrun, Hnds.
  change (w_heap w0) with (w_heap w) in *.
  change (w_state w0) with (w_state w) in *.
  change (handled w0 (g_params g)) with (handled w (g_params g)) in *.
  assert (Hslot : forall p, p ∈ g_params g -> is_Some (p_grad p) ->
            exists i s, ss !! i = Some s
                        /\ gathered_for c (next_step g) w0 w2 p s).
  { intros p Hp Hg.
    assert (Hin : p ∈ filter (fun p => is_Some (p_grad p)) (g_params g))
      by (apply list_elem_of_filter; auto).
    apply list_elem_of_lookup in Hin as [i Hi].
    destruct (Forall2_lookup_l _ _ _ _ _ Hall Hi) as (s & Hs & Hps).
    eauto. }
  assert (Hrun0 :
            step_group c gi w
            = (let* l := gather c (next_step g) no_lists (g_params g) in
               if decide (params_with_grad l = []) then ret tt else
               if g_foreach g
               then on_heap (_multi_tensor_adan (kwargs c g l))
               else on_heap (_single_tensor_adan (kwargs c g l))) w0).
  { unfold step_group.
    eapply bind_step; [unfold get_group; apply index_ok; exact Hgi|].
    cbv beta. unfold kwargs, powers_overflow in *.
    destruct (g_betas g) as [[b1 b2] b3]. cbn [fst snd] in *.
    fold (next_step g).
    apply orb_false_elim in Hpow as [Hpow Hp3].
    apply orb_false_elim in Hpow as [Hp1 Hp2].
    eapply bind_step; [reflexivity|]. fold w0.
    eapply bind_step; [now apply run_py_pow|]. cbv beta.
    eapply bind_step; [now apply run_py_pow|]. cbv beta.
    eapply bind_step; [now apply run_py_pow|]. cbv beta.
    unfold bind.
    destruct (gather c (next_step g) no_lists (g_params g) w0)
      as [[l|e] w3]; [|reflexivity].
    destruct (decide (params_with_grad l = [])); [reflexivity|].
    unfold math_sqrt. rewrite Hb3. rewrite Hnp. reflexivity. }
  rewrite Hrun0. change no_lists with (lists_of []).
  rewrite (bind_ok _ _ _ _ _ Hrun).
  destruct ss as [|s0 ss'].
  - (* no parameter of the group has a gradient *)
    exists w2. split; [reflexivity|]. split; [exact Hd|].
    split; [exact Hgs|]. split; [now apply subseteq_dom|].
    split.
    { intros l Hl _. apply elem_of_dom in Hl as [x Hx].
      rewrite Hx. eapply lookup_weaken; eauto. }
    split; [exact Hst|].
    intros p Hp Hg. destruct (Hslot p Hp Hg) as (i & s & Hs & _).
    now rewrite lookup_nil in Hs.
  - set (ss := s0 :: ss') in *.
    set (k := kwargs c g (lists_of ss)).
    assert (Hperm : forall l, in_lists k l <-> l ∈ ss ≫= slot_locs).
    { intros l. unfold in_lists. fold (all_locs k).
      unfold k. now rewrite all_locs_lists. }
    assert (Hkr : kernel_ready k (w_heap w2)).
    { split.
      - apply aligned_lists.
      - unfold k. rewrite all_locs_lists. exact Hnds.
      - intros i s Hs. unfold k in Hs. rewrite slots_at_lists in Hs.
        destruct (Forall2_lookup_r _ _ _ _ _ Hall Hs) as (p & Hp & Hps).
        destruct Hps as (g' & tp & tg & Hg' & Hpr & _ & _ & _ & Hv).
        eexists. split; [exact Hv|]. eapply same_shapes_start; eauto.
      - exact Hb1.
      - exact Hb2. }
    destruct (kernel_run (g_foreach g) k (w_heap w2) Hkr)
      as (h' & Hk & Hvals & Hframe).
    exists (set_heap h' w2).
    split.
    { rewrite decide_False by discriminate.
      fold k. unfold on_heap.
      destruct (g_foreach g); now rewrite Hk. }
    cbn [w_defaults w_groups w_heap w_state set_heap].
    split; [exact Hd|]. split; [exact Hgs|].
    assert (Hkept : forall l, l ∈ dom (w_heap w) -> l ∈ dom h').
    { intros l Hl.
      assert (Hl2 : l ∈ dom (w_heap w2))
        by (eapply elem_of_weaken; [exact Hl|now apply subseteq_dom]).
      destruct (decide (l ∈ ss ≫= slot_locs)) as [Hin|Hout].
      - apply list_elem_of_bind in Hin as (s & Hls & Hs).
        apply list_elem_of_lookup in Hs as [i Hi].
        destruct (Forall2_lookup_r _ _ _ _ _ Hall Hi) as (p & Hp & Hps).
        destruct Hps as (g' & tp & tg & _ & _ & _ & _ & _ & Hv).
        eapply values_at_dom; [|exact Hls].
        apply (Hvals i); [|exact Hv]. unfold k. now rewrite slots_at_lists.
      - apply elem_of_dom. rewrite Hframe by (now rewrite Hperm).
        now apply elem_of_dom. }
    split; [exact Hkept|].
    split.
    { intros l Hl Hout. rewrite Hframe.
      - apply elem_of_dom in Hl as [x Hx]. rewrite Hx.
        eapply lookup_weaken; eauto.
      - rewrite Hperm. intros Hin.
        destruct (Horigin l Hin) as [Hh|Hfresh]; contradiction. }
    split; [exact Hst|].
    intros p Hp Hg. destruct (Hslot p Hp Hg) as (i & s & Hs & Hps).
    exists s. split.
    + destruct Hps as (g' & tp & tg & Hg' & Hpr & Hsp & Hsg & Hstate & Hv).
      exists g', tp, tg. split; [exact Hg'|].
      split; [exact (pr_param _ _ _ _ _ Hpr)|].
      split; [exact (pr_grad _ _ _ _ _ Hpr)|].
      split; [exact Hsp|]. split; [exact Hsg|]. split; [exact Hstate|].
      cbn [w_heap set_heap].
      erewrite (Hvals i s);
        [|unfold k; now rewrite slots_at_lists|exact Hv].
      unfold updated. now destruct (g_foreach g).
    + intros l Hl. apply Horigin. apply list_elem_of_bind. exists s.
      split; [exact Hl|]. eapply list_elem_of_lookup_2; eauto.
Qed.

Lemma a_grad_updated c g (v : adan_values F) :
  a_grad (updated c g v) = t_mul (a_grad v) c.
Proof. unfold updated. now destruct (g_foreach g). Qed.

End GroupRun.

Section StepRun.
Context {F : Type} `{Scalar F}.

(** In a concatenation without duplicates, the pieces have no duplicates and
    are disjoint. *)
Lemma NoDup_bind_lookup {A B} (f : A -> list B) (l : list A) :
  NoDup (l ≫= f) ->
  (forall i x, l !! i = Some x -> NoDup (f x))
  /\ (forall i j x y b, i ≠ j -> l !! i = Some x -> l !! j = Some y ->
        b ∈ f x -> b ∉ f y).
Proof.
  induction l as [|a l IH]; intros Hnd.
  - split; intros; now rewrite lookup_nil in *.
  - cbn [mbind list_bind] in Hnd.
    apply NoDup_app in Hnd as (Ha & Hdisj & Hnd).
    destruct (IH Hnd) as [IH1 IH2]. split.
    + intros [|i] x Hx; simpl in Hx.
      * now injection Hx as <-.
      * now apply (IH1 i).
    + intros [|i] [|j] x y b Hij Hx Hy Hb; simpl in Hx, Hy.
      * congruence.
      * injection Hx as <-. intros Hby. apply (Hdisj b Hb).
        apply list_elem_of_bind. exists y. split; [exact Hby|].
        eapply list_elem_of_lookup_2; eauto.
      * injection Hy as <-. intros Hby. apply (Hdisj b Hby).
        apply list_elem_of_bind. exists x. split; [exact Hb|].
        eapply list_elem_of_lookup_2; eauto.
      * apply (IH2 i j x y b); auto.
Qed.

(** What [step] works on, in all the groups *)
Definition all_handled (w : World F) : list loc :=
  g ← w_groups w; handled w (g_params g).

(** The optimizer is ready for a step: the tensors of the parameters that
    have a gradient exist, with the shape of the parameter, no tensor is
    used twice, and the hyperparameters of the groups let the kernels run. *)
Record step_ready (w : World F) : Prop := {
  sr_params :
    forall g p g', g ∈ w_groups w -> p ∈ g_params g -> p_grad p = Some g' ->
      exists tp tg, param_ready w p g' tp tg;
  sr_distinct : NoDup (all_handled w);
  sr_hyper : forall g, g ∈ w_groups w -> hyper_ready g
}.

Lemma param_ready_agree (w w' : World F) p g tp tg :
  p_grad p = Some g ->
  w_state w' !! p_data p = w_state w !! p_data p ->
  (forall l, l ∈ handled_for w p -> w_heap w' !! l = w_heap w !! l) ->
  param_ready w p g tp tg -> param_ready w' p g tp tg.
Proof.
  intros Hg Hst Hheap [Hp Hgr Hshape Hstate Hmom].
  unfold handled_for in Hheap. rewrite Hg in Hheap.
  cbn [option_list app] in Hheap. split.
  - rewrite Hheap; [exact Hp|]. now left.
  - rewrite Hheap; [exact Hgr|]. right. now left.
  - exact Hshape.
  - now rewrite Hst.
  - rewrite Hst. intros l Hl. rewrite Hheap; [now apply Hmom|].
    right. now right.
Qed.

Lemma start_values_agree c st (w w' : World F) p tp tg :
  w_state w' !! p_data p = w_state w !! p_data p ->
  (forall l, l ∈ state_locs (w_state w !! p_data p) ->
     w_heap w' !! l = w_heap w !! l) ->
  start_values c st w' p tp tg = start_values c st w p tp tg.
Proof.
  intros Hst Hsame. unfold start_values. rewrite Hst.
  rewrite <- state_locs_default in Hsame.
  destruct (default empty_state (w_state w !! p_data p))
    as [oea oeas oead onpg].
  cbn [exp_avg exp_avg_sq exp_avg_diff neg_pre_grad].
  f_equal.
  - destruct oea as [l|]; [|reflexivity].
    rewrite Hsame; [reflexivity|]. apply elem_of_state_locs. cbn. tauto.
  - destruct oeas as [l|]; [|reflexivity].
    rewrite Hsame; [reflexivity|]. apply elem_of_state_locs. cbn. tauto.
  - destruct oead as [l|]; [|reflexivity].
    rewrite Hsame; [reflexivity|]. apply elem_of_state_locs. cbn. tauto.
  - destruct onpg as [l|]; [|reflexivity].
    rewrite Hsame; [reflexivity|]. apply elem_of_state_locs. cbn. tauto.
Qed.

Lemma values_at_agree (h h' : gmap loc (list F)) s :
  (forall l, l ∈ slot_locs s -> h' !! l = h !! l) ->
  values_at h' s = values_at h s.
Proof.
  intros Hsame. unfold values_at.
  rewrite !Hsame by (unfold slot_locs; rewrite !elem_of_cons; tauto).
  reflexivity.
Qed.

Section Loop.

(** [w1] is the optimizer when the loop over the groups starts and [c] the
    clip factor. *)
Variable w1 : World F.
Variable c : F.
Hypothesis ready : step_ready w1.

Lemma group_distinct gi g :
  w_groups w1 !! gi = Some g -> NoDup (handled w1 (g_params g)).
Proof.
  intros Hg. exact (proj1 (NoDup_bind_lookup _ _ (sr_distinct _ ready)) gi g Hg).
Qed.

Lemma groups_apart gi gj g g' l :
  gi ≠ gj -> w_groups w1 !! gi = Some g -> w_groups w1 !! gj = Some g' ->
  l ∈ handled w1 (g_params g) -> l ∉ handled w1 (g_params g').
Proof.
  intros Hne Hg Hg'.
  exact (proj2 (NoDup_bind_lookup _ _ (sr_distinct _ ready)) gi gj g g' l
           Hne Hg Hg').
Qed.

Lemma handled_allocated gi g l :
  w_groups w1 !! gi = Some g -> l ∈ handled w1 (g_params g) ->
  l ∈ dom (w_heap w1).
Proof.
  intros Hg Hl. apply elem_of_handled in Hl as (p & Hp & [g' Hg'] & Hl).
  destruct (sr_params _ ready g p g') as (tp & tg & Hpr); auto.
  { eapply list_elem_of_lookup_2; eauto. }
  eapply handled_for_allocated; eauto.
Qed.

Lemma data_handled (p : Param) ps :
  p ∈ ps -> is_Some (p_grad p) -> p_data p ∈ handled w1 ps.
Proof.
  intros Hp Hg. apply elem_of_handled. exists p.
  split; [exact Hp|]. split; [exact Hg|]. unfold handled_for. now left.
Qed.

(** The groups in [done] have had their round; the others are as at the
    start. *)
Definition rounds (done : list nat) (w : World F) : Prop :=
  dom (w_heap w1) ⊆ dom (w_heap w)
  /\ (forall gi, gi ∉ done -> w_groups w !! gi = w_groups w1 !! gi)
  /\ (forall gi g p, gi ∉ done -> w_groups w1 !! gi = Some g ->
        p ∈ g_params g -> is_Some (p_grad p) ->
        w_state w !! p_data p = w_state w1 !! p_data p
        /\ forall l, l ∈ handled_for w1 p -> w_heap w !! l = w_heap w1 !! l)
  /\ (forall gi g p, gi ∈ done -> w_groups w1 !! gi = Some g ->
        p ∈ g_params g -> is_Some (p_grad p) ->
        exists s, stepped_for c g w1 w p s
                  /\ forall l, l ∈ slot_locs s ->
                       l ∈ handled w1 (g_params g) \/ l ∉ dom (w_heap w1)).

Lemma rounds_start : rounds [] w1.
Proof.
  split; [reflexivity|]. split; [reflexivity|]. split; [auto|].
  intros gi g p Hin. now apply elem_of_nil in Hin.
Qed.

(** The round of a group that has not had one keeps the invariant. *)
Lemma rounds_step done gi :
  gi ∉ done -> gi < length (w_groups w1) ->
  hoare (rounds done) (step_group c gi) (fun _ => rounds (done ++ [gi]))
    (fun _ => False).
Proof.
  intros Hnew Hlt w (Hdom & Hgroups & Hpending & Hdone).
  destruct (lookup_lt_is_Some_2 _ _ Hlt) as [g Hg].
  assert (Hgin : g ∈ w_groups w1) by (eapply list_elem_of_lookup_2; eauto).
  assert (Hgw : w_groups w !! gi = Some g) by (now rewrite Hgroups).
  assert (Hh : handled w (g_params g) = handled w1 (g_params g)).
  { apply handled_ext. intros p Hp Hgp.
    now destruct (Hpending gi g p Hnew Hg Hp Hgp). }
  destruct (step_group_run c gi g w Hgw)
    as (w' & Hrun & Hd & Hgs & Hdom' & Hheap & Hstate & Hstepped).
  { intros p g' Hp Hg'.
    destruct (sr_params _ ready g p g' Hgin Hp Hg') as (tp & tg & Hpr).
    exists tp, tg.
    destruct (Hpending gi g p Hnew Hg Hp) as [Hst Hsame];
      [rewrite Hg'; eauto|].
    now apply (param_ready_agree w1). }
  { rewrite Hh. now apply (group_distinct gi). }
  { now apply (sr_hyper _ ready). }
  rewrite Hrun. rewrite Hh in Hheap.
  (* what the round of [gi] leaves alone *)
  assert (Hkeys : forall gj g' q, gj ≠ gi -> w_groups w1 !! gj = Some g' ->
            q ∈ g_params g' -> is_Some (p_grad q) ->
            w_state w' !! p_data q = w_state w !! p_data q).
  { intros gj g' q Hne Hg' Hq Hgq. apply Hstate. intros p Hp Hgp Heq.
    apply (groups_apart gj gi g' g (p_data q) Hne Hg' Hg).
    - now apply data_handled.
    - rewrite Heq. now apply data_handled. }
  split; [etrans; eauto|]. split; [|split].
  - intros gj Hgj. rewrite not_elem_of_app in Hgj. destruct Hgj as [Hgj Hne].
    rewrite not_elem_of_cons in Hne. destruct Hne as [Hne _].
    rewrite Hgs, list_lookup_alter_ne by auto. now apply Hgroups.
  - intros gj g' q Hgj Hg' Hq Hgq.
    rewrite not_elem_of_app in Hgj. destruct Hgj as [Hgj Hne].
    rewrite not_elem_of_cons in Hne. destruct Hne as [Hne _].
    destruct (Hpending gj g' q Hgj Hg' Hq Hgq) as [Hst Hsame].
    split.
    + rewrite (Hkeys gj g' q); auto.
    + intros l Hl.
      assert (Hlh : l ∈ handled w1 (g_params g')).
      { apply elem_of_handled. exists q. auto. }
      rewrite Hheap; [now apply Hsame| |].
      * apply elem_of_dom. rewrite (Hsame l Hl). apply elem_of_dom.
        now apply (handled_allocated gj g').
      * now apply (groups_apart gj gi g' g).
  - intros gj g' q Hgj Hg' Hq Hgq.
    apply elem_of_app in Hgj as [Hgj|Hgj].
    + (* a group that had its round before *)
      assert (Hne : gj ≠ gi) by (intros ->; contradiction).
      destruct (Hdone gj g' q Hgj Hg' Hq Hgq) as (s & Hs & Horigin).
      exists s. split; [|exact Horigin].
      destruct Hs as (gl & tp & tg & Hgl & Hp & Hgr & Hsp & Hsg & Hst & Hv).
      exists gl, tp, tg. split; [exact Hgl|]. split; [exact Hp|].
      split; [exact Hgr|]. split; [exact Hsp|]. split; [exact Hsg|].
      split.
      * rewrite (Hkeys gj g' q); auto.
      * rewrite <- Hv. apply values_at_agree. intros l Hl.
        apply Hheap.
        -- eapply values_at_dom; eauto.
        -- destruct (Horigin l Hl) as [Hin|Hout].
           ++ now apply (groups_apart gj gi g' g).
           ++ intros Hin. apply Hout. now apply (handled_allocated gi g).
    + (* the group of this round *)
      apply list_elem_of_singleton in Hgj as ->.
      rewrite Hg in Hg'. injection Hg' as <-.
      destruct (Hstepped q Hq Hgq) as (s & Hs & Horigin).
      destruct (Hpending gi g q Hnew Hg Hq Hgq) as [Hst Hsame].
      exists s. split.
      * destruct Hs as (gl & tp & tg & Hgl & Hp & Hgr & Hsp & Hsg & Hst' & Hv).
        assert (Hin : forall l, l ∈ state_locs (w_state w1 !! p_data q) ->
                        l ∈ handled_for w1 q).
        { intros l Hl. unfold handled_for. right. apply elem_of_app. now right. }
        exists gl, tp, tg. split; [exact Hgl|].
        split; [rewrite <- Hsame; [exact Hp|unfold handled_for; now left]|].
        split.
        { rewrite <- Hsame; [exact Hgr|]. unfold handled_for. rewrite Hgl.
          right. now left. }
        split; [exact Hsp|]. split; [exact Hsg|]. split; [exact Hst'|].
        rewrite Hv. do 2 f_equal. apply start_values_agree; [exact Hst|].
        intros l Hl. apply Hsame. now apply Hin.
      * intros l Hl. destruct (Horigin l Hl) as [Hin|Hout].
        -- left. now rewrite <- Hh.
        -- right. intros Hin. apply Hout.
           eapply elem_of_weaken; [exact Hin|exact Hdom].
Qed.

(** The loop over the groups returns, every group having had its round. *)
Lemma for_each_group_run :
  exists w',
    for_each_group (step_group c) w1 = (Ok tt, w')
    /\ rounds (seq 0 (length (w_groups w1))) w'.
Proof.
  pose proof (hoare_for_each_prefix rounds (step_group c)
                (seq 0 (length (w_groups w1))) (fun _ => False)) as Hloop.
  unfold for_each_group.
  specialize (Hloop).
  assert (Hbody : forall l1 x l2,
            seq 0 (length (w_groups w1)) = l1 ++ x :: l2 ->
            hoare (rounds l1) (step_group c x)
              (fun _ => rounds (l1 ++ [x])) (fun _ => False)).
  { intros l1 x l2 Heq. apply rounds_step.
    - pose proof (NoDup_seq 0 (length (w_groups w1))) as Hnd.
      rewrite Heq in Hnd. apply NoDup_app in Hnd as (_ & Hdisj & _).
      intros Hin. apply (Hdisj x Hin). now left.
    - assert (Hin : x ∈ seq 0 (length (w_groups w1))).
      { rewrite Heq. apply elem_of_app. right. now left. }
      apply elem_of_seq in Hin. lia. }
  specialize (Hloop Hbody w1 rounds_start).
  destruct (for_each (step_group c) (seq 0 (length (w_groups w1))) w1)
    as [[[]|e] w']; [|contradiction].
  exists w'. split; [reflexivity|exact Hloop].
Qed.

End Loop.

(** C3: take a call of [step] whose closure, if any, has returned, leaving
    the optimizer ready for a step (the tensors of the parameters with a
    gradient exist, have the shape of the parameter and are all different,
    and the hyperparameters of the groups let the kernels run), with a first
    parameter in the first group when [max_grad_norm > 0].  Then the
    clipping pass returns
    [min(max_grad_norm / (sqrt(Σ grad_i²) + eps), 1.0)] when
    [max_grad_norm > 0], the sum being over the gradients that are present
    in all the groups and [eps] being that of the last group, and [1.0]
    otherwise; [step] returns; and with this one factor [c], in every
    group, the gradient [tg] of every parameter that has one ends as
    [tg * c], and the parameter, its four state tensors and the gradient
    hold what the kernel of the group computes from [tg * c]: the values of
    the update equations, taken at the values the kernel starts from. *)
Theorem step_clips_every_gradient :
  forall (closure : option (M (World F) F)) (w w1 : World F)
         (loss : option F) (ts : list (list F)),
    call_closure closure w = (Ok loss, w1) ->
    step_ready w1 ->
    Forall2 (fun l t => w_heap w1 !! l = Some t)
      (present_grads (w_groups w1)) ts ->
    (fltb fzero (d_max_grad_norm (w_defaults w1)) = true ->
     exists g0 p0, w_groups w1 !! 0 = Some g0 /\ g_params g0 !! 0 = Some p0) ->
    let c := spec_clip_factor (d_max_grad_norm (w_defaults w1))
               (last_eps (w_groups w1)) ts in
    clip_pass w1 = (Ok c, w1)
    /\ exists w',
         step closure w = (Ok loss, w')
         /\ forall gi g p gl tg,
              w_groups w1 !! gi = Some g -> p ∈ g_params g ->
              p_grad p = Some gl -> w_heap w1 !! gl = Some tg ->
              w_heap w' !! gl = Some (t_mul tg c)
              /\ exists s, stepped_for c g w1 w' p s.
Proof.
  intros closure w w1 loss ts Hc Hready Hts Hfirst c.
  pose proof (clip_pass_run w1 ts Hts Hfirst) as Hclip. fold c in Hclip.
  split; [exact Hclip|].
  destruct (for_each_group_run w1 c Hready) as (w' & Hloop & Hrounds).
  exists w'. split.
  - unfold step. rewrite (bind_ok _ _ _ _ _ Hc).
    rewrite (bind_ok _ _ _ _ _ Hclip). now rewrite (bind_ok _ _ _ _ _ Hloop).
  - intros gi g p gl tg Hg Hp Hgl Htg.
    destruct Hrounds as (_ & _ & _ & Hdone).
    assert (Hin : gi ∈ seq 0 (length (w_groups w1))).
    { apply elem_of_seq. pose proof (lookup_lt_Some _ _ _ Hg). lia. }
    assert (Hsome : is_Some (p_grad p)) by (rewrite Hgl; eauto).
    destruct (Hdone gi g p Hin Hg Hp Hsome) as (s & Hs & _).
    split; [|eauto].
    destruct Hs as (gl' & tp & tg' & Hgl' & Hp' & Hgr & Hsp & Hsg & Hst & Hv).
    rewrite Hgl in Hgl'. injection Hgl' as <-.
    rewrite Htg in Hgr. injection Hgr as <-.
    apply values_at_Some in Hv as (_ & Hv & _).
    rewrite Hsg in Hv. rewrite Hv. now rewrite a_grad_updated.
Qed.

(** The gradients of an optimizer that is ready for a step have values. *)
Lemma present_grads_values (w : World F) :
  step_ready w ->
  exists ts,
    Forall2 (fun l t => w_heap w !! l = Some t) (present_grads (w_groups w)) ts.
Proof.
  intros Hready.
  assert (Hall : Forall (fun l => is_Some (w_heap w !! l))
                   (present_grads (w_groups w))).
  { apply Forall_forall. intros l Hl.
    apply list_elem_of_bind in Hl as (g & Hl & Hg).
    apply list_elem_of_omap in Hl as (p & Hp & Hgrad).
    destruct (sr_params _ Hready g p l Hg Hp Hgrad) as (tp & tg & Hpr).
    rewrite (pr_grad _ _ _ _ _ Hpr). eauto. }
  induction Hall as [|l ls [t Ht] _ (ts & IH)].
  - exists []. constructor.
  - exists (t :: ts). now constructor.
Qed.

(** The values the kernel starts from have the seed as [neg_pre_grad] at
    the first step of the group and when the state has none. *)
Lemma start_values_seeded c st (w : World F) p tp tg :
  st = 1 \/ neg_pre_grad (default empty_state (w_state w !! p_data p)) = None ->
  a_neg_pre_grad (start_values c st w p tp tg) = t_mul tg (- c)%F.
Proof.
  intros Hcond. unfold start_values. cbn [a_neg_pre_grad].
  destruct (neg_pre_grad (default empty_state (w_state w !! p_data p)))
    as [l|]; [|reflexivity].
  destruct Hcond as [->|Hnone]; [|discriminate].
  now rewrite decide_True.
Qed.

(** C6: take a call of [step] whose closure, if any, has returned, leaving
    the optimizer ready for a step, with a first parameter in the first group
    when [max_grad_norm > 0].  Then the clipping pass returns a factor [c],
    [step] returns, and for every parameter [p] with a gradient [tg] in a
    group whose step counter, once incremented by this call, is 1, or whose
    state has no [neg_pre_grad] when the call starts: the kernel of the
    group has run for [p] from values [v] in which [neg_pre_grad] is
    [tg * (-c)], the gradient being the one before clipping, and the
    tensors of [p] and of its state, [neg_pre_grad] included, hold what the
    update equations make of [v]. *)
Theorem step_seeds_neg_pre_grad :
  forall (closure : option (M (World F) F)) (w w1 : World F)
         (loss : option F),
    call_closure closure w = (Ok loss, w1) ->
    step_ready w1 ->
    (fltb fzero (d_max_grad_norm (w_defaults w1)) = true ->
     exists g0 p0, w_groups w1 !! 0 = Some g0 /\ g_params g0 !! 0 = Some p0) ->
    exists c w',
      clip_pass w1 = (Ok c, w1)
      /\ step closure w = (Ok loss, w')
      /\ forall gi g p gl tp tg,
           w_groups w1 !! gi = Some g -> p ∈ g_params g ->
           p_grad p = Some gl ->
           w_heap w1 !! p_data p = Some tp -> w_heap w1 !! gl = Some tg ->
           next_step g = 1
           \/ neg_pre_grad (default empty_state (w_state w1 !! p_data p))
              = None ->
           exists s v,
             v = start_values c (next_step g) w1 p tp tg
             /\ a_param v = tp /\ a_grad v = tg
             /\ a_neg_pre_grad v = t_mul tg (- c)%F
             /\ s_param s = p_data p /\ s_grad s = gl
             /\ w_state w' !! p_data p = Some (state_of s)
             /\ values_at (w_heap w') s = Some (updated c g v).
Proof.
  intros closure w w1 loss Hc Hready Hfirst.
  destruct (present_grads_values w1 Hready) as [ts Hts].
  pose proof (clip_pass_run w1 ts Hts Hfirst) as Hclip.
  set (c := spec_clip_factor _ _ _) in Hclip.
  destruct (for_each_group_run w1 c Hready) as (w' & Hloop & Hrounds).
  exists c, w'. split; [exact Hclip|]. split.
  - unfold step. rewrite (bind_ok _ _ _ _ _ Hc).
    rewrite (bind_ok _ _ _ _ _ Hclip). now rewrite (bind_ok _ _ _ _ _ Hloop).
  - intros gi g p gl tp tg Hg Hp Hgl Htp Htg Hcond.
    destruct Hrounds as (_ & _ & _ & Hdone).
    assert (Hin : gi ∈ seq 0 (length (w_groups w1))).
    { apply elem_of_seq. pose proof (lookup_lt_Some _ _ _ Hg). lia. }
    assert (Hsome : is_Some (p_grad p)) by (rewrite Hgl; eauto).
    destruct (Hdone gi g p Hin Hg Hp Hsome) as (s & Hs & _).
    destruct Hs as (gl' & tp' & tg' & Hgl' & Hp' & Hgr & Hsp & Hsg & Hst & Hv).
    rewrite Hgl in Hgl'. injection Hgl' as <-.
    rewrite Htp in Hp'. injection Hp' as <-.
    rewrite Htg in Hgr. injection Hgr as <-.
    exists s, (start_values c (next_step g) w1 p tp tg).
    split; [reflexivity|]. split; [reflexivity|]. split; [reflexivity|].
    split; [now apply start_values_seeded|].
    split; [exact Hsp|]. split; [exact Hsg|]. split; [exact Hst|exact Hv].
Qed.

End StepRun.


(** ** Runs on the sample optimizers *)

(** C4, counterexample: with [lr = nan] and every other hyperparameter in
    range, [__init__] raises, although no beta is outside [0,1) and none
    of [lr], [eps], [max_grad_norm] is negative. *)
Lemma init_rejects_nan_lr :
  __init__ Samples.one_group [] nan (0.5, 0.5, 0.5)%float 0%float 0%float
    0%float true true true
  = Raise (ValueError "Invalid learning rate")
  /\ spec_invalid nan (0.5, 0.5, 0.5)%float 0%float 0%float = false.
Proof. split; reflexivity. Qed.

Lemma step_IndexError_on_empty_first_group_witness :
  step None Samples.hollow_world = (Raise IndexError, Samples.hollow_world).
Proof.
  apply (step_IndexError_on_empty_first_group None Samples.hollow_world
           Samples.hollow_world None
           (Samples.group_of (Samples.hyper 1) [])); reflexivity.
Defined.

Lemma step_skips_parameter_without_gradient_witness :
  let w' := (step None Samples.mixed_world).2 in
  w_heap w' !! 0 = w_heap Samples.mixed_world !! 0
  /\ w_state w' !! 0 = w_state Samples.mixed_world !! 0
  /\ forall l, l ∈ state_locs (w_state Samples.mixed_world !! 0) ->
               w_heap w' !! l = w_heap Samples.mixed_world !! l.
Proof.
  apply (step_skips_parameter_without_gradient None Samples.mixed_world
           Samples.mixed_world None Samples.mixed_group Samples.frozen_param).
  - reflexivity.
  - apply list_elem_of_singleton. reflexivity.
  - left.
  - reflexivity.
  - intros l Hl. apply list_elem_of_singleton in Hl. subst l.
    exists [1%float]. reflexivity.
  - intros g' q Hg' Hq Hgrad l Hl Hin.
    apply list_elem_of_singleton in Hg'. subst g'.
    apply list_elem_of_singleton in Hin. subst l.
    apply elem_of_cons in Hq as [->|Hq].
    + destruct Hgrad as [x Hx]. discriminate.
    + apply list_elem_of_singleton in Hq. subst q.
      apply elem_of_cons in Hl as [Hl|Hl]; [discriminate|].
      apply elem_of_cons in Hl as [Hl|Hl]; [discriminate|].
      inversion Hl.
Defined.

(** C1, the failing run: one call of [step] on the same parameter, the same
    gradient and the same hyperparameters, with moment centralization on.
    Both kernels return normally and keep the first moment in the same state
    tensor, but the scalar kernel leaves [exp_avg = [1, 2]] there (it
    centralizes a copy) while the batched kernel leaves
    [exp_avg = [-0.5, 0.5]] (it centralizes the state tensor in place). *)
Theorem kernels_disagree_on_exp_avg :
  (step None (Samples.kernel_world false)).1 = Ok None
  /\ (step None (Samples.kernel_world true)).1 = Ok None
  /\ exp_avg <$> w_state (step None (Samples.kernel_world false)).2 !! 0
     = Some (Some 2)
  /\ exp_avg <$> w_state (step None (Samples.kernel_world true)).2 !! 0
     = Some (Some 2)
  /\ w_heap (step None (Samples.kernel_world false)).2 !! 2
     = Some [1%float; 2%float]
  /\ w_heap (step None (Samples.kernel_world true)).2 !! 2
     = Some [(-0.5)%float; 0.5%float].
Proof. repeat split; vm_compute; reflexivity. Qed.

Lemma single_tensor_adan_computes_equations_witness :
  exists h',
    _single_tensor_adan Samples.args Samples.store = (Ok tt, h')
    /\ (forall i s v,
          slots_at Samples.args i = Some s ->
          values_at Samples.store s = Some v ->
          values_at h' s = Some (adan_equations Samples.args v))
    /\ (forall l, ~ in_lists Samples.args l -> h' !! l = Samples.store !! l).
Proof.
  apply (single_tensor_adan_computes_equations Samples.args Samples.store).
  split.
  - repeat split; reflexivity.
  - apply (bool_decide_unpack (NoDup (all_locs Samples.args))).
    vm_compute. exact Logic.I.
  - intros i s Hs. destruct i as [|i]; [|discriminate].
    inversion Hs; subst s.
    exists {| a_param := [1%float; 2%float]; a_grad := [2%float; 4%float];
              a_exp_avg := [0%float; 0%float];
              a_exp_avg_sq := [0%float; 0%float];
              a_exp_avg_diff := [0%float; 0%float];
              a_neg_pre_grad := [(-2)%float; (-4)%float] |}.
    split; [reflexivity|]. repeat split; reflexivity.
  - reflexivity.
  - reflexivity.
Defined.

Lemma restart_opt_zeroes_moments_witness :
  exists w',
    restart_opt Samples.mixed_world = (Ok tt, w')
    /\ (forall g, g ∈ w_groups w' -> g_step g = Some 0)
    /\ g_params <$> w_groups w' = g_params <$> w_groups Samples.mixed_world
    /\ forall g p,
         g ∈ w_groups w' -> p ∈ g_params g -> p_requires_grad p = true ->
         exists s t,
           w_state w' !! p_data p = Some s
           /\ w_heap w' !! p_data p = Some t
           /\ holds_zeros (w_heap w') t (exp_avg s)
           /\ holds_zeros (w_heap w') t (exp_avg_sq s)
           /\ holds_zeros (w_heap w') t (exp_avg_diff s).
Proof.
  apply (restart_opt_zeroes_moments Samples.mixed_world).
  intros g p Hg Hp _.
  apply list_elem_of_singleton in Hg. subst g.
  apply elem_of_cons in Hp as [->|Hp].
  - exists [1%float]. reflexivity.
  - apply list_elem_of_singleton in Hp. subst p.
    exists [1%float; 2%float]. reflexivity.
Defined.

Lemma step_clips_every_gradient_witness :
  let c := spec_clip_factor 1%float (last_eps (w_groups Samples.clipped_world))
             [[3%float; 4%float]; [12%float]] in
  clip_pass Samples.clipped_world = (Ok c, Samples.clipped_world)
  /\ exists w',
       step None Samples.clipped_world = (Ok None, w')
       /\ forall gi g p gl tg,
            w_groups Samples.clipped_world !! gi = Some g -> p ∈ g_params g ->
            p_grad p = Some gl ->
            w_heap Samples.clipped_world !! gl = Some tg ->
            w_heap w' !! gl = Some (t_mul tg c)
            /\ exists s, stepped_for c g Samples.clipped_world w' p s.
Proof.
  apply (step_clips_every_gradient None Samples.clipped_world
           Samples.clipped_world None [[3%float; 4%float]; [12%float]]).
  - reflexivity.
  - split.
    + intros g p g' Hg Hp Hg'.
      apply elem_of_cons in Hg as [->|Hg];
        [|apply list_elem_of_singleton in Hg; subst g];
        apply list_elem_of_singleton in Hp; subst p;
        injection Hg' as <-.
      * exists [1%float; 2%float], [3%float; 4%float].
        split; try reflexivity; [now left|].
        intros l Hl. inversion Hl.
      * exists [1%float], [12%float].
        split; try reflexivity; [now left|].
        intros l Hl. inversion Hl.
    + apply (bool_decide_unpack (NoDup (all_handled Samples.clipped_world))).
      vm_compute. exact Logic.I.
    + intros g Hg.
      apply elem_of_cons in Hg as [->|Hg];
        [|apply list_elem_of_singleton in Hg; subst g];
        (repeat split; [reflexivity..|now exists true]).
  - repeat constructor.
  - intros _. exists Samples.clipped_group_a, Samples.clipped_param_a.
    split; reflexivity.
Defined.

(** C5, counterexamples.  In both optimizers the only parameter of the only
    group has no gradient.  In the first, [step] returns normally and the
    step counter of the group, absent before, is 1 afterwards.  In the
    second, whose group has a first beta of [2 ** 700] and the step counter
    1, [step] raises OverflowError, and the step counter is 2 afterwards. *)
Lemma step_touches_a_group_without_gradients :
  (p_grad <$> (w_groups Samples.frozen_world ≫= g_params) = [None]
   /\ g_step <$> w_groups Samples.frozen_world = [None]
   /\ (step None Samples.frozen_world).1 = Ok None
   /\ g_step <$> w_groups (step None Samples.frozen_world).2 = [Some 1])
  /\ (p_grad <$> (w_groups Samples.overflow_world ≫= g_params) = [None]
      /\ g_step <$> w_groups Samples.overflow_world = [Some 1]
      /\ (step None Samples.overflow_world).1 = Raise OverflowError
      /\ g_step <$> w_groups (step None Samples.overflow_world).2
         = [Some 2]).
Proof. repeat split; vm_compute; reflexivity. Qed.

Lemma step_without_gradients_in_group_witness :
  let g := Samples.group_of (Samples.hyper 0) [Samples.frozen_param] in
  let w' := (step None Samples.frozen_world).2 in
  (forall p, p ∈ g_params g ->
     w_heap w' !! p_data p = w_heap Samples.frozen_world !! p_data p
     /\ w_state w' !! p_data p = w_state Samples.frozen_world !! p_data p
     /\ forall l, l ∈ state_locs (w_state Samples.frozen_world !! p_data p) ->
          w_heap w' !! l = w_heap Samples.frozen_world !! l)
  /\ (w_groups w' !! 0 = Some g
      \/ w_groups w' !! 0 = Some (set_g_step (next_step g) g))
  /\ (forall r, (step None Samples.frozen_world).1 = Ok r ->
        r = None /\ w_groups w' !! 0 = Some (set_g_step (next_step g) g))
  /\ (forall c w2,
       (clip_pass Samples.frozen_world).1 = Ok c ->
       for_each (step_group c) (seq 0 0) Samples.frozen_world = (Ok tt, w2) ->
       let w3 :=
         set_groups (alter (set_g_step (next_step g)) 0 (w_groups w2)) w2 in
       step None Samples.frozen_world
       = if powers_overflow g then (Raise OverflowError, w3)
         else (for_each (step_group c)
                 (seq 1 (length (w_groups Samples.frozen_world) - 1)) >>
               ret None) w3)
  /\ ((forall g' p, g' ∈ w_groups Samples.frozen_world -> p ∈ g_params g' ->
        p_grad p = None) ->
      (forall g', g' ∈ w_groups Samples.frozen_world ->
         powers_overflow g' = false) ->
      (fltb fzero (d_max_grad_norm (w_defaults Samples.frozen_world)) = true ->
       exists g0 p0,
         w_groups Samples.frozen_world !! 0 = Some g0
         /\ g_params g0 !! 0 = Some p0) ->
      step None Samples.frozen_world
      = (Ok None,
         set_groups
           ((fun g' => set_g_step (next_step g') g')
              <$> w_groups Samples.frozen_world) Samples.frozen_world)).
Proof.
  apply (step_without_gradients_in_group None Samples.frozen_world
           Samples.frozen_world None 0
           (Samples.group_of (Samples.hyper 0) [Samples.frozen_param])).
  - reflexivity.
  - reflexivity.
  - intros p Hp. apply list_elem_of_singleton in Hp. subst p. reflexivity.
  - intros p l Hp Hl. apply list_elem_of_singleton in Hp. subst p.
    apply list_elem_of_singleton in Hl. subst l.
    exists [1%float]. reflexivity.
  - intros g' q Hg' Hq Hgrad. exfalso.
    apply list_elem_of_singleton in Hg'. subst g'.
    apply list_elem_of_singleton in Hq. subst q.
    destruct Hgrad as [x Hx]. discriminate.
Defined.

Lemma step_seeds_neg_pre_grad_witness :
  exists c w',
    clip_pass Samples.clipped_world = (Ok c, Samples.clipped_world)
    /\ step None Samples.clipped_world = (Ok None, w')
    /\ forall gi g p gl tp tg,
         w_groups Samples.clipped_world !! gi = Some g -> p ∈ g_params g ->
         p_grad p = Some gl ->
         w_heap Samples.clipped_world !! p_data p = Some tp ->
         w_heap Samples.clipped_world !! gl = Some tg ->
         next_step g = 1
         \/ neg_pre_grad
              (default empty_state
                 (w_state Samples.clipped_world !! p_data p)) = None ->
         exists s v,
           v = start_values c (next_step g) Samples.clipped_world p tp tg
           /\ a_param v = tp /\ a_grad v = tg
           /\ a_neg_pre_grad v = t_mul tg (- c)%F
           /\ s_param s = p_data p /\ s_grad s = gl
           /\ w_state w' !! p_data p = Some (state_of s)
           /\ values_at (w_heap w') s = Some (updated c g v).
Proof.
  apply (step_seeds_neg_pre_grad None Samples.clipped_world
           Samples.clipped_world None).
  - reflexivity.
  - split.
    + intros g p g' Hg Hp Hg'.
      apply elem_of_cons in Hg as [->|Hg];
        [|apply list_elem_of_singleton in Hg; subst g];
        apply list_elem_of_singleton in Hp; subst p;
        injection Hg' as <-.
      * exists [1%float; 2%float], [3%float; 4%float].
        split; try reflexivity; [now left|].
        intros l Hl. inversion Hl.
      * exists [1%float], [12%float].
        split; try reflexivity; [now left|].
        intros l Hl. inversion Hl.
    + apply (bool_decide_unpack (NoDup (all_handled Samples.clipped_world))).
      vm_compute. exact Logic.I.
    + intros g Hg.
      apply elem_of_cons in Hg as [->|Hg];
        [|apply list_elem_of_singleton in Hg; subst g];
        (repeat split; [reflexivity..|now exists true]).
  - intros _. exists Samples.clipped_group_a, Samples.clipped_param_a.
    split; reflexivity.
Defined.


(** * Further properties of the kernels and of the optimizer *)

(** ** The kernels *)

Section KernelExtras.
Context {F : Type} `{Scalar F}.






End KernelExtras.

Section DivisionByZero.
Context {F : Type} `{Scalar F}.



End DivisionByZero.

(** ** The groups during a step *)

Section StepCounters.
Context {F : Type} `{Scalar F}.


End StepCounters.

(** ** What [restart_opt] keeps *)

Section RestartFrame.
Context {F : Type} `{Scalar F}.

(** [w0] is the optimizer before [restart_opt]. *)
Variable w0 : World F.










End RestartFrame.

Section RestartFrameTheorem.
Context {F : Type} `{Scalar F}.


End RestartFrameTheorem.

(** ** The loop over the parameters of a group *)

Section GatherLists.
Context {F : Type} `{Scalar F}.








End GatherLists.

Section MissingMoment.
Context {F : Type} `{Scalar F}.



End MissingMoment.

(** ** Runs of the further properties *)

Module MoreSamples.





End MoreSamples.








